(** * vstream: instrumented streams

    A shallow embedding of [lib/vstream.js] and [lib/stream-pipeline.js].

    JavaScript objects live in a heap indexed by locations, so that object
    identity ([===] on objects), aliasing and in-place mutation are what
    the source makes them.  Every library function is a computation in a
    state-and-exception monad over this heap; an exception leaves the heap
    as the statements executed before the [throw] left it.  Calls that leave
    the library (the native [push], the wrapped [_transform] and [_flush],
    the completion callback handed in by the stream engine, [emit]) are
    recorded, in order, in a trace of effects. *)

From stdpp Require Import gmap strings list fin_maps pretty sorting.
From Stdlib Require Import ZArith.

Open Scope string_scope.
Open Scope list_scope.
Open Scope nat_scope.

(** ** Values and heap objects *)

Definition loc := nat.

(** JavaScript values, as far as the library distinguishes them. *)
Inductive value :=
  | VUndefined
  | VNull
  | VBool (b : bool)
  | VNum (n : Z)
  | VStr (s : string)
  | VRef (l : loc).

Global Instance value_eq_dec : EqDecision value.
Proof. solve_decision. Defined.

(** [vs_marshalmode]: the three strings the library ever stores there. *)
Inductive marshalmode := unspecified | marshal | nomarshal.

Global Instance marshalmode_eq_dec : EqDecision marshalmode.
Proof. solve_decision. Defined.

(** One element of [pv_provenance]: the literal
    [{ 'pvp_source': ..., 'pvp_input': ... }]. *)
Record pentry := PEntry { pvp_source : string; pvp_input : nat }.

Global Instance pentry_eq_dec : EqDecision pentry.
Proof. solve_decision. Defined.

(** A stream object (an EventEmitter).  A field the library adds is absent
    ([None]) until the instrumentation that adds it has run.  A [string] is
    the UTF-8 bytes of a JavaScript string.  [vs_counters] is a plain object
    whose prototype is [Object.prototype]: the map holds its own properties,
    and what it inherits ([hasOwnProperty], the accessor [__proto__]) is
    written out where the library reads or writes the table (see
    [vsCounterBump]).  A counter is a JavaScript number that holds a
    natural; [increment] is its [++]. *)
Record stream := Stream {
  ctor_name : string;                   (* constructor.name *)
  vs_name : option string;
  vs_counters : gmap string nat;
  vs_context : option loc;              (* null, or a ProvenanceValue *)
  vs_upstreams : option (list loc);
  vs_downstreams : option (list loc);
  vs_marshalmode : option marshalmode;
  ps_streams : option (list loc);       (* PipelineStream only *)
  ps_needreadable : bool;
  rs_length : Z;                        (* _readableState.length *)
  rs_highWaterMark : Z                  (* _readableState.highWaterMark *)
}.

Definition with_name (n : option string) (s : stream) : stream :=
  Stream (ctor_name s) n (vs_counters s) (vs_context s) (vs_upstreams s)
    (vs_downstreams s) (vs_marshalmode s) (ps_streams s) (ps_needreadable s)
    (rs_length s) (rs_highWaterMark s).

Definition with_counters (c : gmap string nat) (s : stream) : stream :=
  Stream (ctor_name s) (vs_name s) c (vs_context s) (vs_upstreams s)
    (vs_downstreams s) (vs_marshalmode s) (ps_streams s) (ps_needreadable s)
    (rs_length s) (rs_highWaterMark s).

Definition with_context (c : option loc) (s : stream) : stream :=
  Stream (ctor_name s) (vs_name s) (vs_counters s) c (vs_upstreams s)
    (vs_downstreams s) (vs_marshalmode s) (ps_streams s) (ps_needreadable s)
    (rs_length s) (rs_highWaterMark s).

Definition with_upstreams (u : option (list loc)) (s : stream) : stream :=
  Stream (ctor_name s) (vs_name s) (vs_counters s) (vs_context s) u
    (vs_downstreams s) (vs_marshalmode s) (ps_streams s) (ps_needreadable s)
    (rs_length s) (rs_highWaterMark s).

Definition with_downstreams (d : option (list loc)) (s : stream) : stream :=
  Stream (ctor_name s) (vs_name s) (vs_counters s) (vs_context s)
    (vs_upstreams s) d (vs_marshalmode s) (ps_streams s) (ps_needreadable s)
    (rs_length s) (rs_highWaterMark s).

Definition with_marshalmode (m : option marshalmode) (s : stream) : stream :=
  Stream (ctor_name s) (vs_name s) (vs_counters s) (vs_context s)
    (vs_upstreams s) (vs_downstreams s) m (ps_streams s) (ps_needreadable s)
    (rs_length s) (rs_highWaterMark s).

Definition with_needreadable (b : bool) (s : stream) : stream :=
  Stream (ctor_name s) (vs_name s) (vs_counters s) (vs_context s)
    (vs_upstreams s) (vs_downstreams s) (vs_marshalmode s) (ps_streams s) b
    (rs_length s) (rs_highWaterMark s).

Definition with_rs_length (n : Z) (s : stream) : stream :=
  Stream (ctor_name s) (vs_name s) (vs_counters s) (vs_context s)
    (vs_upstreams s) (vs_downstreams s) (vs_marshalmode s) (ps_streams s)
    (ps_needreadable s) n (rs_highWaterMark s).

(** Heap objects.  [pv_provenance] holds a reference to an array object:
    [slice] and [push] on it are an allocation and an in-place update. *)
Inductive obj :=
  | OArray (elems : list pentry)
  | OProv (pv_value : value) (pv_provenance : loc)
  | OError (message : string)
  | OStream (s : stream).

(** The closures the library hands to the wrapped [_transform] and
    [_flush], with the variables they capture. *)
Inductive continuation :=
  | TransformDone (self augmented : loc) (callback : nat)
  | FlushDone (self augmented : loc) (callback : nat).

(** Calls that leave the library: of [vs_realpush], [vs_realtransform]
    and [vs_realflush] (the methods [instrumentTransform] saved), of the
    callback the engine handed in, and of [emit]. *)
Inductive effect :=
  | RealPush (self : loc) (chunk : value)
  | RealTransform (self : loc) (payload enc : value) (k : continuation)
  | RealFlush (self : loc) (k : continuation)
  | Callback (callback : nat) (args : list value)
  | Emit (self : loc) (event : string) (args : list value).

Record world := World { heap : gmap loc obj; trace : list effect }.

Inductive error :=
  | AssertionError (msg : string)
  | TypeError
  | ThrownError (msg : string).

Inductive outcome (A : Type) :=
  | Returned (a : A)
  | Thrown (e : error).
Arguments Returned {A} a.
Arguments Thrown {A} e.

(** ** The monad *)

Definition M (A : Type) : Type := world -> outcome A * world.

Definition ret {A} (a : A) : M A := fun w => (Returned a, w).

Definition bind {A B} (c : M A) (k : A -> M B) : M B :=
  fun w => match c w with
           | (Returned a, w') => k a w'
           | (Thrown e, w') => (Thrown e, w')
           end.

Definition throw {A} (e : error) : M A := fun w => (Thrown e, w).

Notation "'let*' x ':=' c 'in' k" := (bind c (fun x => k))
  (at level 10, x name, c at level 100, k at level 200).
Notation "c '>>' k" := (bind c (fun _ => k))
  (at level 199, right associativity).

(** The message of an [assert.ok(cond)] that gives none. *)
Definition no_message : string := EmptyString.

Definition assert_ok (b : bool) (msg : string) : M unit :=
  if b then ret tt else throw (AssertionError msg).

Definition when (b : bool) (c : M unit) : M unit := if b then c else ret tt.

Definition log (e : effect) : M unit :=
  fun w => (Returned tt, World (heap w) (trace w ++ [e])).

Definition alloc (o : obj) : M loc :=
  fun w => let l := fresh (dom (heap w)) in
           (Returned l, World (<[l := o]> (heap w)) (trace w)).

Definition store (l : loc) (o : obj) : M unit :=
  fun w => (Returned tt, World (<[l := o]> (heap w)) (trace w)).

(** Reading a property of something that is not an object of the expected
    shape yields [undefined], and using that throws a TypeError. *)
Definition get_stream (l : loc) : M stream :=
  fun w => match heap w !! l with
           | Some (OStream s) => (Returned s, w)
           | _ => (Thrown TypeError, w)
           end.

Definition update_stream (l : loc) (f : stream -> stream) : M unit :=
  let* s := get_stream l in store l (OStream (f s)).

(** ** Object instrumentation *)

(** [typeof (obj.vs_name) == 'string'] *)
Definition isInstrumented (s : stream) : bool := bool_decide (is_Some (vs_name s)).

Definition instrumentObject (obj : loc) (name : string) : M unit :=
  let* s := get_stream obj in
  assert_ok (negb (isInstrumented s)) "object already instrumented" >>
  update_stream obj (with_name (Some name)) >>
  update_stream obj (with_counters ∅) >>
  update_stream obj (with_context None).

(** The methods [instrumentObject] installs, and the [vs_counters] they
    use, exist only on an instrumented object; elsewhere the call is a
    TypeError. *)
Definition method_of_object (self : loc) : M unit :=
  let* s := get_stream self in
  if isInstrumented s then ret tt else throw TypeError.

(** [n++] on a counter.  A JavaScript number holds every integer up to
    2^53, every second one from there to 2^54 and fewer beyond; a sum is
    rounded to the nearest number there is, and to the one with the even
    mantissa when two are as near.  So [2^53 + 1] is [2^53] again: counting
    from 0 ends there.  (A natural that is no JavaScript number is never in
    a table.) *)
Definition increment (n : nat) : nat :=
  let m := N.of_nat n in
  if (m <? 9007199254740992)%N then S n
  else if (m <? 18014398509481984)%N && N.odd ((m - 9007199254740992) / 2)%N
       then S (S n)
       else n.

(** [counters[name] = v].  [__proto__] is an accessor of [Object.prototype]:
    unless the table has an own property of that name, the assignment goes
    to its setter, which ignores a number.  Every other inherited member is
    a plain property, and the assignment adds an own one. *)
Definition assign (name : string) (v : nat) (counters : gmap string nat)
    : gmap string nat :=
  if bool_decide (name = "__proto__") && bool_decide (counters !! name = None)
  then counters
  else <[name := v]> counters.

(** [counters[name]++] where [vsCounterBump] has it.  The only name that
    gets there without an own property is [__proto__] (see [assign]): what
    is read is then [Object.prototype], whose number is NaN, and the setter
    ignores what is written back. *)
Definition post_increment (name : string) (counters : gmap string nat)
    : gmap string nat :=
  match counters !! name with
  | Some n => <[name := increment n]> counters
  | None => counters
  end.

(** [this.vs_counters.hasOwnProperty(name)] looks [hasOwnProperty] up on
    the table itself: once the table has a counter of that name the method
    found is a number, and the call is a TypeError. *)
Definition vsCounterBump (self : loc) (name : string) : M unit :=
  method_of_object self >>
  let* s := get_stream self in
  if bool_decide (is_Some (vs_counters s !! "hasOwnProperty")) then throw TypeError
  else
    when (bool_decide (vs_counters s !! name = None))
      (update_stream self (fun s => with_counters (assign name 0 (vs_counters s)) s)) >>
    update_stream self
      (fun s => with_counters (post_increment name (vs_counters s)) s).

Definition vsCounters (self : loc) : M (gmap string nat) :=
  method_of_object self >>
  let* s := get_stream self in ret (vs_counters s).

(** [err instanceof Error] *)
Definition instanceof_Error (v : value) : M bool :=
  fun w => match v with
           | VRef l => match heap w !! l with
                       | Some (OError _) => (Returned true, w)
                       | _ => (Returned false, w)
                       end
           | _ => (Returned false, w)
           end.

Definition emit (self : loc) (event : string) (args : list value) : M unit :=
  log (Emit self event args).

(** ** ProvenanceValue *)

Definition get_prov (l : loc) : M (value * loc) :=
  fun w => match heap w !! l with
           | Some (OProv v a) => (Returned (v, a), w)
           | _ => (Thrown TypeError, w)
           end.

Definition get_array (l : loc) : M (list pentry) :=
  fun w => match heap w !! l with
           | Some (OArray es) => (Returned es, w)
           | _ => (Thrown TypeError, w)
           end.

(** [new ProvenanceValue(value)]: a new object whose [pv_provenance] is a
    new empty array.  Which of the two gets which fresh location makes no
    difference. *)
Definition new_ProvenanceValue (v : value) : M loc :=
  let* a := alloc (OArray []) in
  alloc (OProv v a).

(** [isInstrumented(source)] for an arbitrary heap object: only a stream
    that carries a name has a string [vs_name]. *)
Definition isInstrumented_at (l : loc) : M bool :=
  fun w => match heap w !! l with
           | Some (OStream s) => (Returned (isInstrumented s), w)
           | Some _ => (Returned false, w)
           | None => (Thrown TypeError, w)
           end.

(** [rv.pv_provenance = a] *)
Definition set_provenance (l a : loc) : M unit :=
  let* this := get_prov l in store l (OProv (fst this) a).

(** [a.push(e)] on a provenance array *)
Definition array_push (a : loc) (e : pentry) : M unit :=
  let* es := get_array a in store a (OArray (es ++ [e])).

(** [ProvenanceValue.prototype.next] *)
Definition next (self : loc) (newvalue : value) (source : loc) : M loc :=
  let* ok := isInstrumented_at source in
  assert_ok ok no_message >>
  let* rv := new_ProvenanceValue newvalue in
  let* this := get_prov self in
  let* hist := get_array (snd this) in
  let* copy := alloc (OArray hist) in                 (* slice(0) *)
  set_provenance rv copy >>
  let* src := get_stream source in
  array_push copy (PEntry (default EmptyString (vs_name src))
                          (default 0 (vs_counters src !! "ninputs"))) >>
  ret rv.

(** [ProvenanceValue.prototype.withSource] *)
Definition withSource (self : loc) (source : loc) : M loc :=
  let* this := get_prov self in
  next self (fst this) source.

(** ** Warnings *)

Definition vsWarn (self : loc) (err : value) (kind : value) : M unit :=
  method_of_object self >>
  let* s := get_stream self in
  assert_ok (isInstrumented s) "vsWarn() on uninstrumented stream" >>
  let* is_err := instanceof_Error err in
  assert_ok is_err "vsWarn() called without error" >>
  match kind with
  | VStr k =>
      let* context :=
        match vs_context s with
        | None => ret VNull
        | Some c => let* rv := withSource c self in ret (VRef rv)
        end in
      vsCounterBump self k >>
      emit self "warn" [context; kind; err]
  | _ => throw (AssertionError "string")
  end.

(** ** Stage linkage *)

Definition instrumentStream (stream : loc) : M unit :=
  let* s := get_stream stream in
  assert_ok (isInstrumented s)
    "attempted to instrument pipeline ops on uninstrumented stream" >>
  update_stream stream (with_upstreams (Some [])) >>
  update_stream stream (with_downstreams (Some [])).

(** The methods [instrumentStream] installs come with the two lists;
    without them the call is a TypeError.  ([vsRecordUnpipe] is installed
    under the property name [vsRecordUnipe].) *)
Definition method_of_stream (self : loc) : M unit :=
  let* s := get_stream self in
  if bool_decide (is_Some (vs_downstreams s)) then ret tt else throw TypeError.

Definition push_downstream (self x : loc) : M unit :=
  let* s := get_stream self in
  match vs_downstreams s with
  | Some l => update_stream self (with_downstreams (Some (l ++ [x])))
  | None => throw TypeError
  end.

Definition push_upstream (self x : loc) : M unit :=
  let* s := get_stream self in
  match vs_upstreams s with
  | Some l => update_stream self (with_upstreams (Some (l ++ [x])))
  | None => throw TypeError
  end.

Definition vsRecordPipe (self downstream : loc) : M unit :=
  method_of_stream self >>
  let* d := get_stream downstream in
  when (negb (isInstrumented d))
    (assert_ok (bool_decide (vs_upstreams d = None)) no_message >>
     instrumentObject downstream (ctor_name d) >>
     instrumentStream downstream) >>
  push_downstream self downstream >>
  push_upstream downstream self.

(** The scan [for (i = 0; i < a.length; i++) if (x == a[i]) break;]
    started at index [i]: the index it stops at. *)
Fixpoint scan (x : loc) (a : list loc) (i : nat) : nat :=
  match a with
  | [] => i
  | y :: a' => if decide (x = y) then i else scan x a' (S i)
  end.

(** [a.length] where [a] may be [undefined]. *)
Definition length_of (a : option (list loc)) : M nat :=
  match a with
  | Some l => ret (length l)
  | None => throw TypeError
  end.

Definition vsRecordUnpipe (self downstream : loc) : M unit :=
  method_of_stream self >>
  let* s := get_stream self in
  let i := scan downstream (default [] (vs_downstreams s)) 0 in
  let* n := length_of (vs_downstreams s) in
  assert_ok (i <? n) "attempted to remove downstream that's not registered" >>
  let* d := get_stream downstream in
  let j := scan self (default [] (vs_upstreams d)) 0 in
  let* m := length_of (vs_upstreams d) in
  assert_ok (j <? m) "attempted to remove upstream that's not registered" >>
  update_stream self
    (fun s => with_downstreams (delete i <$> vs_downstreams s) s) >>
  update_stream downstream
    (fun d => with_upstreams (delete j <$> vs_upstreams d) d).

(** The ['pipe'] listener that [instrumentStream] puts on [stream]. *)
Definition stream_on_pipe (stream source : loc) : M unit :=
  let* src := get_stream source in
  when (negb (isInstrumented src))
    (assert_ok (bool_decide (vs_downstreams src = None)) no_message >>
     instrumentObject source (ctor_name src) >>
     instrumentStream source) >>
  vsRecordPipe source stream.

(** ** Transform instrumentation *)

(** The ['pipe'] listener that [instrumentTransform] puts on a transform:
    [upstream] is the stream being piped into it. *)
Definition transform_on_pipe (upstream : loc) : M unit :=
  let* u := get_stream upstream in
  let* upstream :=
    match ps_streams u with
    | Some l => match last l with
                | Some t => ret t
                | None => throw TypeError
                end
    | None => ret upstream
    end in
  let* u := get_stream upstream in
  when (bool_decide (vs_marshalmode u = Some unspecified))
    (update_stream upstream (with_marshalmode (Some marshal))).

(** [instrumentTransform]: the state it writes is the marshal mode, set
    whatever it was.  The methods it saves and replaces are not state of
    the model: a proxy's call of what was saved ([vs_realpush],
    [vs_realtransform], [vs_realflush]) is an effect in the trace. *)
Definition instrumentTransform (transform : loc) : M unit :=
  let* s := get_stream transform in
  assert_ok (isInstrumented s) "transform stream is not an instrumented object" >>
  update_stream transform (with_marshalmode (Some unspecified)).

(** [chunk instanceof ProvenanceValue] *)
Definition instanceof_ProvenanceValue (v : value) : M (option loc) :=
  fun w => match v with
           | VRef l => match heap w !! l with
                       | Some (OProv _ _) => (Returned (Some l), w)
                       | _ => (Returned None, w)
                       end
           | _ => (Returned None, w)
           end.

(** Proxy for [push]. *)
Definition vsPush (self : loc) (chunk : value) : M unit :=
  let* s := get_stream self in
  assert_ok (isInstrumented s)
    "attempted call to vsPush() on uninstrumented Transform" >>
  assert_ok (bool_decide (chunk = VNull) || bool_decide (vs_context s <> None)) no_message >>
  if bool_decide (chunk = VNull) then log (RealPush self VNull)
  else
    vsCounterBump self "noutputs" >>
    let* s := get_stream self in
    when (bool_decide (vs_marshalmode s = Some unspecified))
      (update_stream self (with_marshalmode (Some nomarshal))) >>
    let* s := get_stream self in
    if bool_decide (vs_marshalmode s = Some nomarshal) then
      log (RealPush self chunk)
    else
      match vs_context s with
      | Some c =>
          let* augmented := next c chunk self in
          log (RealPush self (VRef augmented))
      | None => throw TypeError
      end.

(** Proxy for [_transform]: everything up to and including the call of the
    wrapped [_transform], which receives the closure [TransformDone]. *)
Definition vsTransform (self : loc) (chunk enc : value) (callback : nat) : M unit :=
  let* s := get_stream self in
  assert_ok (isInstrumented s)
    "attempted call to vsTransform() on uninstrumented Transform" >>
  assert_ok (bool_decide (vs_context s = None)) no_message >>
  let* pv := instanceof_ProvenanceValue chunk in
  let* augmented :=
    match pv with
    | Some l => ret l
    | None => new_ProvenanceValue chunk
    end in
  vsCounterBump self "ninputs" >>
  update_stream self (with_context (Some augmented)) >>
  let* a := get_prov augmented in
  log (RealTransform self (fst a) enc (TransformDone self augmented callback)).

(** JavaScript truthiness, for [!err]. *)
Definition truthy (v : value) : bool :=
  match v with
  | VUndefined | VNull => false
  | VBool b => b
  | VNum n => negb (n =? 0)%Z
  | VStr s => negb (bool_decide (s = EmptyString))
  | VRef _ => true
  end.

(** The closure passed to the wrapped [_transform], called with [args]. *)
Definition transform_done (self augmented : loc) (callback : nat)
    (args : list value) : M unit :=
  assert_ok (length args <? 3)
    "_transform callback passed more arguments than expected" >>
  let* s := get_stream self in
  assert_ok (bool_decide (vs_context s = Some augmented)) no_message >>
  when (negb (truthy (default VUndefined (args !! 0))) && (1 <? length args))
    (vsPush self (default VUndefined (args !! 1)) >>
     let* s := get_stream self in
     assert_ok (bool_decide (vs_context s = Some augmented)) no_message) >>
  update_stream self (with_context None) >>
  log (Callback callback (take 1 args)).

(** Proxy for [_flush]. *)
Definition vsFlush (self : loc) (callback : nat) : M unit :=
  let* s := get_stream self in
  assert_ok (isInstrumented s)
    "attempted call to vsFlush() on uninstrumented Transform" >>
  assert_ok (bool_decide (vs_context s = None)) no_message >>
  let* augmented := new_ProvenanceValue VUndefined in
  update_stream self (with_context (Some augmented)) >>
  log (RealFlush self (FlushDone self augmented callback)).

(** The closure passed to the wrapped [_flush], called with [args]. *)
Definition flush_done (self augmented : loc) (callback : nat)
    (args : list value) : M unit :=
  let* s := get_stream self in
  assert_ok (bool_decide (vs_context s = Some augmented)) no_message >>
  update_stream self (with_context None) >>
  log (Callback callback args).

Definition resume (k : continuation) (args : list value) : M unit :=
  match k with
  | TransformDone self augmented callback => transform_done self augmented callback args
  | FlushDone self augmented callback => flush_done self augmented callback args
  end.

(** ** PipelineStream *)

(** The ['pipe'] listener a PipelineStream puts on itself when its head
    carries a [vs_marshalmode]. *)
Definition pipeline_on_pipe (upstream : loc) : M unit :=
  let* u := get_stream upstream in
  let* upstream :=
    match ps_streams u with
    | Some l => match last l with
                | Some t => ret t
                | None => throw TypeError
                end
    | None => ret upstream
    end in
  let* u := get_stream upstream in
  when (bool_decide (vs_marshalmode u = Some unspecified))
    (update_stream upstream (with_marshalmode (Some marshal))).

(** [this.ps_tail], the last of [ps_streams]. *)
Definition ps_tail (s : stream) : M loc :=
  match ps_streams s with
  | Some l => match last l with
              | Some t => ret t
              | None => throw TypeError
              end
  | None => throw TypeError
  end.

Section PipelineStream.
(** The stream engine's primitives, which are not part of the library:
    [read(1)] on the tail and the native [push] of the Duplex. *)
Variable tail_read : loc -> M value.
Variable native_push : loc -> value -> M bool.

(** The [for (;;)] loop of [_read].  The result says whether the loop
    came to its [break] within [fuel] iterations. *)
Fixpoint read_loop (fuel : nat) (self : loc) : M bool :=
  match fuel with
  | 0 => ret false
  | S fuel' =>
      let* s := get_stream self in
      let* tail := ps_tail s in
      let* chunk := tail_read tail in
      if bool_decide (chunk = VNull) then
        update_stream self (with_needreadable true) >> ret true
      else
        let* more := native_push self chunk in
        if negb more then ret true else read_loop fuel' self
  end.

(** [PipelineStream.prototype._read] *)
Definition PipelineStream_read (fuel : nat) (self : loc) : M bool :=
  let* s := get_stream self in
  if (rs_length s >? rs_highWaterMark s + 1)%Z
  then throw (ThrownError "unexpected call to pipeline._read()")
  else read_loop fuel self.

Definition onTailReadable (fuel : nat) (self : loc) : M bool :=
  let* s := get_stream self in
  if negb (ps_needreadable s) then ret true
  else
    update_stream self (with_needreadable false) >>
    PipelineStream_read fuel self.
End PipelineStream.

(** ** Calls into the library *)

(** What the stream engine and user code can do with streams: instrument
    one as an object or as a stream, call a method, deliver a ['pipe'] event
    to a listener the library installed, call one of the closures the
    library handed out, or instrument one as a transform (again). *)
Inductive call :=
  | InstrumentObject (obj : loc) (name : string)
  | InstrumentStream (stream : loc)
  | CounterBump (self : loc) (name : string)
  | Warn (self : loc) (err kind : value)
  | RecordPipe (self downstream : loc)
  | RecordUnpipe (self downstream : loc)
  | StreamPiped (stream source : loc)
  | TransformPiped (upstream : loc)
  | PipelinePiped (upstream : loc)
  | Transform (self : loc) (chunk enc : value) (callback : nat)
  | Flush (self : loc) (callback : nat)
  | Push (self : loc) (chunk : value)
  | Resume (k : continuation) (args : list value)
  | InstrumentTransform (transform : loc).

Definition perform (c : call) : M unit :=
  match c with
  | InstrumentObject obj name => instrumentObject obj name
  | InstrumentStream stream => instrumentStream stream
  | CounterBump self name => vsCounterBump self name
  | Warn self err kind => vsWarn self err kind
  | RecordPipe self downstream => vsRecordPipe self downstream
  | RecordUnpipe self downstream => vsRecordUnpipe self downstream
  | StreamPiped stream source => stream_on_pipe stream source
  | TransformPiped upstream => transform_on_pipe upstream
  | PipelinePiped upstream => pipeline_on_pipe upstream
  | Transform self chunk enc callback => vsTransform self chunk enc callback
  | Flush self callback => vsFlush self callback
  | Push self chunk => vsPush self chunk
  | Resume k args => resume k args
  | InstrumentTransform transform => instrumentTransform transform
  end.

(** A sequence of calls; a call that throws leaves the world as it was at
    the [throw], and the next call goes on from there. *)
Definition run (cs : list call) (w : world) : world :=
  foldl (fun w c => snd (perform c w)) w cs.

(** ** Convenience wrappers *)

(** The [options] argument of [wrapStream] and [wrapTransform]: left out,
    a string, or an object, of which only [name] is read. *)
Inductive wrap_options :=
  | NoOptions
  | NameOption (name : string)
  | ObjectOptions (name : value).

(** [instrumentObject(stream, options)] with the [options] that
    [wrapStream] has made of its argument; [args.name] is checked last. *)
Definition instrumentObject_with (stream : loc) (options : wrap_options) : M unit :=
  let* s := get_stream stream in
  match options with
  | NoOptions => instrumentObject stream (ctor_name s)
  | NameOption name => instrumentObject stream name
  | ObjectOptions (VStr name) => instrumentObject stream name
  | ObjectOptions _ =>
      assert_ok (negb (isInstrumented s)) "object already instrumented" >>
      throw (AssertionError "args.name (string) is required")
  end.

Definition wrapStream (stream : loc) (options : wrap_options) : M loc :=
  instrumentObject_with stream options >>
  instrumentStream stream >>
  ret stream.

Definition wrapTransform (stream : loc) (options : wrap_options) : M loc :=
  let* stream := wrapStream stream options in
  instrumentTransform stream >>
  ret stream.

Definition vsName (self : loc) : M string :=
  method_of_object self >>
  let* s := get_stream self in
  match vs_name s with
  | Some n => ret n
  | None => throw TypeError
  end.

(** ** Walking the linkage *)

(** [stream.hasOwnProperty(p) && stream[p].length > 0 ? stream[p][0] : null]
    for one of the two lists; anything that is not a stream has no such
    property. *)
Definition first_of (get : stream -> option (list loc)) (stream : loc) : M (option loc) :=
  fun w => match heap w !! stream with
           | Some (OStream s) =>
               match get s with
               | Some (x :: _) => (Returned (Some x), w)
               | _ => (Returned None, w)
               end
           | _ => (Returned None, w)
           end.

(** The [while] loop of [vsHead]; [None] when [fuel] rounds were not
    enough. *)
Fixpoint head_loop (fuel : nat) (stream : loc) : M (option loc) :=
  match fuel with
  | 0 => ret None
  | S fuel' =>
      let* up := first_of vs_upstreams stream in
      match up with
      | Some u => head_loop fuel' u
      | None => ret (Some stream)
      end
  end.

Definition vsHead (fuel : nat) (self : loc) : M (option loc) :=
  method_of_stream self >>
  let* s := get_stream self in
  assert_ok (isInstrumented s) no_message >>
  assert_ok (bool_decide (is_Some (vs_upstreams s))) "stream has not been instrumented" >>
  head_loop fuel self.

(** [stream.ps_streams.forEach(function (s) { func(s, depth + 1); })]
    when [stream.ps_streams !== undefined]: the calls of [func]. *)
Definition members_of (stream : loc) (depth : nat) : M (list (loc * nat)) :=
  fun w => match heap w !! stream with
           | Some (OStream s) =>
               (Returned ((fun m => (m, S depth)) <$> default [] (ps_streams s)), w)
           | _ => (Returned [], w)
           end.

(** The [while] loop of [vsWalk]: the calls [func(stream, depth)] it makes,
    in order, for a [func] that leaves the linkage alone; [None] when
    [fuel] rounds were not enough. *)
Fixpoint walk_loop (fuel : nat) (stream : loc) (depth : nat)
    : M (option (list (loc * nat))) :=
  match fuel with
  | 0 => ret None
  | S fuel' =>
      let* members := members_of stream depth in
      let* down := first_of vs_downstreams stream in
      match down with
      | Some d =>
          let* rest := walk_loop fuel' d depth in
          ret ((fun r => (stream, depth) :: members ++ r) <$> rest)
      | None => ret (Some ((stream, depth) :: members))
      end
  end.

(** [vsWalk(func, depth)]; [depth] may be left out. *)
Definition vsWalk (fuel : nat) (self : loc) (depth : option nat)
    : M (option (list (loc * nat))) :=
  method_of_stream self >>
  let* s := get_stream self in
  assert_ok (bool_decide (is_Some (vs_downstreams s))) "stream has not been instrumented" >>
  walk_loop fuel self (default 0 depth).

(** ** Rendering *)

(** [p.pvp_source + ' input ' + p.pvp_input] *)
Definition label_part (p : pentry) : string :=
  pvp_source p +:+ " input " +:+ pretty (pvp_input p).

(** The code points a string of UTF-8 bytes stands for.  (Bytes that are
    not well-formed UTF-8 stand for no JavaScript string; they are taken as
    they come.) *)
Fixpoint code_points (bytes : list N) : list N :=
  match bytes with
  | [] => []
  | b0 :: r0 =>
      if (b0 <? 128)%N then b0 :: code_points r0
      else if (b0 <? 224)%N then
        match r0 with
        | b1 :: r1 => (b0 mod 32 * 64 + b1 mod 64)%N :: code_points r1
        | [] => [b0]
        end
      else if (b0 <? 240)%N then
        match r0 with
        | b1 :: b2 :: r2 =>
            (b0 mod 16 * 4096 + b1 mod 64 * 64 + b2 mod 64)%N :: code_points r2
        | _ => b0 :: code_points r0
        end
      else
        match r0 with
        | b1 :: b2 :: b3 :: r3 =>
            (b0 mod 8 * 262144 + b1 mod 64 * 4096 + b2 mod 64 * 64 + b3 mod 64)%N
            :: code_points r3
        | _ => b0 :: code_points r0
        end
  end.

(** The UTF-16 code units of a code point: itself, or a surrogate pair. *)
Definition code_units (cp : N) : list N :=
  if (cp <? 65536)%N then [cp]
  else [(55296 + (cp - 65536) / 1024)%N; (56320 + (cp - 65536) mod 1024)%N].

(** A JavaScript string as the language has it: its UTF-16 code units. *)
Definition utf16 (s : string) : list N :=
  code_points (Ascii.N_of_ascii <$> String.list_ascii_of_string s) ≫= code_units.

(** [a <= b] on strings: the first code unit that differs decides, and a
    prefix comes first. *)
Fixpoint units_le (a b : list N) : bool :=
  match a, b with
  | [], _ => true
  | _ :: _, [] => false
  | x :: a', y :: b' =>
      if (x <? y)%N then true
      else if (y <? x)%N then false
      else units_le a' b'
  end.

(** The order of the default [sort] on strings: by UTF-16 code units. *)
Definition name_le (a b : string) : Prop := Is_true (units_le (utf16 a) (utf16 b)).

Global Instance name_le_dec a b : Decision (name_le a b).
Proof. unfold name_le. apply _. Defined.

(** [Object.keys(counters).sort()] *)
Definition sorted_names (counters : gmap string nat) : list string :=
  merge_sort name_le ((map_to_list counters).*1).

Section Rendering.
(** [util.inspect(value, false, 4)] and the two [sprintf] formats of the
    counter dumps are not the library's. *)
Variable inspect : value -> string.
Variable sprintf_counter : string -> string -> nat -> string.

(** [ProvenanceValue.prototype.label] *)
Definition label (self : loc) : M string :=
  let* this := get_prov self in
  let* hist := get_array (snd this) in
  let parts := reverse (label_part <$> hist) in
  ret (String.concat " from " parts +:+ ": value " +:+ inspect (fst this)).

(** [vsDumpCounters(outstream)]: what is written to [outstream], one
    entry per [write]. *)
Definition vsDumpCounters (self : loc) : M (list string) :=
  let* name := vsName self in
  let* counters := vsCounters self in
  ret ((fun c => sprintf_counter name (c +:+ ":") (default 0 (counters !! c)))
         <$> sorted_names counters).
End Rendering.

(** ** Reading a world *)

Definition stream_at (w : world) (l : loc) : option stream :=
  match heap w !! l with
  | Some (OStream s) => Some s
  | _ => None
  end.

(** The payload and the history of the ProvenanceValue at [l]. *)
Definition pv_at (w : world) (l : loc) : option (value * list pentry) :=
  match heap w !! l with
  | Some (OProv v a) =>
      match heap w !! a with
      | Some (OArray es) => Some (v, es)
      | _ => None
      end
  | _ => None
  end.

Definition mode_at (w : world) (l : loc) : option marshalmode :=
  s ← stream_at w l; vs_marshalmode s.

Definition context_at (w : world) (l : loc) : option loc :=
  s ← stream_at w l; vs_context s.

Definition counter_at (w : world) (l : loc) (k : string) : option nat :=
  s ← stream_at w l; vs_counters s !! k.

Definition upstreams_of (w : world) (l : loc) : list loc :=
  default [] (s ← stream_at w l; vs_upstreams s).

Definition downstreams_of (w : world) (l : loc) : list loc :=
  default [] (s ← stream_at w l; vs_downstreams s).

(** [chunk instanceof ProvenanceValue], as a function of the heap. *)
Definition prov_of (w : world) (v : value) : option loc :=
  match v with
  | VRef l => match heap w !! l with
              | Some (OProv _ _) => Some l
              | _ => None
              end
  | _ => None
  end.

(** ** Results of calls *)

(** Replacing the object at [l] by [o]. *)
Definition put (l : loc) (o : obj) (w : world) : world :=
  World (<[l := o]> (heap w)) (trace w).

(** The table after a bump of [name] that was not a TypeError. *)
Definition counted (name : string) (counters : gmap string nat) : gmap string nat :=
  post_increment name
    (if bool_decide (counters !! name = None) then assign name 0 counters
     else counters).

(** The stream after such a [vsCounterBump(name)]. *)
Definition bumped (name : string) (s : stream) : stream :=
  with_counters (counted name (vs_counters s)) s.

(** No counter stands where the table's [hasOwnProperty] is looked up. *)
Definition unshadowed (s : stream) : Prop :=
  vs_counters s !! "hasOwnProperty" = None.

(** A count that [++] raises by one. *)
Definition below_ceiling (n : nat) : Prop := (N.of_nat n < 9007199254740992)%N.

(** 2^53, where counting ends. *)
Definition ceiling : nat := N.to_nat 9007199254740992.

(** The stream after [instrumentObject]. *)
Definition named (name : string) (s : stream) : stream :=
  with_context None (with_counters ∅ (with_name (Some name) s)).

(** The entry [next] appends for the stream [s]. *)
Definition entry_of (s : stream) : pentry :=
  PEntry (default EmptyString (vs_name s)) (default 0 (vs_counters s !! "ninputs")).

(** [vsCounterBump] of each of [ks], in order. *)
Definition bump_all (self : loc) (ks : list string) : M unit :=
  foldr (fun k c => vsCounterBump self k >> c) (ret tt) ks.

(** ** The linkage invariant *)

Definition occurrences (x : loc) (l : list loc) : nat :=
  length (filter (fun y => y = x) l).

(** [a] is in [b]'s upstreams as often as [b] is in [a]'s downstreams. *)
Definition mutual_linkage (w : world) : Prop :=
  forall a b, occurrences a (upstreams_of w b) = occurrences b (downstreams_of w a).

(** Every stream is either untouched or a stage: named, with both lists. *)
Definition disciplined (s : stream) : Prop :=
  match vs_name s with
  | Some _ => is_Some (vs_upstreams s) /\ is_Some (vs_downstreams s)
  | None => vs_upstreams s = None /\ vs_downstreams s = None
  end.

Definition stage_discipline (w : world) : Prop :=
  forall l s, heap w !! l = Some (OStream s) -> disciplined s.

(** A stage: a stream that carries both linkage lists. *)
Definition is_stage (w : world) (l : loc) : Prop :=
  exists s, heap w !! l = Some (OStream s)
            /\ is_Some (vs_upstreams s) /\ is_Some (vs_downstreams s).

Definition linkage_call (c : call) : Prop :=
  match c with
  | RecordPipe _ _ | RecordUnpipe _ _ => True
  | _ => False
  end.

(** What a successful [vsRecordPipe] leaves behind. *)
Definition piped (self downstream : loc) (w w' : world) : Prop :=
  stage_discipline w'
  /\ (forall x, downstreams_of w' x
                = downstreams_of w x ++ (if decide (x = self) then [downstream] else []))
  /\ (forall x, upstreams_of w' x
                = upstreams_of w x ++ (if decide (x = downstream) then [self] else [])).

(** What a successful [vsRecordUnpipe] leaves behind: the first matching
    entry is gone from each of the two lists. *)
Definition unpiped (self downstream : loc) (w w' : world) : Prop :=
  exists d1 d2 u1 u2,
    downstreams_of w self = d1 ++ downstream :: d2
    /\ downstreams_of w' self = d1 ++ d2
    /\ upstreams_of w downstream = u1 ++ self :: u2
    /\ upstreams_of w' downstream = u1 ++ u2
    /\ (downstream ∉ d1) /\ (self ∉ u1)
    /\ (forall x, x <> self -> downstreams_of w' x = downstreams_of w x)
    /\ (forall x, x <> downstream -> upstreams_of w' x = upstreams_of w x).

(** ** Stable facts *)

(** The computation [c] never destroys the fact [P] about the world,
    whether it returns or throws. *)
Definition keeps {A} (P : world -> Prop) (c : M A) : Prop :=
  forall w, P w -> P (snd (c w)).

(** The stream at [u] has the value [x] in its field (or group of
    fields) [f]. *)
Definition field_is {X} (f : stream -> X) (u : loc) (x : X) (w : world) : Prop :=
  exists s, heap w !! u = Some (OStream s) /\ f s = x.

(** ** The marshal-mode machine *)

(** The calls by which a stream is connected into an instrumented
    consumer: the ['pipe'] listeners of [instrumentTransform] and of a
    PipelineStream with an instrumented head. *)
Definition connection (c : call) : Prop :=
  match c with
  | TransformPiped _ | PipelinePiped _ => True
  | _ => False
  end.

(** The calls by which the stage [u] pushes a non-null chunk: [push], and
    the completion of [_transform], which pushes its result. *)
Definition emission (u : loc) (c : call) : Prop :=
  match c with
  | Push self chunk => self = u /\ chunk <> VNull
  | Resume (TransformDone self _ _) _ => self = u
  | _ => False
  end.

(** The mode is still open, or has gone to [m]. *)
Definition open_or (m : marshalmode) (s : stream) : bool :=
  bool_decide (vs_marshalmode s = Some unspecified \/ vs_marshalmode s = Some m).

(** ** The processing context *)

(** What the context invariant is about: the stream is instrumented and
    has this context. *)
Definition ctx_of (s : stream) : bool * option loc :=
  (isInstrumented s, vs_context s).

(** The calls that end a processing or flush call of [u]: the closures
    handed to the wrapped [_transform] and [_flush]. *)
(** Instrumenting [u] as a transform (again). *)
Definition reinstrumentation (u : loc) (c : call) : Prop :=
  match c with
  | InstrumentTransform transform => transform = u
  | _ => False
  end.

Definition completion (u : loc) (c : call) : Prop :=
  match c with
  | Resume (TransformDone self _ _) _ | Resume (FlushDone self _ _) _ => self = u
  | _ => False
  end.

(** ** The engine under the composite *)

(** What the library relies on from the native [push] of a readable side:
    the chunk is buffered as one more unit, and the answer is whether the
    buffer is still below the high watermark. *)
Definition push_buffers (native_push : loc -> value -> M bool) : Prop :=
  forall self chunk w s,
    heap w !! self = Some (OStream s) ->
    native_push self chunk w
    = (Returned (bool_decide (rs_length s + 1 < rs_highWaterMark s)%Z),
       put self (OStream (with_rs_length (rs_length s + 1) s)) w).

(** Reading from the tail does not touch the composite [self]. *)
Definition read_leaves (tail_read : loc -> M value) (self : loc) : Prop :=
  forall tail w s,
    heap w !! self = Some (OStream s) ->
    heap (snd (tail_read tail w)) !! self = Some (OStream s).

(** A native [push] as [push_buffers] describes it. *)
Definition buffering_push (self : loc) (chunk : value) : M bool :=
  let* s := get_stream self in
  update_stream self (with_rs_length (rs_length s + 1)) >>
  ret (bool_decide (rs_length s + 1 < rs_highWaterMark s)%Z).

(** ** Small worlds for examples *)

Definition plain_stream (ctor : string) : stream :=
  Stream ctor None ∅ None None None None None false 0 16.

Definition world_of (objs : list obj) : world :=
  World (map_seq 0 objs) [].

(** A transform [t1] that is processing its second input, the
    ProvenanceValue at 1, which came from a stage "t0"; 3 is an Error. *)
Definition busy_stream : stream :=
  Stream "TestTransform" (Some "t1") {["ninputs" := 2]} (Some 1)
    (Some []) (Some []) (Some marshal) None false 0 16.

Definition busy_world : world :=
  world_of [OStream busy_stream; OProv (VStr "he") 2; OArray [PEntry "t0" 5];
            OError "explicit drop"].

(** The same transform between two inputs: no context. *)
Definition idle_stream : stream :=
  Stream "TestTransform" (Some "t1") {["ninputs" := 2]} None
    (Some []) (Some []) (Some marshal) None false 0 16.

Definition idle_world : world :=
  world_of [OStream idle_stream; OProv (VStr "he") 2; OArray [PEntry "t0" 5];
            OError "explicit drop"].

(** The transform at work after a warning of kind "hasOwnProperty" has
    been counted, and the same between two inputs. *)
Definition shadowed_busy_stream : stream :=
  Stream "TestTransform" (Some "t1") {["ninputs" := 2; "hasOwnProperty" := 1]}
    (Some 1) (Some []) (Some []) (Some marshal) None false 0 16.

Definition shadowed_busy_world : world :=
  world_of [OStream shadowed_busy_stream; OProv (VStr "he") 2;
            OArray [PEntry "t0" 5]; OError "explicit drop"].

Definition shadowed_idle_stream : stream :=
  Stream "TestTransform" (Some "t1") {["ninputs" := 2; "hasOwnProperty" := 1]}
    None (Some []) (Some []) (Some marshal) None false 0 16.

Definition shadowed_idle_world : world :=
  world_of [OStream shadowed_idle_stream; OProv (VStr "he") 2;
            OArray [PEntry "t0" 5]; OError "explicit drop"].

(** A transform that does not marshal, at work, every counter of which
    has come to 2^53; and the same between two inputs. *)
Definition full_busy_stream : stream :=
  Stream "TestTransform" (Some "t1")
    {["ninputs" := ceiling; "noutputs" := ceiling; "bad line" := ceiling]}
    (Some 1) (Some []) (Some []) (Some nomarshal) None false 0 16.

Definition full_busy_world : world :=
  world_of [OStream full_busy_stream; OProv (VStr "he") 2;
            OArray [PEntry "t0" 5]; OError "explicit drop"].

Definition full_idle_stream : stream :=
  Stream "TestTransform" (Some "t1")
    {["ninputs" := ceiling; "noutputs" := ceiling; "bad line" := ceiling]}
    None (Some []) (Some []) (Some nomarshal) None false 0 16.

Definition full_idle_world : world :=
  world_of [OStream full_idle_stream; OProv (VStr "he") 2;
            OArray [PEntry "t0" 5]; OError "explicit drop"].

(** A transform [t1] piped from nothing yet, processing its first input. *)
Definition undecided_stream : stream :=
  Stream "TestTransform" (Some "t1") {["ninputs" := 1]} (Some 1)
    (Some []) (Some []) (Some unspecified) None false 0 16.

Definition undecided_world : world :=
  world_of [OStream undecided_stream; OProv (VStr "h") 2; OArray []].

(** The same after its first output: committed to [nomarshal]. *)
Definition committed_world : world := snd (vsPush 0 (VStr "1") undecided_world).

(** The same transform, still undecided, with a counter [hasOwnProperty]. *)
Definition shadowed_undecided_stream : stream :=
  Stream "TestTransform" (Some "t1") {["ninputs" := 1; "hasOwnProperty" := 1]}
    (Some 1) (Some []) (Some []) (Some unspecified) None false 0 16.

Definition shadowed_undecided_world : world :=
  world_of [OStream shadowed_undecided_stream; OProv (VStr "h") 2; OArray []].

(** Two stages "A" and "B" with A piped into B twice, and an unlinked "C". *)
Definition linked_world : world :=
  world_of [
    OStream (Stream "A" (Some "A") ∅ None (Some []) (Some [1; 1]) None None false 0 16);
    OStream (Stream "B" (Some "B") ∅ None (Some [0; 0]) (Some []) None None false 0 16);
    OStream (Stream "C" (Some "C") ∅ None (Some []) (Some []) None None false 0 16);
    OStream (plain_stream "D")
  ].

(** Three fresh stages and an untouched stream. *)
Definition fresh_stages : world :=
  world_of [
    OStream (Stream "A" (Some "A") ∅ None (Some []) (Some []) None None false 0 16);
    OStream (Stream "B" (Some "B") ∅ None (Some []) (Some []) None None false 0 16);
    OStream (Stream "C" (Some "C") ∅ None (Some []) (Some []) None None false 0 16);
    OStream (plain_stream "PassThrough")
  ].

(** A stage "A" and an object "E" that was given a name by
    [instrumentObject] but never made a stage. *)
Definition named_object_world : world :=
  world_of [
    OStream (Stream "A" (Some "A") ∅ None (Some []) (Some []) None None false 0 16);
    OStream (Stream "E" (Some "E") ∅ None None None None None false 0 16)
  ].

(** A PipelineStream over the streams 1 and 2 whose readable buffer holds
    18 units against a high watermark of 16. *)
Definition overfull_pipeline : stream :=
  Stream "PipelineStream" (Some "PipelineStream") ∅ None (Some []) (Some [])
    None (Some [1; 2]) false 18 16.

Definition overfull_world : world :=
  world_of [OStream overfull_pipeline; OStream (plain_stream "PassThrough");
            OStream (plain_stream "PassThrough")].

(** A PipelineStream over the streams 1 and 2 with 14 units buffered. *)
Definition filling_pipeline : stream :=
  Stream "PipelineStream" (Some "PipelineStream") ∅ None (Some []) (Some [])
    None (Some [1; 2]) false 14 16.

Definition filling_world : world :=
  world_of [OStream filling_pipeline; OStream (plain_stream "PassThrough");
            OStream (plain_stream "PassThrough")].

(** ** Results of the wrappers *)

(** The name [wrapStream] gives a stream, when the options are usable. *)
Definition name_for (options : wrap_options) (s : stream) : option string :=
  match options with
  | NoOptions => Some (ctor_name s)
  | NameOption name => Some name
  | ObjectOptions (VStr name) => Some name
  | ObjectOptions _ => None
  end.

(** The stream after [instrumentObject] and [instrumentStream]. *)
Definition staged (name : string) (s : stream) : stream :=
  with_downstreams (Some []) (with_upstreams (Some []) (named name s)).

(** ** More on linkage *)

(** The calls that record or remove linkage: the two methods and the
    ['pipe'] listener of [instrumentStream]. *)
Definition linking_call (c : call) : Prop :=
  match c with
  | RecordPipe _ _ | RecordUnpipe _ _ | StreamPiped _ _ => True
  | _ => False
  end.

(** A stage "A" and two streams nothing has touched. *)
Definition one_stage_world : world :=
  world_of [
    OStream (Stream "A" (Some "A") ∅ None (Some []) (Some []) None None false 0 16);
    OStream (plain_stream "PassThrough");
    OStream (plain_stream "Socket")
  ].

(** ** Chains of stages *)

(** A stage that is no pipeline, with its two lists. *)
Definition stage_with (w : world) (x : loc) (ups downs : list loc) : Prop :=
  exists s, heap w !! x = Some (OStream s) /\ is_Some (vs_name s)
            /\ vs_upstreams s = Some ups /\ vs_downstreams s = Some downs
            /\ ps_streams s = None.

(** The [vsRecordPipe] calls that pipe the stages of a list one into the
    next. *)
Fixpoint pipe_chain (l : list loc) : list call :=
  match l with
  | [] => []
  | a :: rest =>
      match rest with
      | [] => []
      | b :: _ => RecordPipe a b :: pipe_chain rest
      end
  end.

(** The stages of [l] are linked one to the next and to nothing else; the
    first has the upstreams [ups]. *)
Fixpoint linked_from (w : world) (ups : list loc) (l : list loc) : Prop :=
  match l with
  | [] => True
  | a :: rest => stage_with w a ups (option_list (head rest)) /\ linked_from w [a] rest
  end.

(** The streams a pipeline is made of; none for any other object. *)
Definition pipeline_members (w : world) (p : loc) : list loc :=
  default [] (s ← stream_at w p; ps_streams s).

(** [h] is reached from [x] by going to the first upstream some number of
    times. *)
Inductive first_upstream_path (w : world) : loc -> loc -> Prop :=
  | path_here x : first_upstream_path w x x
  | path_up x y h :
      head (upstreams_of w x) = Some y -> first_upstream_path w y h ->
      first_upstream_path w x h.

(** Two stages piped into each other. *)
Definition ring_world : world := run [RecordPipe 0 1; RecordPipe 1 0] fresh_stages.

(** A pipeline (1) of two stages (2, 3) downstream of a stage (0). *)
Definition pipeline_world : world :=
  world_of [
    OStream (Stream "A" (Some "A") ∅ None (Some []) (Some [1]) None None false 0 16);
    OStream (Stream "PipelineStream" (Some "PipelineStream") ∅ None (Some [0])
               (Some []) None (Some [2; 3]) false 0 16);
    OStream (Stream "B" (Some "B") ∅ None (Some []) (Some [3]) None None false 0 16);
    OStream (Stream "C" (Some "C") ∅ None (Some [2]) (Some []) None None false 0 16)
  ].

(** ** Provenance through a stage *)

(** What a chunk brings along when it comes in: the payload and history of
    a [ProvenanceValue], or the chunk itself with no history. *)
Definition incoming (w : world) (chunk : value) : option (value * list pentry) :=
  match prov_of w chunk with
  | Some l => pv_at w l
  | None => Some (chunk, [])
  end.

(** A marshalling stage "m" that has seen two inputs, and a value with a
    history of one entry. *)
Definition marshal_stream : stream :=
  Stream "T" (Some "m") {[ "ninputs" := 2 ]} None (Some []) (Some [])
         (Some marshal) None false 0 16.

Definition marshal_world : world :=
  world_of [ OStream marshal_stream; OProv (VStr "in") 2; OArray [PEntry "t0" 5] ].

(** The stage "m" at work on the value at 1. *)
Definition working_world : world :=
  world_of [ OStream (with_context (Some 1) marshal_stream);
             OProv (VStr "in") 2; OArray [PEntry "t0" 5] ].

(** The stage's own callback, called with nothing, and then the same value
    object coming in again, with another callback. *)
Definition reprocessing_world : world :=
  run [Resume (TransformDone 0 1 7) []; Transform 0 (VRef 1) VUndefined 8]
    working_world.

(** ** Labels *)

(** The trail of a history as [label] prints it, newest entry first. *)
Definition trail (hist : list pentry) : string :=
  String.concat " from " (reverse (label_part <$> hist)).

(** ** Permanence of instrumentation *)

(** The name of an object, and whether its counter [k] has reached [v]. *)
Definition name_and_floor (k : string) (v : nat) (s : stream) : option string * bool :=
  (vs_name s, bool_decide (v <= default 0 (vs_counters s !! k))).

(** A pipeline that waits for its tail. *)
Definition waiting_world : world :=
  world_of [OStream (with_needreadable true filling_pipeline);
            OStream (plain_stream "PassThrough");
            OStream (plain_stream "PassThrough")].

(** ** Names beyond ASCII *)

(** U+FF5E and U+1F600 in UTF-8: the first has the lower bytes, the second
    the lower code units. *)
Definition fullwidth_tilde : string :=
  String.string_of_list_ascii (Ascii.ascii_of_N <$> [239; 189; 158]%N).

Definition grinning_face : string :=
  String.string_of_list_ascii (Ascii.ascii_of_N <$> [240; 159; 152; 128]%N).

(** * Verification *)

(** ** Running the monad *)

Lemma bind_returned {A B} (c : M A) (k : A -> M B) w a w' :
  c w = (Returned a, w') -> bind c k w = k a w'.
Proof. unfold bind. by intros ->. Qed.

Lemma bind_thrown {A B} (c : M A) (k : A -> M B) w e w' :
  c w = (Thrown e, w') -> bind c k w = (Thrown e, w').
Proof. unfold bind. by intros ->. Qed.

Lemma get_stream_eq w l s :
  heap w !! l = Some (OStream s) -> get_stream l w = (Returned s, w).
Proof. unfold get_stream. by intros ->. Qed.

Lemma update_stream_eq w l s f :
  heap w !! l = Some (OStream s) ->
  update_stream l f w
  = (Returned tt, World (<[l := OStream (f s)]> (heap w)) (trace w)).
Proof.
  intros H. unfold update_stream.
  by rewrite (bind_returned _ _ _ _ _ (get_stream_eq _ _ _ H)).
Qed.

Lemma method_of_object_eq w l s :
  heap w !! l = Some (OStream s) -> is_Some (vs_name s) ->
  method_of_object l w = (Returned tt, w).
Proof.
  intros H Hn. unfold method_of_object.
  rewrite (bind_returned _ _ _ _ _ (get_stream_eq _ _ _ H)).
  unfold isInstrumented. by rewrite bool_decide_eq_true_2.
Qed.

Lemma put_put l o1 o2 w : put l o2 (put l o1 w) = put l o2 w.
Proof. unfold put. simpl. by rewrite insert_insert_eq. Qed.

Lemma heap_put_eq l o w : heap (put l o w) !! l = Some o.
Proof. apply lookup_insert_eq. Qed.

Lemma heap_put_ne l l' o w : l <> l' -> heap (put l o w) !! l' = heap w !! l'.
Proof. intros. by apply lookup_insert_ne. Qed.

Lemma vsCounterBump_eq w self s name :
  heap w !! self = Some (OStream s) -> is_Some (vs_name s) -> unshadowed s ->
  vsCounterBump self name w = (Returned tt, put self (OStream (bumped name s)) w).
Proof.
  intros H Hn Hu. unfold vsCounterBump.
  rewrite (bind_returned _ _ _ _ _ (method_of_object_eq _ _ _ H Hn)).
  rewrite (bind_returned _ _ _ _ _ (get_stream_eq _ _ _ H)).
  unfold unshadowed in Hu. rewrite Hu.
  rewrite bool_decide_eq_false_2 by (by intros [? ?]).
  unfold bumped, counted.
  destruct (vs_counters s !! name) as [n|] eqn:Hk.
  - rewrite !bool_decide_eq_false_2 by done. cbn [when].
    rewrite (bind_returned _ _ _ tt w) by reflexivity.
    by rewrite (update_stream_eq _ _ _ _ H).
  - rewrite !bool_decide_eq_true_2 by done. cbn [when].
    rewrite (bind_returned _ _ _ _ _ (update_stream_eq _ _ _ _ H)).
    erewrite update_stream_eq by apply lookup_insert_eq.
    unfold put. simpl. by rewrite insert_insert_eq.
Qed.

Lemma vsCounterBump_shadowed w self s name :
  heap w !! self = Some (OStream s) -> is_Some (vs_name s) ->
  is_Some (vs_counters s !! "hasOwnProperty") ->
  vsCounterBump self name w = (Thrown TypeError, w).
Proof.
  intros H Hn Hshadow. unfold vsCounterBump.
  rewrite (bind_returned _ _ _ _ _ (method_of_object_eq _ _ _ H Hn)).
  rewrite (bind_returned _ _ _ _ _ (get_stream_eq _ _ _ H)).
  by rewrite bool_decide_eq_true_2.
Qed.

(** ** Counters *)

Lemma ceiling_unfold : ceiling = N.to_nat 9007199254740992.
Proof. reflexivity. Qed.

(* The numeral 2^53 is never written out in unary. *)
Global Opaque ceiling.

Lemma increment_below n : below_ceiling n -> increment n = S n.
Proof.
  unfold below_ceiling, increment. intros Hn.
  by rewrite (proj2 (N.ltb_lt _ _) Hn).
Qed.

Lemma increment_ceiling : increment ceiling = ceiling.
Proof.
  rewrite ceiling_unfold. unfold increment. rewrite N2Nat.id.
  replace (9007199254740992 <? 9007199254740992)%N with false
    by (by vm_compute).
  replace ((9007199254740992 <? 18014398509481984)%N
           && N.odd ((9007199254740992 - 9007199254740992) / 2)%N) with false
    by (by vm_compute).
  reflexivity.
Qed.

Lemma increment_ge n : n <= increment n.
Proof. unfold increment. repeat case_match; lia. Qed.

Lemma below_ceiling_lt n : below_ceiling n <-> n < ceiling.
Proof. rewrite ceiling_unfold. unfold below_ceiling. lia. Qed.

Lemma counted_lookup_ne k k' c : k <> k' -> counted k' c !! k = c !! k.
Proof.
  intros Hne. unfold counted, post_increment, assign.
  repeat case_match; simplify_map_eq; done.
Qed.

Lemma counted_lookup k c :
  k <> "__proto__" ->
  counted k c !! k = Some (increment (default 0 (c !! k))).
Proof.
  intros Hk. unfold counted, post_increment, assign.
  destruct (c !! k) as [n|] eqn:Hc.
  - rewrite bool_decide_eq_false_2 by done. rewrite Hc. by simplify_map_eq.
  - rewrite bool_decide_eq_true_2 by done.
    rewrite (bool_decide_eq_false_2 (k = "__proto__")) by done. cbn [andb].
    by simplify_map_eq.
Qed.

Lemma counted_proto c : c !! "__proto__" = None -> counted "__proto__" c = c.
Proof.
  intros Hc. unfold counted, post_increment, assign.
  rewrite !bool_decide_eq_true_2 by done. cbn [andb]. by rewrite Hc.
Qed.

Lemma counted_ge name k c : default 0 (c !! k) <= default 0 (counted name c !! k).
Proof.
  destruct (decide (k = name)) as [->|Hne]; [|by rewrite counted_lookup_ne].
  destruct (decide (name = "__proto__")) as [->|Hp].
  - destruct (c !! "__proto__") as [n|] eqn:Hc;
      [|rewrite counted_proto, Hc by done; lia].
    unfold counted, post_increment.
    rewrite bool_decide_eq_false_2 by congruence. rewrite Hc.
    rewrite lookup_insert_eq. apply increment_ge.
  - rewrite counted_lookup by done. apply increment_ge.
Qed.

Lemma instrumentObject_eq w obj s name :
  heap w !! obj = Some (OStream s) -> vs_name s = None ->
  instrumentObject obj name w = (Returned tt, put obj (OStream (named name s)) w).
Proof.
  intros H Hn. unfold instrumentObject.
  rewrite (bind_returned _ _ _ _ _ (get_stream_eq _ _ _ H)).
  unfold isInstrumented. rewrite Hn. simpl.
  unfold bind at 1. simpl.
  rewrite (bind_returned _ _ _ _ _ (update_stream_eq _ _ _ _ H)).
  erewrite bind_returned by (apply update_stream_eq, lookup_insert_eq).
  erewrite update_stream_eq by apply lookup_insert_eq.
  unfold put. simpl. by rewrite !insert_insert_eq.
Qed.

Lemma stream_at_put l o w : stream_at (put l (OStream o) w) l = Some o.
Proof. unfold stream_at. by rewrite heap_put_eq. Qed.

Lemma counter_at_put l o w k :
  counter_at (put l (OStream o) w) l k = vs_counters o !! k.
Proof. unfold counter_at. by rewrite stream_at_put. Qed.

Lemma bumped_other k k' s :
  k <> k' -> vs_counters (bumped k' s) !! k = vs_counters s !! k.
Proof. intros. unfold bumped. simpl. by apply counted_lookup_ne. Qed.

Lemma bumped_same k s :
  k <> "__proto__" -> below_ceiling (default 0 (vs_counters s !! k)) ->
  vs_counters (bumped k s) !! k = Some (S (default 0 (vs_counters s !! k))).
Proof.
  intros Hk Hb. unfold bumped. simpl.
  by rewrite counted_lookup, increment_below.
Qed.

Lemma bumped_unshadowed k s :
  k <> "hasOwnProperty" -> unshadowed s -> unshadowed (bumped k s).
Proof. intros Hk Hu. unfold unshadowed. by rewrite bumped_other. Qed.

Lemma bump_all_eq ks : forall w self s,
  heap w !! self = Some (OStream s) -> is_Some (vs_name s) ->
  unshadowed s -> ("hasOwnProperty" ∉ ks) ->
  bump_all self ks w
  = (Returned tt,
     match ks with
     | [] => w
     | _ => put self (OStream (foldl (fun s k => bumped k s) s ks)) w
     end).
Proof.
  induction ks as [|k ks IH]; intros w self s H Hn Hu Hks; [done|].
  apply not_elem_of_cons in Hks as [Hk Hks].
  simpl. rewrite (bind_returned _ _ _ _ _ (vsCounterBump_eq _ _ _ _ H Hn Hu)).
  rewrite (IH _ self (bumped k s));
    [|apply heap_put_eq|done|by apply bumped_unshadowed|done].
  destruct ks; [done|]. by rewrite put_put.
Qed.

Lemma bumped_absent k ks : forall s,
  k ∉ ks -> vs_counters (foldl (fun s k => bumped k s) s ks) !! k = vs_counters s !! k.
Proof.
  induction ks as [|k' ks IH]; intros s Hk; [done|].
  apply not_elem_of_cons in Hk as [Hne Hk].
  simpl. rewrite IH by done. by apply bumped_other.
Qed.

(** [N] bumps of a counter that is not there yet: the count, up to the
    ceiling. *)
Lemma bumped_repeat k N : forall s,
  k <> "__proto__" ->
  vs_counters (foldl (fun s k => bumped k s) s (replicate (S N) k)) !! k
  = Some (Nat.iter (S N) increment (default 0 (vs_counters s !! k))).
Proof.
  induction N as [|N IH]; intros s Hk.
  - simpl. unfold bumped. simpl. by apply counted_lookup.
  - change (replicate (S (S N)) k) with (k :: replicate (S N) k).
    cbn [foldl]. rewrite IH by done. unfold bumped at 1. simpl.
    rewrite counted_lookup by done. simpl.
    by rewrite <- !Nat.iter_succ_r.
Qed.

Lemma iter_increment N : Nat.iter N increment 0 = N `min` ceiling.
Proof.
  induction N as [|N IH]; [done|].
  rewrite Nat.iter_succ, IH.
  destruct (decide (N < ceiling)) as [Hlt|Hge].
  - rewrite Nat.min_l by lia. rewrite increment_below by by apply below_ceiling_lt.
    lia.
  - rewrite Nat.min_r by lia. rewrite increment_ceiling. lia.
Qed.

Lemma replicate_not_elem (k k' : string) N : k <> k' -> k ∉ replicate N k'.
Proof. intros Hne Hin. by apply elem_of_replicate in Hin as [? _]. Qed.

Lemma bump_repeat_eq w obj s name k N :
  heap w !! obj = Some (OStream s) -> vs_name s = None ->
  k <> "hasOwnProperty" -> k <> "__proto__" ->
  exists w', (instrumentObject obj name >> bump_all obj (replicate (S N) k)) w
             = (Returned tt, w')
             /\ counter_at w' obj k = Some (S N `min` ceiling).
Proof.
  intros H Hn Hk Hp.
  assert (Hi := instrumentObject_eq w obj s name H Hn).
  eexists. split.
  - rewrite (bind_returned _ _ _ _ _ Hi).
    apply bump_all_eq; [apply heap_put_eq|simpl; eauto|done|].
    by apply replicate_not_elem.
  - change (replicate (S N) k) with (k :: replicate N k). cbv iota.
    change (k :: replicate N k) with (replicate (S N) k).
    rewrite counter_at_put, (bumped_repeat k N) by done.
    change (vs_counters (named name s)) with (∅ : gmap string nat).
    rewrite lookup_empty. f_equal. apply (iter_increment (S N)).
Qed.




(** ** Provenance values *)

Lemma alloc_eq o w :
  alloc o w = (Returned (fresh (dom (heap w))), put (fresh (dom (heap w))) o w).
Proof. reflexivity. Qed.

Lemma fresh_None w : heap w !! fresh (dom (heap w)) = None.
Proof. apply not_elem_of_dom, is_fresh. Qed.

Lemma heap_put_old l o w l' :
  heap w !! l = None -> is_Some (heap w !! l') ->
  heap (put l o w) !! l' = heap w !! l'.
Proof.
  intros Hl [x Hx]. apply heap_put_ne. intros ->. congruence.
Qed.

Lemma new_ProvenanceValue_spec w v :
  exists a rv,
    new_ProvenanceValue v w
    = (Returned rv, put rv (OProv v a) (put a (OArray []) w))
    /\ heap w !! a = None /\ heap w !! rv = None /\ a <> rv.
Proof.
  exists (fresh (dom (heap w))),
         (fresh (dom (heap (put (fresh (dom (heap w))) (OArray []) w)))).
  pose proof (fresh_None w) as Ha.
  pose proof (fresh_None (put (fresh (dom (heap w))) (OArray []) w)) as Hrv.
  assert (fresh (dom (heap w))
          <> fresh (dom (heap (put (fresh (dom (heap w))) (OArray []) w)))) as Hne.
  { intros Heq. rewrite <- Heq in Hrv. by rewrite heap_put_eq in Hrv. }
  repeat split; try done.
  by rewrite heap_put_ne in Hrv.
Qed.

Lemma get_prov_eq w l v a :
  heap w !! l = Some (OProv v a) -> get_prov l w = (Returned (v, a), w).
Proof. unfold get_prov. by intros ->. Qed.

Lemma get_array_eq w l es :
  heap w !! l = Some (OArray es) -> get_array l w = (Returned es, w).
Proof. unfold get_array. by intros ->. Qed.

Lemma pv_at_inv w l v es :
  pv_at w l = Some (v, es) ->
  exists a, heap w !! l = Some (OProv v a) /\ heap w !! a = Some (OArray es).
Proof.
  unfold pv_at. intros H.
  destruct (heap w !! l) as [[| v' a | |]|] eqn:Hl; try done.
  destruct (heap w !! a) as [[es' | | |]|] eqn:Ha; try done.
  simplify_eq. eauto.
Qed.

Lemma next_spec w self p h newvalue source s :
  pv_at w self = Some (p, h) ->
  heap w !! source = Some (OStream s) -> is_Some (vs_name s) ->
  exists rv a w',
    next self newvalue source w = (Returned rv, w')
    /\ heap w !! rv = None /\ heap w !! a = None
    /\ heap w' !! rv = Some (OProv newvalue a)
    /\ heap w' !! a = Some (OArray (h ++ [entry_of s]))
    /\ (forall l, is_Some (heap w !! l) -> heap w' !! l = heap w !! l)
    /\ trace w' = trace w.
Proof.
  intros Hpv Hsrc Hn.
  apply pv_at_inv in Hpv as (a0 & Hself & Ha0).
  destruct (new_ProvenanceValue_spec w newvalue) as (e & rv & Hnew & He & Hrv & Hne).
  set (w1 := put rv (OProv newvalue e) (put e (OArray []) w)) in *.
  assert (Hold : forall l, is_Some (heap w !! l) -> heap w1 !! l = heap w !! l).
  { intros l Hl. unfold w1. rewrite heap_put_ne, heap_put_old; try done.
    intros ->. rewrite Hrv in Hl. by destruct Hl. }
  pose proof (fresh_None w1) as Hc. set (c := fresh (dom (heap w1))) in *.
  assert (Hcrv : c <> rv).
  { intros Heq. rewrite Heq in Hc. unfold w1 in Hc. by rewrite heap_put_eq in Hc. }
  exists rv, c. eexists. split; [|split; [done|]].
  - unfold next, isInstrumented_at.
    unfold bind at 1. rewrite Hsrc.
    unfold isInstrumented. rewrite bool_decide_eq_true_2 by done.
    unfold bind at 1. simpl.
    rewrite (bind_returned _ _ _ _ _ Hnew).
    erewrite bind_returned by (apply get_prov_eq; rewrite Hold; eauto).
    erewrite bind_returned by (apply get_array_eq; rewrite Hold; eauto).
    rewrite (bind_returned _ _ _ _ _ (alloc_eq _ _)). fold c.
    unfold set_provenance.
    erewrite (bind_returned (bind _ _)); cycle 1.
    { erewrite bind_returned; cycle 1.
      - apply get_prov_eq. rewrite heap_put_ne by done. apply heap_put_eq.
      - reflexivity. }
    erewrite bind_returned; cycle 1.
    { apply get_stream_eq. simpl. rewrite lookup_insert_ne, lookup_insert_ne.
      - rewrite Hold; eauto.
      - intros ->. rewrite Hold in Hc by eauto. congruence.
      - intros ->. congruence. }
    unfold array_push.
    erewrite (bind_returned (bind _ _)); cycle 1.
    { erewrite bind_returned; cycle 1.
      - apply get_array_eq. simpl. rewrite lookup_insert_ne by done.
        apply lookup_insert_eq.
      - reflexivity. }
    reflexivity.
  - assert (Hcw : heap w !! c = None).
    { destruct (heap w !! c) eqn:E; [|done]. rewrite <- Hold in E by eauto. congruence. }
    split; [done|]. simpl.
    split; [by rewrite lookup_insert_ne, lookup_insert_eq|].
    split; [by rewrite lookup_insert_eq|].
    split; [|done].
    intros l Hl. rewrite <- (Hold l Hl).
    do 3 (rewrite lookup_insert_ne; [|intros ->; destruct Hl; congruence]).
    done.
Qed.

Lemma pv_at_frame w w' l :
  (forall x, is_Some (heap w !! x) -> heap w' !! x = heap w !! x) ->
  is_Some (pv_at w l) -> pv_at w' l = pv_at w l.
Proof.
  intros Hfr [[v es] Hpv]. rewrite Hpv.
  apply pv_at_inv in Hpv as (a & Hl & Ha).
  unfold pv_at. rewrite (Hfr l), Hl, (Hfr a), Ha; eauto.
Qed.

Lemma pv_at_put_stream w l s s' x :
  heap w !! l = Some (OStream s) -> pv_at (put l (OStream s') w) x = pv_at w x.
Proof.
  intros Hl. unfold pv_at.
  destruct (decide (x = l)) as [->|Hx].
  - by rewrite heap_put_eq, Hl.
  - rewrite heap_put_ne by done.
    destruct (heap w !! x) as [[| v a | |]|]; try done.
    destruct (decide (a = l)) as [->|Ha].
    + by rewrite heap_put_eq, Hl.
    + by rewrite heap_put_ne.
Qed.

(** C3.  [v.next(p, s)] returns a ProvenanceValue that did not exist
    before, with payload [p] and with [v]'s history followed by exactly one
    entry, which names [s] and carries [s]'s [ninputs] counter (0 when the
    counter is absent); [v]'s payload and history, like every other object
    that existed, are what they were. *)
Theorem next_appends_one_entry (w : world) (v : loc) (p0 : value) (h : list pentry)
    (p : value) (source : loc) (s : stream) (n : string) :
  pv_at w v = Some (p0, h) ->
  heap w !! source = Some (OStream s) -> vs_name s = Some n ->
  exists rv w',
    next v p source w = (Returned rv, w')
    /\ heap w !! rv = None
    /\ pv_at w' rv
       = Some (p, h ++ [PEntry n (default 0 (vs_counters s !! "ninputs"))])
    /\ pv_at w' v = Some (p0, h)
    /\ (forall l, is_Some (heap w !! l) -> heap w' !! l = heap w !! l).
Proof.
  intros Hpv Hsrc Hn.
  destruct (next_spec w v p0 h p source s Hpv Hsrc) as
    (rv & a & w' & Hrun & Hrv & Ha & Hrv' & Ha' & Hfr & _); [by rewrite Hn|].
  exists rv, w'. repeat split; try done.
  - unfold pv_at. rewrite Hrv', Ha'. unfold entry_of. by rewrite Hn.
  - rewrite <- Hpv. apply pv_at_frame; [done|]. by rewrite Hpv.
Qed.

Lemma next_appends_one_entry_witness :
  exists rv w',
    next 1 (VStr "2") 0 busy_world = (Returned rv, w')
    /\ heap busy_world !! rv = None
    /\ pv_at w' rv = Some (VStr "2", [PEntry "t0" 5; PEntry "t1" 2])
    /\ pv_at w' 1 = Some (VStr "he", [PEntry "t0" 5])
    /\ (forall l, is_Some (heap busy_world !! l) -> heap w' !! l = heap busy_world !! l).
Proof.
  apply (next_appends_one_entry busy_world 1 (VStr "he") [PEntry "t0" 5]
           (VStr "2") 0 busy_stream "t1"); reflexivity.
Defined.

(** ** The emission primitive *)

Lemma log_eq e w : log e w = (Returned tt, World (heap w) (trace w ++ [e])).
Proof. reflexivity. Qed.

Lemma vsPush_null w self s :
  heap w !! self = Some (OStream s) -> is_Some (vs_name s) ->
  vsPush self VNull w = (Returned tt, World (heap w) (trace w ++ [RealPush self VNull])).
Proof.
  intros H Hn. unfold vsPush.
  rewrite (bind_returned _ _ _ _ _ (get_stream_eq _ _ _ H)).
  unfold isInstrumented. rewrite bool_decide_eq_true_2 by done.
  unfold bind at 1. simpl. unfold bind at 1. by simpl.
Qed.

Lemma vsPush_no_context w self s chunk :
  heap w !! self = Some (OStream s) -> is_Some (vs_name s) ->
  chunk <> VNull -> vs_context s = None ->
  vsPush self chunk w = (Thrown (AssertionError no_message), w).
Proof.
  intros H Hn Hc Hx. unfold vsPush.
  rewrite (bind_returned _ _ _ _ _ (get_stream_eq _ _ _ H)).
  unfold isInstrumented. rewrite bool_decide_eq_true_2 by done.
  unfold bind at 1. simpl.
  rewrite (bool_decide_eq_false_2 (chunk = VNull)) by done.
  rewrite Hx. by unfold bind at 1.
Qed.

(** A non-null chunk under an active context: the statements before the
    test of the marshal mode. *)
Lemma vsPush_emit w self s c chunk :
  heap w !! self = Some (OStream s) -> is_Some (vs_name s) ->
  unshadowed s -> chunk <> VNull -> vs_context s = Some c ->
  vsPush self chunk w
  = (let* s := get_stream self in
     when (bool_decide (vs_marshalmode s = Some unspecified))
       (update_stream self (with_marshalmode (Some nomarshal))) >>
     let* s := get_stream self in
     if bool_decide (vs_marshalmode s = Some nomarshal) then
       log (RealPush self chunk)
     else
       match vs_context s with
       | Some c =>
           let* augmented := next c chunk self in
           log (RealPush self (VRef augmented))
       | None => throw TypeError
       end) (put self (OStream (bumped "noutputs" s)) w).
Proof.
  intros H Hn Hu Hc Hx. unfold vsPush at 1.
  rewrite (bind_returned _ _ _ _ _ (get_stream_eq _ _ _ H)).
  unfold isInstrumented. rewrite bool_decide_eq_true_2 by done.
  unfold bind at 1. simpl.
  rewrite (bool_decide_eq_false_2 (chunk = VNull)) by done.
  rewrite Hx. unfold bind at 1. simpl.
  by rewrite (bind_returned _ _ _ _ _ (vsCounterBump_eq _ _ _ _ H Hn Hu)).
Qed.

Lemma vsPush_unspecified w self s c chunk :
  heap w !! self = Some (OStream s) -> is_Some (vs_name s) ->
  unshadowed s -> chunk <> VNull -> vs_context s = Some c ->
  vs_marshalmode s = Some unspecified ->
  vsPush self chunk w
  = (Returned tt,
     World (<[self := OStream (with_marshalmode (Some nomarshal)
                                 (bumped "noutputs" s))]> (heap w))
           (trace w ++ [RealPush self chunk])).
Proof.
  intros H Hn Hu Hc Hx Hm. rewrite (vsPush_emit w self s c) by done.
  erewrite bind_returned by apply get_stream_eq, heap_put_eq.
  simpl. rewrite Hm. simpl.
  erewrite bind_returned by apply update_stream_eq, heap_put_eq.
  erewrite bind_returned by (apply get_stream_eq; simpl; apply lookup_insert_eq).
  simpl. rewrite log_eq. simpl. by rewrite insert_insert_eq.
Qed.

Lemma vsPush_nomarshal w self s c chunk :
  heap w !! self = Some (OStream s) -> is_Some (vs_name s) ->
  unshadowed s -> chunk <> VNull -> vs_context s = Some c ->
  vs_marshalmode s = Some nomarshal ->
  vsPush self chunk w
  = (Returned tt,
     World (<[self := OStream (bumped "noutputs" s)]> (heap w))
           (trace w ++ [RealPush self chunk])).
Proof.
  intros H Hn Hu Hc Hx Hm. rewrite (vsPush_emit w self s c) by done.
  erewrite bind_returned by apply get_stream_eq, heap_put_eq.
  simpl. rewrite Hm. simpl. unfold bind at 1. simpl.
  erewrite bind_returned by apply get_stream_eq, heap_put_eq.
  simpl. rewrite Hm. simpl. by rewrite log_eq.
Qed.

Lemma vsPush_marshal w self s c chunk :
  heap w !! self = Some (OStream s) -> is_Some (vs_name s) ->
  unshadowed s -> chunk <> VNull -> vs_context s = Some c ->
  vs_marshalmode s = Some marshal ->
  vsPush self chunk w
  = (let* augmented := next c chunk self in log (RealPush self (VRef augmented)))
      (put self (OStream (bumped "noutputs" s)) w).
Proof.
  intros H Hn Hu Hc Hx Hm. rewrite (vsPush_emit w self s c) by done.
  erewrite bind_returned by apply get_stream_eq, heap_put_eq.
  simpl. rewrite Hm. simpl. unfold bind at 1. simpl.
  erewrite bind_returned by apply get_stream_eq, heap_put_eq.
  simpl. rewrite Hm. simpl. by rewrite Hx.
Qed.

Lemma entry_of_bumped_noutputs s : entry_of (bumped "noutputs" s) = entry_of s.
Proof. unfold entry_of, bumped. simpl. by rewrite counted_lookup_ne. Qed.

(** The marshalling push, run to its end. *)
Lemma vsPush_marshal_spec w self s c chunk p h :
  heap w !! self = Some (OStream s) -> is_Some (vs_name s) ->
  unshadowed s -> chunk <> VNull -> vs_context s = Some c ->
  vs_marshalmode s = Some marshal ->
  pv_at w c = Some (p, h) ->
  exists rv w',
    vsPush self chunk w = (Returned tt, w')
    /\ heap w !! rv = None
    /\ trace w' = trace w ++ [RealPush self (VRef rv)]
    /\ pv_at w' rv = Some (chunk, h ++ [entry_of s])
    /\ heap w' !! self = Some (OStream (bumped "noutputs" s))
    /\ (forall l, l <> self -> is_Some (heap w !! l) -> heap w' !! l = heap w !! l).
Proof.
  intros H Hn Hu Hc Hx Hm Hpv.
  set (w1 := put self (OStream (bumped "noutputs" s)) w).
  destruct (next_spec w1 c p h chunk self (bumped "noutputs" s)) as
    (rv & a & w' & Hrun & Hrv & Ha & Hrv' & Ha' & Hfr & Htr).
  { unfold w1. by rewrite (pv_at_put_stream w self s). }
  { apply heap_put_eq. }
  { done. }
  assert (Hrvself : rv <> self).
  { intros ->. unfold w1 in Hrv. by rewrite heap_put_eq in Hrv. }
  exists rv. eexists. split.
  { rewrite (vsPush_marshal w self s c) by done. fold w1.
    rewrite (bind_returned _ _ _ _ _ Hrun). apply log_eq. }
  simpl. split; [|split; [|split; [|split]]].
  - unfold w1 in Hrv. by rewrite heap_put_ne in Hrv.
  - by rewrite Htr.
  - unfold pv_at. simpl. by rewrite Hrv', Ha', entry_of_bumped_noutputs.
  - rewrite Hfr; [apply heap_put_eq|]. unfold w1. rewrite heap_put_eq. eauto.
  - intros l Hl Hs. rewrite Hfr; unfold w1; rewrite heap_put_ne; done.
Qed.

Lemma vsPush_shadowed w self s c chunk :
  heap w !! self = Some (OStream s) -> is_Some (vs_name s) ->
  is_Some (vs_counters s !! "hasOwnProperty") ->
  chunk <> VNull -> vs_context s = Some c ->
  vsPush self chunk w = (Thrown TypeError, w).
Proof.
  intros H Hn Hshadow Hc Hx. unfold vsPush at 1.
  rewrite (bind_returned _ _ _ _ _ (get_stream_eq _ _ _ H)).
  unfold isInstrumented. rewrite bool_decide_eq_true_2 by done.
  unfold bind at 1. simpl.
  rewrite (bool_decide_eq_false_2 (chunk = VNull)) by done.
  rewrite Hx. unfold bind at 1. simpl.
  by rewrite (bind_thrown _ _ _ _ _ (vsCounterBump_shadowed _ _ _ _ H Hn Hshadow)).
Qed.

Lemma counter_at_heap w l s k :
  heap w !! l = Some (OStream s) -> counter_at w l k = vs_counters s !! k.
Proof. unfold counter_at, stream_at. by intros ->. Qed.

Lemma mode_at_heap w l s :
  heap w !! l = Some (OStream s) -> mode_at w l = vs_marshalmode s.
Proof. unfold mode_at, stream_at. by intros ->. Qed.

Lemma context_at_heap w l s :
  heap w !! l = Some (OStream s) -> context_at w l = vs_context s.
Proof. unfold context_at, stream_at. by intros ->. Qed.



Lemma full_busy_counter k :
  k = "ninputs" \/ k = "noutputs" \/ k = "bad line" ->
  vs_counters full_busy_stream !! k = Some ceiling.
Proof. by intros [->|[->| ->]]; simplify_map_eq. Qed.

Lemma full_busy_unshadowed : unshadowed full_busy_stream.
Proof. unfold unshadowed. by simplify_map_eq. Qed.


(** C10.  On an instrumented transform, [push] of a non-null chunk while
    no context is active fails its assertion and changes nothing;
    [push(null)] goes through whatever the context is; so a non-null chunk
    reaches the native push only under an active context. *)
Theorem push_needs_context (w : world) (self : loc) (s : stream) :
  heap w !! self = Some (OStream s) -> is_Some (vs_name s) ->
  (forall chunk, chunk <> VNull -> vs_context s = None ->
     vsPush self chunk w = (Thrown (AssertionError no_message), w))
  /\ vsPush self VNull w
     = (Returned tt, World (heap w) (trace w ++ [RealPush self VNull]))
  /\ (forall chunk w', chunk <> VNull ->
        vsPush self chunk w = (Returned tt, w') -> is_Some (vs_context s)).
Proof.
  intros H Hn. split; [|split].
  - intros chunk Hc Hx. by apply (vsPush_no_context w self s).
  - by apply (vsPush_null w self s).
  - intros chunk w' Hc Hrun. destruct (vs_context s) eqn:Hx; [eauto|].
    rewrite (vsPush_no_context w self s) in Hrun; done.
Qed.

Lemma push_needs_context_witness :
  vsPush 0 (VStr "flush") idle_world = (Thrown (AssertionError no_message), idle_world)
  /\ vsPush 0 VNull idle_world
     = (Returned tt, World (heap idle_world) (trace idle_world ++ [RealPush 0 VNull])).
Proof.
  pose proof (push_needs_context idle_world 0 idle_stream eq_refl
                (ex_intro _ "t1" eq_refl)) as [H1 [H2 _]].
  split; [apply H1; [discriminate|reflexivity] | exact H2].
Defined.

(** ** Warnings *)

Lemma instanceof_Error_eq w e m :
  heap w !! e = Some (OError m) -> instanceof_Error (VRef e) w = (Returned true, w).
Proof. unfold instanceof_Error. by intros ->. Qed.

Lemma withSource_spec w self p h source s :
  pv_at w self = Some (p, h) ->
  heap w !! source = Some (OStream s) -> is_Some (vs_name s) ->
  exists rv a w',
    withSource self source w = (Returned rv, w')
    /\ heap w !! rv = None /\ heap w !! a = None
    /\ heap w' !! rv = Some (OProv p a)
    /\ heap w' !! a = Some (OArray (h ++ [entry_of s]))
    /\ (forall l, is_Some (heap w !! l) -> heap w' !! l = heap w !! l)
    /\ trace w' = trace w.
Proof.
  intros Hpv Hsrc Hn.
  destruct (next_spec w self p h p source s Hpv Hsrc Hn) as
    (rv & a & w' & Hrun & Hrest).
  exists rv, a, w'. split; [|done].
  apply pv_at_inv in Hpv as (a0 & Hself & _).
  unfold withSource. by rewrite (bind_returned _ _ _ _ _ (get_prov_eq _ _ _ _ Hself)).
Qed.

Lemma vsWarn_pre w self s e msg kind :
  heap w !! self = Some (OStream s) -> is_Some (vs_name s) ->
  heap w !! e = Some (OError msg) ->
  vsWarn self (VRef e) (VStr kind) w
  = (let* context :=
       match vs_context s with
       | None => ret VNull
       | Some c => let* rv := withSource c self in ret (VRef rv)
       end in
     vsCounterBump self kind >>
     emit self "warn" [context; VStr kind; VRef e]) w.
Proof.
  intros H Hn He. unfold vsWarn.
  rewrite (bind_returned _ _ _ _ _ (method_of_object_eq _ _ _ H Hn)).
  rewrite (bind_returned _ _ _ _ _ (get_stream_eq _ _ _ H)).
  unfold isInstrumented. rewrite bool_decide_eq_true_2 by done.
  unfold bind at 1. simpl.
  by rewrite (bind_returned _ _ _ _ _ (instanceof_Error_eq _ _ _ He)).
Qed.

Lemma vsWarn_idle_eq w self s e msg kind :
  heap w !! self = Some (OStream s) -> is_Some (vs_name s) ->
  heap w !! e = Some (OError msg) -> unshadowed s -> vs_context s = None ->
  vsWarn self (VRef e) (VStr kind) w
  = (Returned tt,
     World (<[self := OStream (bumped kind s)]> (heap w))
           (trace w ++ [Emit self "warn" [VNull; VStr kind; VRef e]])).
Proof.
  intros H Hn He Hu Hx. rewrite (vsWarn_pre w self s e msg kind H Hn He), Hx.
  unfold bind at 1. simpl.
  by rewrite (bind_returned _ _ _ _ _ (vsCounterBump_eq _ _ _ _ H Hn Hu)).
Qed.



Lemma full_idle_counter k :
  k = "ninputs" \/ k = "noutputs" \/ k = "bad line" ->
  vs_counters full_idle_stream !! k = Some ceiling.
Proof. by intros [->|[->| ->]]; simplify_map_eq. Qed.

Lemma full_idle_unshadowed : unshadowed full_idle_stream.
Proof. unfold unshadowed. by simplify_map_eq. Qed.


(** ** Stage linkage *)

Lemma scan_missing x l : forall i, x ∉ l -> scan x l i = i + length l.
Proof.
  induction l as [|y l IH]; intros i Hx; simpl; [lia|].
  apply not_elem_of_cons in Hx as [Hne Hx].
  rewrite decide_False by done. rewrite IH by done. lia.
Qed.

Lemma scan_found x l : forall i, x ∈ l ->
  exists l1 l2, l = l1 ++ x :: l2 /\ (x ∉ l1) /\ scan x l i = i + length l1.
Proof.
  induction l as [|y l IH]; intros i Hx; [by apply elem_of_nil in Hx|].
  simpl. destruct (decide (x = y)) as [->|Hne].
  - exists [], l. repeat split; [apply not_elem_of_nil | simpl; lia].
  - apply elem_of_cons in Hx as [?|Hx]; [done|].
    destruct (IH (S i) Hx) as (l1 & l2 & -> & Hl1 & Hs).
    exists (y :: l1), l2. repeat split.
    + by apply not_elem_of_cons.
    + rewrite Hs. simpl. lia.
Qed.

Lemma scan_lt x l : scan x l 0 < length l <-> x ∈ l.
Proof.
  split.
  - intros Hlt. destruct (decide (x ∈ l)) as [|Hx]; [done|].
    rewrite scan_missing in Hlt by done. lia.
  - intros Hx. destruct (scan_found x l 0 Hx) as (l1 & l2 & -> & _ & ->).
    rewrite length_app. simpl. lia.
Qed.

Lemma method_of_stream_eq w l s :
  heap w !! l = Some (OStream s) -> is_Some (vs_downstreams s) ->
  method_of_stream l w = (Returned tt, w).
Proof.
  intros H Hd. unfold method_of_stream.
  rewrite (bind_returned _ _ _ _ _ (get_stream_eq _ _ _ H)).
  by rewrite bool_decide_eq_true_2.
Qed.

Lemma downstreams_of_heap w l s :
  heap w !! l = Some (OStream s) -> downstreams_of w l = default [] (vs_downstreams s).
Proof. unfold downstreams_of, stream_at. by intros ->. Qed.

Lemma upstreams_of_heap w l s :
  heap w !! l = Some (OStream s) -> upstreams_of w l = default [] (vs_upstreams s).
Proof. unfold upstreams_of, stream_at. by intros ->. Qed.

Lemma downstreams_of_put_ne w l o x :
  x <> l -> downstreams_of (put l o w) x = downstreams_of w x.
Proof. intros. unfold downstreams_of, stream_at. by rewrite heap_put_ne. Qed.

Lemma upstreams_of_put_ne w l o x :
  x <> l -> upstreams_of (put l o w) x = upstreams_of w x.
Proof. intros. unfold upstreams_of, stream_at. by rewrite heap_put_ne. Qed.

Lemma downstreams_of_put w l s : 
  downstreams_of (put l (OStream s) w) l = default [] (vs_downstreams s).
Proof. apply downstreams_of_heap, heap_put_eq. Qed.

Lemma upstreams_of_put w l s : 
  upstreams_of (put l (OStream s) w) l = default [] (vs_upstreams s).
Proof. apply upstreams_of_heap, heap_put_eq. Qed.

(** Membership in a list that may be absent. *)
Lemma downstreams_of_elem w self x :
  x ∈ downstreams_of w self ->
  exists s l, heap w !! self = Some (OStream s) /\ vs_downstreams s = Some l /\ x ∈ l.
Proof.
  unfold downstreams_of, stream_at. intros Hx.
  destruct (heap w !! self) as [[| | |s]|]; simpl in Hx;
    try by apply elem_of_nil in Hx.
  destruct (vs_downstreams s) as [l|] eqn:Hl; simpl in Hx;
    [eauto | by apply elem_of_nil in Hx].
Qed.

Lemma upstreams_of_elem w self x :
  x ∈ upstreams_of w self ->
  exists s l, heap w !! self = Some (OStream s) /\ vs_upstreams s = Some l /\ x ∈ l.
Proof.
  unfold upstreams_of, stream_at. intros Hx.
  destruct (heap w !! self) as [[| | |s]|]; simpl in Hx;
    try by apply elem_of_nil in Hx.
  destruct (vs_upstreams s) as [l|] eqn:Hl; simpl in Hx;
    [eauto | by apply elem_of_nil in Hx].
Qed.

(** [vsRecordUnpipe] either throws before it has changed anything, or
    returns after both [splice]s. *)
Lemma vsRecordUnpipe_cases w self downstream :
  (exists e, vsRecordUnpipe self downstream w = (Thrown e, w)
             /\ ~ (downstream ∈ downstreams_of w self
                   /\ self ∈ upstreams_of w downstream)
             /\ (is_stage w self -> is_stage w downstream ->
                 exists msg, e = AssertionError msg))
  \/ (exists s l d d' l',
        heap w !! self = Some (OStream s) /\ vs_downstreams s = Some l
        /\ downstream ∈ l
        /\ heap w !! downstream = Some (OStream d) /\ vs_upstreams d = Some l'
        /\ self ∈ l'
        /\ d' = (if decide (downstream = self)
                 then with_downstreams (Some (delete (scan downstream l 0) l)) s
                 else d)
        /\ vsRecordUnpipe self downstream w
           = (Returned tt,
              put downstream
                (OStream (with_upstreams (Some (delete (scan self l' 0) l')) d'))
                (put self
                   (OStream (with_downstreams (Some (delete (scan downstream l 0) l)) s))
                   w))).
Proof.
  assert (Hns : forall e, is_stage w self -> is_stage w downstream ->
                (forall s, heap w !! self = Some (OStream s) ->
                           is_Some (vs_downstreams s) -> False)
                \/ (forall d, heap w !! downstream = Some (OStream d) ->
                              is_Some (vs_upstreams d) -> False) ->
                exists msg, e = AssertionError msg).
  { intros e (s0 & Hs0 & _ & Hd0) (d0 & Hd1 & Hu1 & _) [Hf|Hf]; exfalso; eauto. }
  destruct (heap w !! self) as [o|] eqn:Hs; cycle 1.
  { left. exists TypeError. split; [|split].
    - unfold vsRecordUnpipe, method_of_stream, bind, get_stream. by rewrite Hs.
    - intros [Hd _]. apply downstreams_of_elem in Hd as (? & ? & ? & _). congruence.
    - intros ? ?. apply Hns; try done. left. intros; congruence. }
  destruct o as [| | |s];
    try (left; exists TypeError; split; [|split];
         [unfold vsRecordUnpipe, method_of_stream, bind, get_stream; by rewrite Hs
         |intros [Hd _]; apply downstreams_of_elem in Hd as (? & ? & ? & _); congruence
         |intros ? ?; apply Hns; try done; left; intros; congruence]).
  destruct (vs_downstreams s) as [l|] eqn:Hl; cycle 1.
  { left. exists TypeError. split; [|split].
    - unfold vsRecordUnpipe, method_of_stream, bind, get_stream. rewrite Hs, Hl.
      by rewrite bool_decide_eq_false_2 by (by intros [? ?]).
    - intros [Hd _]. apply downstreams_of_elem in Hd as (? & ? & ? & ? & _). congruence.
    - intros ? ?. apply Hns; try done. left. intros ? ? [? ?]. congruence. }
  unfold vsRecordUnpipe.
  rewrite (bind_returned _ _ _ _ _ (method_of_stream_eq _ _ _ Hs ltac:(rewrite Hl; eauto))).
  rewrite (bind_returned _ _ _ _ _ (get_stream_eq _ _ _ Hs)).
  rewrite Hl. cbn [length_of default from_option id].
  rewrite (bind_returned _ _ _ (length l) w) by reflexivity. cbv beta.
  destruct (decide (downstream ∈ l)) as [Hin|Hnin]; cycle 1.
  { left. eexists. split; [|split].
    - assert ((scan downstream l 0 <? length l) = false) as Hi.
      { apply Nat.ltb_ge. rewrite scan_missing by done. lia. }
      rewrite Hi. reflexivity.
    - intros [Hd _]. rewrite (downstreams_of_heap _ _ _ Hs), Hl in Hd. done.
    - eauto. }
  assert ((scan downstream l 0 <? length l) = true) as Hi
    by (by apply Nat.ltb_lt, scan_lt).
  rewrite Hi.
  rewrite (bind_returned _ _ _ tt w) by reflexivity.
  destruct (heap w !! downstream) as [o|] eqn:Hd; cycle 1.
  { left. exists TypeError. split; [|split].
    - unfold bind, get_stream. by rewrite Hd.
    - intros [_ Hu]. apply upstreams_of_elem in Hu as (? & ? & ? & _). congruence.
    - intros ? ?. apply Hns; try done. right. intros; congruence. }
  destruct o as [| | |d];
    try (left; exists TypeError; split; [|split];
         [unfold bind, get_stream; by rewrite Hd
         |intros [_ Hu]; apply upstreams_of_elem in Hu as (? & ? & ? & _); congruence
         |intros ? ?; apply Hns; try done; right; intros; congruence]).
  rewrite (bind_returned _ _ _ _ _ (get_stream_eq _ _ _ Hd)).
  destruct (vs_upstreams d) as [l'|] eqn:Hl'; cycle 1.
  { left. exists TypeError. split; [done|]. split.
    - intros [_ Hu]. apply upstreams_of_elem in Hu as (? & ? & ? & ? & _). congruence.
    - intros ? ?. apply Hns; try done. right. intros ? ? [? ?]. congruence. }
  cbn [length_of default from_option id].
  rewrite (bind_returned _ _ _ (length l') w) by reflexivity. cbv beta.
  destruct (decide (self ∈ l')) as [Hin'|Hnin']; cycle 1.
  { left. eexists. split; [|split].
    - assert ((scan self l' 0 <? length l') = false) as Hj.
      { apply Nat.ltb_ge. rewrite scan_missing by done. lia. }
      rewrite Hj. reflexivity.
    - intros [_ Hu]. rewrite (upstreams_of_heap _ _ _ Hd), Hl' in Hu. done.
    - eauto. }
  assert ((scan self l' 0 <? length l') = true) as Hj
    by (by apply Nat.ltb_lt, scan_lt).
  rewrite Hj.
  rewrite (bind_returned _ _ _ tt w) by reflexivity.
  right. exists s, l, d. eexists. exists l'.
  do 6 (split; [done|]). split; [reflexivity|].
  rewrite (bind_returned _ _ _ _ _ (update_stream_eq _ _ _ _ Hs)).
  rewrite Hl. cbn [fmap option_fmap option_map].
  destruct (decide (downstream = self)) as [->|Hne].
  - erewrite update_stream_eq by apply lookup_insert_eq.
    assert (d = s) as -> by congruence. simpl. by rewrite Hl'.
  - erewrite update_stream_eq by (simpl; rewrite lookup_insert_ne; done).
    by rewrite Hl'.
Qed.

Lemma stage_discipline_put w l s :
  stage_discipline w -> disciplined s -> stage_discipline (put l (OStream s) w).
Proof.
  intros Hw Hs x sx Hx. destruct (decide (x = l)) as [->|Hne].
  - rewrite heap_put_eq in Hx. by simplify_eq.
  - rewrite heap_put_ne in Hx by done. by apply (Hw x).
Qed.

Lemma disciplined_named s :
  disciplined s -> is_Some (vs_downstreams s) -> is_Some (vs_name s).
Proof.
  unfold disciplined. destruct (vs_name s); [eauto|].
  intros [_ ->] [? ?]. done.
Qed.

Lemma disciplined_lists s :
  disciplined s -> is_Some (vs_name s) ->
  is_Some (vs_upstreams s) /\ is_Some (vs_downstreams s).
Proof. unfold disciplined. intros H [n Hn]. by rewrite Hn in H. Qed.

Lemma disciplined_with_downstreams s l :
  disciplined s -> is_Some (vs_name s) -> disciplined (with_downstreams (Some l) s).
Proof.
  intros H Hn. destruct (disciplined_lists s H Hn) as [Hu _].
  destruct Hn as [n Hn]. unfold disciplined. simpl. rewrite Hn. eauto.
Qed.

Lemma disciplined_with_upstreams s l :
  disciplined s -> is_Some (vs_name s) -> disciplined (with_upstreams (Some l) s).
Proof.
  intros H Hn. destruct (disciplined_lists s H Hn) as [_ Hd].
  destruct Hn as [n Hn]. unfold disciplined. simpl. rewrite Hn. eauto.
Qed.

Lemma disciplined_named_up s :
  disciplined s -> is_Some (vs_upstreams s) -> is_Some (vs_name s).
Proof.
  unfold disciplined. destruct (vs_name s); [eauto|].
  intros [-> _] [? ?]. done.
Qed.

Lemma vsRecordUnpipe_outcome w self downstream :
  (exists e, vsRecordUnpipe self downstream w = (Thrown e, w)
             /\ ~ (downstream ∈ downstreams_of w self
                   /\ self ∈ upstreams_of w downstream)
             /\ (is_stage w self -> is_stage w downstream ->
                 exists msg, e = AssertionError msg))
  \/ (downstream ∈ downstreams_of w self /\ self ∈ upstreams_of w downstream
      /\ exists w', vsRecordUnpipe self downstream w = (Returned tt, w')
                    /\ unpiped self downstream w w'
                    /\ (stage_discipline w -> stage_discipline w')).
Proof.
  destruct (vsRecordUnpipe_cases w self downstream) as
    [(e & Hrun & Hnot & Herr)
    |(s & l & d & d' & l' & Hs & Hl & Hin & Hd & Hl' & Hin' & Hd' & Hrun)].
  { left. eauto. }
  right.
  split; [by rewrite (downstreams_of_heap _ _ _ Hs), Hl|].
  split; [by rewrite (upstreams_of_heap _ _ _ Hd), Hl'|].
  destruct (scan_found downstream l 0 Hin) as (d1 & d2 & -> & Hd1 & Hi).
  destruct (scan_found self l' 0 Hin') as (u1 & u2 & -> & Hu1 & Hj).
  rewrite Hi, Hj in Hrun. rewrite Hi in Hd'. simpl in Hrun, Hd'.
  rewrite !delete_middle in Hrun. rewrite delete_middle in Hd'.
  eexists. split; [exact Hrun|]. split.
  - exists d1, d2, u1, u2.
    split; [by rewrite (downstreams_of_heap _ _ _ Hs), Hl|].
    split.
    { destruct (decide (downstream = self)) as [->|Hne].
      - rewrite downstreams_of_put. by rewrite Hd'.
      - rewrite downstreams_of_put_ne by done. by rewrite downstreams_of_put. }
    split; [by rewrite (upstreams_of_heap _ _ _ Hd), Hl'|].
    split; [by rewrite upstreams_of_put|].
    split; [done|]. split; [done|]. split.
    + intros x Hx. destruct (decide (x = downstream)) as [->|Hxd].
      * rewrite downstreams_of_put. rewrite Hd', decide_False by done. simpl.
        by rewrite (downstreams_of_heap _ _ _ Hd).
      * rewrite !downstreams_of_put_ne by done. done.
    + intros x Hx. rewrite upstreams_of_put_ne by done.
      destruct (decide (x = self)) as [->|Hxs].
      * rewrite upstreams_of_put. simpl. by rewrite (upstreams_of_heap _ _ _ Hs).
      * by rewrite upstreams_of_put_ne.
  - intros Hw.
    assert (Hns : is_Some (vs_name s)).
    { apply disciplined_named; [by apply (Hw self)|]. rewrite Hl. eauto. }
    assert (Hnd : is_Some (vs_name d)).
    { apply disciplined_named_up; [by apply (Hw downstream)|]. rewrite Hl'. eauto. }
    apply stage_discipline_put; [apply stage_discipline_put; [done|]|].
    + apply disciplined_with_downstreams; [by apply (Hw self)|done].
    + apply disciplined_with_upstreams.
      * rewrite Hd'. destruct (decide (downstream = self)).
        -- apply disciplined_with_downstreams; [by apply (Hw self)|done].
        -- by apply (Hw downstream).
      * rewrite Hd'. by destruct (decide (downstream = self)).
Qed.

(** C7.  [vsRecordUnpipe] throws, having changed nothing, whenever
    the pair is not linked in both directions, and with an assertion
    failure when both ends are stages.  When the pair is linked in both
    directions it removes the first matching entry of the upstream's
    [vs_downstreams] and the first matching entry of the downstream's
    [vs_upstreams]; all other entries of the two lists, in their order, and
    all other lists stay. *)
Theorem removeConnection_removes_one_pair (w : world) (self downstream : loc) :
  (~ (downstream ∈ downstreams_of w self /\ self ∈ upstreams_of w downstream) ->
     exists e, vsRecordUnpipe self downstream w = (Thrown e, w)
               /\ (is_stage w self -> is_stage w downstream ->
                   exists msg, e = AssertionError msg))
  /\ (downstream ∈ downstreams_of w self -> self ∈ upstreams_of w downstream ->
      exists w' d1 d2 u1 u2,
        vsRecordUnpipe self downstream w = (Returned tt, w')
        /\ downstreams_of w self = d1 ++ downstream :: d2
        /\ downstreams_of w' self = d1 ++ d2
        /\ upstreams_of w downstream = u1 ++ self :: u2
        /\ upstreams_of w' downstream = u1 ++ u2
        /\ (downstream ∉ d1) /\ (self ∉ u1)
        /\ (forall x, x <> self -> downstreams_of w' x = downstreams_of w x)
        /\ (forall x, x <> downstream -> upstreams_of w' x = upstreams_of w x)).
Proof.
  destruct (vsRecordUnpipe_outcome w self downstream) as
    [(e & Hrun & Hnot & Herr)
    |(Hin & Hin' & w' & Hrun & (d1 & d2 & u1 & u2 & Hun) & _)].
  - split; [eauto|]. intros Hx Hy. by destruct Hnot.
  - split; [intros Hnot; by destruct Hnot|].
    intros _ _. exists w', d1, d2, u1, u2. by split.
Qed.

Lemma removeConnection_removes_one_pair_witness :
  (exists e, vsRecordUnpipe 0 2 linked_world = (Thrown e, linked_world)
             /\ (is_stage linked_world 0 -> is_stage linked_world 2 ->
                 exists msg, e = AssertionError msg))
  /\ exists w' d1 d2 u1 u2,
       vsRecordUnpipe 0 1 linked_world = (Returned tt, w')
       /\ downstreams_of linked_world 0 = d1 ++ 1 :: d2
       /\ downstreams_of w' 0 = d1 ++ d2
       /\ upstreams_of linked_world 1 = u1 ++ 0 :: u2
       /\ upstreams_of w' 1 = u1 ++ u2
       /\ (1 ∉ d1) /\ (0 ∉ u1)
       /\ (forall x, x <> 0 -> downstreams_of w' x = downstreams_of linked_world x)
       /\ (forall x, x <> 1 -> upstreams_of w' x = upstreams_of linked_world x).
Proof.
  split.
  - apply (proj1 (removeConnection_removes_one_pair linked_world 0 2)).
    intros [H _]. revert H. by apply (bool_decide_unpack (2 ∉ [1; 1])).
  - apply (proj2 (removeConnection_removes_one_pair linked_world 0 1)).
    + by apply (bool_decide_unpack (1 ∈ [1; 1])).
    + by apply (bool_decide_unpack (0 ∈ [0; 0])).
Defined.

Lemma instrumentStream_eq w l s :
  heap w !! l = Some (OStream s) -> is_Some (vs_name s) ->
  instrumentStream l w
  = (Returned tt,
     put l (OStream (with_downstreams (Some []) (with_upstreams (Some []) s))) w).
Proof.
  intros H Hn. unfold instrumentStream.
  rewrite (bind_returned _ _ _ _ _ (get_stream_eq _ _ _ H)).
  unfold isInstrumented. rewrite bool_decide_eq_true_2 by done.
  rewrite (bind_returned _ _ _ tt w) by reflexivity.
  rewrite (bind_returned _ _ _ _ _ (update_stream_eq _ _ _ _ H)).
  erewrite update_stream_eq by apply lookup_insert_eq.
  unfold put. simpl. by rewrite insert_insert_eq.
Qed.

Lemma push_downstream_eq w self s l x :
  heap w !! self = Some (OStream s) -> vs_downstreams s = Some l ->
  push_downstream self x w
  = (Returned tt, put self (OStream (with_downstreams (Some (l ++ [x])) s)) w).
Proof.
  intros H Hl. unfold push_downstream.
  rewrite (bind_returned _ _ _ _ _ (get_stream_eq _ _ _ H)).
  rewrite Hl. by apply update_stream_eq.
Qed.

Lemma push_upstream_eq w self s l x :
  heap w !! self = Some (OStream s) -> vs_upstreams s = Some l ->
  push_upstream self x w
  = (Returned tt, put self (OStream (with_upstreams (Some (l ++ [x])) s)) w).
Proof.
  intros H Hl. unfold push_upstream.
  rewrite (bind_returned _ _ _ _ _ (get_stream_eq _ _ _ H)).
  rewrite Hl. by apply update_stream_eq.
Qed.

Lemma vsRecordPipe_cases w self downstream :
  stage_discipline w ->
  (exists e, vsRecordPipe self downstream w = (Thrown e, w))
  \/ (exists w', vsRecordPipe self downstream w = (Returned tt, w')
                 /\ piped self downstream w w').
Proof.
  intros Hw.
  destruct (heap w !! self) as [o|] eqn:Hs; cycle 1.
  { left. exists TypeError.
    unfold vsRecordPipe, method_of_stream, bind, get_stream. by rewrite Hs. }
  destruct o as [| | |s];
    try (left; exists TypeError;
         unfold vsRecordPipe, method_of_stream, bind, get_stream; by rewrite Hs).
  destruct (vs_downstreams s) as [l|] eqn:Hl; cycle 1.
  { left. exists TypeError.
    unfold vsRecordPipe, method_of_stream, bind, get_stream. rewrite Hs, Hl.
    by rewrite bool_decide_eq_false_2 by (by intros [? ?]). }
  unfold vsRecordPipe.
  rewrite (bind_returned _ _ _ _ _ (method_of_stream_eq _ _ _ Hs ltac:(rewrite Hl; eauto))).
  destruct (heap w !! downstream) as [o|] eqn:Hd; cycle 1.
  { left. exists TypeError. unfold bind, get_stream. by rewrite Hd. }
  destruct o as [| | |d];
    try (left; exists TypeError; unfold bind, get_stream; by rewrite Hd).
  rewrite (bind_returned _ _ _ _ _ (get_stream_eq _ _ _ Hd)).
  pose proof (Hw _ _ Hs) as Hss. pose proof (Hw _ _ Hd) as Hdd.
  assert (Hns : is_Some (vs_name s))
    by (apply disciplined_named; [done|rewrite Hl; eauto]).
  unfold isInstrumented. right.
  destruct (vs_name d) as [nd|] eqn:Hnd.
  - (* the downstream is a stage already *)
    destruct (disciplined_lists d Hdd) as [[lu Hlu] _]; [rewrite Hnd; eauto|].
    rewrite bool_decide_eq_true_2 by eauto. cbn [negb when].
    rewrite (bind_returned _ _ _ tt w) by reflexivity.
    rewrite (bind_returned _ _ _ _ _ (push_downstream_eq _ _ _ _ _ Hs Hl)).
    destruct (decide (downstream = self)) as [->|Hne].
    + assert (d = s) as -> by congruence.
      erewrite push_upstream_eq by (apply heap_put_eq || exact Hlu).
      rewrite put_put. eexists. split; [reflexivity|]. split; [|split].
      * apply stage_discipline_put; [done|].
        by apply disciplined_with_upstreams; [apply disciplined_with_downstreams|].
      * intros x. destruct (decide (x = self)) as [->|Hx].
        -- rewrite downstreams_of_put, (downstreams_of_heap _ _ _ Hs), Hl. done.
        -- rewrite downstreams_of_put_ne by done. by rewrite app_nil_r.
      * intros x. destruct (decide (x = self)) as [->|Hx].
        -- rewrite upstreams_of_put, (upstreams_of_heap _ _ _ Hs), Hlu. done.
        -- rewrite upstreams_of_put_ne by done. by rewrite app_nil_r.
    + erewrite push_upstream_eq by (rewrite ?heap_put_ne by done; done).
      eexists. split; [reflexivity|]. split; [|split].
      * apply stage_discipline_put; [apply stage_discipline_put; [done|]|].
        -- by apply disciplined_with_downstreams.
        -- apply disciplined_with_upstreams; [done|]. rewrite Hnd; eauto.
      * intros x. destruct (decide (x = self)) as [->|Hx].
        -- rewrite downstreams_of_put_ne by done.
           rewrite downstreams_of_put, (downstreams_of_heap _ _ _ Hs), Hl. done.
        -- destruct (decide (x = downstream)) as [->|Hxd].
           ++ rewrite downstreams_of_put, (downstreams_of_heap _ _ _ Hd).
              by rewrite app_nil_r.
           ++ rewrite !downstreams_of_put_ne by done. by rewrite app_nil_r.
      * intros x. destruct (decide (x = downstream)) as [->|Hx].
        -- rewrite upstreams_of_put, (upstreams_of_heap _ _ _ Hd), Hlu. done.
        -- rewrite upstreams_of_put_ne by done.
           destruct (decide (x = self)) as [->|Hxs].
           ++ rewrite upstreams_of_put, (upstreams_of_heap _ _ _ Hs).
              by rewrite app_nil_r.
           ++ rewrite upstreams_of_put_ne by done. by rewrite app_nil_r.
  - (* the downstream is instrumented on the way *)
    unfold disciplined in Hdd. rewrite Hnd in Hdd. destruct Hdd as [Hdu Hddn].
    assert (Hne : downstream <> self) by (intros ->; destruct Hns; congruence).
    rewrite bool_decide_eq_false_2 by (by intros [? ?]). cbn [negb when].
    rewrite Hdu. rewrite bool_decide_eq_true_2 by done.
    erewrite (bind_returned (bind _ _)); cycle 1.
    { rewrite (bind_returned _ _ _ tt w) by reflexivity.
      rewrite (bind_returned _ _ _ _ _ (instrumentObject_eq _ _ _ _ Hd Hnd)).
      erewrite instrumentStream_eq by (apply heap_put_eq || (simpl; eauto)).
      rewrite put_put. reflexivity. }
    erewrite bind_returned;
      [|apply (push_downstream_eq _ _ s l); [by rewrite heap_put_ne|done]].
    erewrite push_upstream_eq;
      [|rewrite heap_put_ne by done; apply heap_put_eq|reflexivity].
    eexists. split; [reflexivity|]. split; [|split].
    + apply stage_discipline_put; [apply stage_discipline_put;
        [apply stage_discipline_put; [done|]|]|].
      * unfold disciplined. simpl. eauto.
      * by apply disciplined_with_downstreams.
      * unfold disciplined. simpl. eauto.
    + intros x. destruct (decide (x = downstream)) as [->|Hxd].
      * rewrite downstreams_of_put, decide_False by done. simpl.
        rewrite (downstreams_of_heap _ _ _ Hd), Hddn. done.
      * rewrite downstreams_of_put_ne by done.
        destruct (decide (x = self)) as [->|Hxs].
        -- rewrite downstreams_of_put, (downstreams_of_heap _ _ _ Hs), Hl. done.
        -- rewrite !downstreams_of_put_ne by done. by rewrite app_nil_r.
    + intros x. destruct (decide (x = downstream)) as [->|Hxd].
      * rewrite upstreams_of_put. simpl.
        rewrite (upstreams_of_heap _ _ _ Hd), Hdu. done.
      * rewrite upstreams_of_put_ne by done.
        destruct (decide (x = self)) as [->|Hxs].
        -- rewrite upstreams_of_put. simpl.
           rewrite (upstreams_of_heap _ _ _ Hs). by rewrite app_nil_r.
        -- rewrite !upstreams_of_put_ne by done. by rewrite app_nil_r.
Qed.

(** ** The linkage invariant *)

Lemma occurrences_app x l1 l2 :
  occurrences x (l1 ++ l2) = occurrences x l1 + occurrences x l2.
Proof. unfold occurrences. by rewrite filter_app, length_app. Qed.

Lemma occurrences_cons x y l :
  occurrences x (y :: l) = (if decide (y = x) then 1 else 0) + occurrences x l.
Proof.
  unfold occurrences. rewrite filter_cons.
  by destruct (decide (y = x)).
Qed.

Lemma occurrences_nil x : occurrences x [] = 0.
Proof. done. Qed.

Lemma piped_mutual self downstream w w' :
  piped self downstream w w' -> mutual_linkage w -> mutual_linkage w'.
Proof.
  intros (_ & Hdown & Hup) Hm a b.
  rewrite Hup, Hdown, !occurrences_app, (Hm a b).
  f_equal.
  destruct (decide (b = downstream)) as [->|Hb], (decide (a = self)) as [->|Ha];
    rewrite ?occurrences_cons, ?occurrences_nil;
    repeat case_decide; first [done | congruence].
Qed.

Lemma unpiped_mutual self downstream w w' :
  unpiped self downstream w w' -> mutual_linkage w -> mutual_linkage w'.
Proof.
  intros (d1 & d2 & u1 & u2 & Hd & Hd' & Hu & Hu' & _ & _ & Hdo & Huo) Hm a b.
  pose proof (Hm a b) as Hab.
  destruct (decide (b = downstream)) as [->|Hb], (decide (a = self)) as [->|Ha].
  - rewrite Hu', Hd'. rewrite Hu, Hd in Hab.
    rewrite !occurrences_app, !occurrences_cons in *.
    rewrite !decide_True in Hab by done. lia.
  - rewrite Hu', (Hdo a) by done. rewrite Hu in Hab.
    rewrite !occurrences_app, !occurrences_cons in *.
    rewrite decide_False in Hab by done. lia.
  - rewrite (Huo b), Hd' by done. rewrite Hd in Hab.
    rewrite !occurrences_app, !occurrences_cons in *.
    rewrite decide_False in Hab by done. lia.
  - by rewrite (Huo b), (Hdo a).
Qed.

Lemma linkage_call_preserves c w :
  linkage_call c ->
  stage_discipline w /\ mutual_linkage w ->
  stage_discipline (snd (perform c w)) /\ mutual_linkage (snd (perform c w)).
Proof.
  intros Hc [Hw Hm]. destruct c as [| | | |self d|self d| | | | | | | |]; try done; simpl.
  - destruct (vsRecordPipe_cases w self d Hw) as [(e & ->)|(w' & -> & Hp)]; [done|].
    simpl. split; [apply Hp | by apply (piped_mutual self d w)].
  - destruct (vsRecordUnpipe_outcome w self d) as
      [(e & -> & _)|(_ & _ & w' & -> & Hun & Hdisc)]; [done|].
    simpl. split; [by apply Hdisc | by apply (unpiped_mutual self d w)].
Qed.

(** C5.  Start from a world in which every stream is either untouched or
    a stage and the linkage is mutual (fresh stages, say); after any
    sequence of [vsRecordPipe] and [vsRecordUnpipe] calls, failed ones
    included, every stage [a] occurs in [b]'s upstreams exactly as often as
    [b] occurs in [a]'s downstreams. *)
Theorem linkage_stays_mutual (w : world) (cs : list call) :
  stage_discipline w -> mutual_linkage w -> Forall linkage_call cs ->
  forall a b,
    occurrences a (upstreams_of (run cs w) b)
    = occurrences b (downstreams_of (run cs w) a).
Proof.
  intros Hw Hm Hcs.
  enough (stage_discipline (run cs w) /\ mutual_linkage (run cs w)) as [_ H] by exact H.
  revert w Hw Hm. induction Hcs as [|c cs Hc Hcs IH]; intros w Hw Hm; [done|].
  simpl. destruct (linkage_call_preserves c w Hc (conj Hw Hm)) as [Hw' Hm'].
  by apply IH.
Qed.

Lemma heap_world_of objs l : heap (world_of objs) !! l = objs !! l.
Proof. apply lookup_map_seq_0. Qed.

Lemma fresh_stages_disciplined : stage_discipline fresh_stages.
Proof.
  intros l s Hl. unfold fresh_stages in Hl. rewrite heap_world_of in Hl.
  destruct l as [|[|[|[|l]]]]; simpl in Hl; simplify_eq;
    unfold disciplined; simpl; eauto.
Qed.

Lemma fresh_stages_mutual : mutual_linkage fresh_stages.
Proof.
  intros a b.
  assert (Hu : forall x, upstreams_of fresh_stages x = []).
  { intros x. unfold upstreams_of, stream_at, fresh_stages.
    rewrite heap_world_of. by destruct x as [|[|[|[|x]]]]. }
  assert (Hd : forall x, downstreams_of fresh_stages x = []).
  { intros x. unfold downstreams_of, stream_at, fresh_stages.
    rewrite heap_world_of. by destruct x as [|[|[|[|x]]]]. }
  by rewrite Hu, Hd.
Qed.

Lemma linkage_stays_mutual_witness :
  occurrences 0
    (upstreams_of
       (run [RecordPipe 0 1; RecordPipe 0 1; RecordPipe 1 3; RecordUnpipe 0 1;
             RecordUnpipe 2 0] fresh_stages) 1)
  = occurrences 1
      (downstreams_of
         (run [RecordPipe 0 1; RecordPipe 0 1; RecordPipe 1 3; RecordUnpipe 0 1;
               RecordUnpipe 2 0] fresh_stages) 0).
Proof.
  apply (linkage_stays_mutual fresh_stages).
  - apply fresh_stages_disciplined.
  - apply fresh_stages_mutual.
  - repeat constructor.
Defined.

(** Outside the discipline of stages the two [push]es of [vsRecordPipe]
    can come apart: a downstream that has a name but no lists is taken for
    instrumented, the upstream's list is extended, and the second [push]
    throws. *)
Remark vsRecordPipe_into_named_object :
  fst (vsRecordPipe 0 1 named_object_world) = Thrown TypeError
  /\ downstreams_of (snd (vsRecordPipe 0 1 named_object_world)) 0 = [1]
  /\ upstreams_of (snd (vsRecordPipe 0 1 named_object_world)) 1 = [].
Proof. by vm_compute. Qed.

(** ** The composite's read side *)

Lemma ps_tail_reads s w : snd (ps_tail s w) = w.
Proof. unfold ps_tail. by repeat case_match. Qed.

Section ReadLoop.
Context (tail_read : loc -> M value) (native_push : loc -> value -> M bool).
Context (self : loc).
Hypothesis Hpush : push_buffers native_push.
Hypothesis Hread : read_leaves tail_read self.

(** Under such an engine the loop buffers at most one unit past the high
    watermark, or past what was buffered already. *)
Lemma read_loop_bound fuel : forall w s,
  heap w !! self = Some (OStream s) ->
  exists s',
    heap (snd (read_loop tail_read native_push fuel self w)) !! self
    = Some (OStream s')
    /\ rs_highWaterMark s' = rs_highWaterMark s
    /\ (rs_length s <= rs_length s'
        <= Z.max (rs_length s + 1) (rs_highWaterMark s))%Z.
Proof.
  induction fuel as [|fuel IH]; intros w s Hs.
  { exists s. simpl. split; [done|]. split; [done|]. lia. }
  cbn [read_loop].
  rewrite (bind_returned _ _ _ _ _ (get_stream_eq _ _ _ Hs)).
  assert (Hsame : exists s', heap w !! self = Some (OStream s')
            /\ rs_highWaterMark s' = rs_highWaterMark s
            /\ (rs_length s <= rs_length s'
                <= Z.max (rs_length s + 1) (rs_highWaterMark s))%Z).
  { exists s. split; [done|]. split; [done|]. lia. }
  unfold bind at 1.
  pose proof (ps_tail_reads s w) as Hw0.
  destruct (ps_tail s w) as [[tail|e] w0] eqn:Htail; simpl in Hw0; subst w0;
    [|done].
  unfold bind at 1. pose proof (Hread tail w s Hs) as Hs1.
  destruct (tail_read tail w) as [[chunk|e] w1]; simpl in Hs1; cycle 1.
  { exists s. simpl. split; [done|]. split; [done|]. lia. }
  destruct (bool_decide (chunk = VNull)).
  { rewrite (bind_returned _ _ _ _ _ (update_stream_eq _ _ _ _ Hs1)).
    simpl. rewrite lookup_insert_eq. eexists. split; [done|]. simpl.
    split; [done|]. lia. }
  rewrite (bind_returned _ _ _ _ _ (Hpush self chunk w1 s Hs1)).
  destruct (decide (rs_length s + 1 < rs_highWaterMark s)%Z) as [Hlt|Hge].
  - rewrite bool_decide_eq_true_2 by done. cbn [negb].
    destruct (IH (put self (OStream (with_rs_length (rs_length s + 1) s)) w1)
                (with_rs_length (rs_length s + 1) s)) as (s' & Hs' & Hh & Hl).
    { apply heap_put_eq. }
    exists s'. split; [done|]. simpl in Hh, Hl. split; [done|]. lia.
  - rewrite bool_decide_eq_false_2 by done. simpl.
    rewrite lookup_insert_eq. eexists. split; [done|]. simpl.
    split; [done|]. lia.
Qed.

(** And it comes to its [break] within as many rounds as there is room
    below the watermark, plus one. *)
Lemma read_loop_ends fuel : forall w s,
  heap w !! self = Some (OStream s) ->
  Z.to_nat (rs_highWaterMark s - rs_length s) < fuel ->
  fst (read_loop tail_read native_push fuel self w) <> Returned false.
Proof.
  induction fuel as [|fuel IH]; intros w s Hs Hf; [lia|].
  cbn [read_loop].
  rewrite (bind_returned _ _ _ _ _ (get_stream_eq _ _ _ Hs)).
  unfold bind at 1.
  pose proof (ps_tail_reads s w) as Hw0.
  destruct (ps_tail s w) as [[tail|e] w0] eqn:Htail; simpl in Hw0; subst w0;
    [|done].
  unfold bind at 1. pose proof (Hread tail w s Hs) as Hs1.
  destruct (tail_read tail w) as [[chunk|e] w1]; simpl in Hs1; [|done].
  destruct (bool_decide (chunk = VNull)).
  { by rewrite (bind_returned _ _ _ _ _ (update_stream_eq _ _ _ _ Hs1)). }
  rewrite (bind_returned _ _ _ _ _ (Hpush self chunk w1 s Hs1)).
  destruct (decide (rs_length s + 1 < rs_highWaterMark s)%Z) as [Hlt|Hge].
  - rewrite bool_decide_eq_true_2 by done. cbn [negb].
    apply (IH _ (with_rs_length (rs_length s + 1) s)); [apply heap_put_eq|].
    simpl. lia.
  - by rewrite bool_decide_eq_false_2 by done.
Qed.

End ReadLoop.

(** C6.  Whatever the engine's [read] and [push] do: [_read], entered
    while the readable buffer holds more than [highWaterMark + 1], throws
    and leaves everything as it was, so neither primitive has run; hence a
    [_read] that returns was entered with at most [highWaterMark + 1]
    buffered, and then it is the pull loop.  With an engine whose [push]
    buffers one unit and answers whether the buffer is still below the
    watermark, a [_read] entered with at most [highWaterMark] buffered
    ends with at most [highWaterMark + 1] buffered, within as many rounds
    as there was room plus one. *)
Theorem read_throws_past_watermark (tail_read : loc -> M value)
    (native_push : loc -> value -> M bool) (fuel : nat) (w : world)
    (self : loc) (s : stream) :
  heap w !! self = Some (OStream s) ->
  ((rs_length s > rs_highWaterMark s + 1)%Z ->
     PipelineStream_read tail_read native_push fuel self w
     = (Thrown (ThrownError "unexpected call to pipeline._read()"), w))
  /\ (forall r w',
        PipelineStream_read tail_read native_push fuel self w = (Returned r, w') ->
        (rs_length s <= rs_highWaterMark s + 1)%Z)
  /\ ((rs_length s <= rs_highWaterMark s + 1)%Z ->
        PipelineStream_read tail_read native_push fuel self w
        = read_loop tail_read native_push fuel self w)
  /\ (push_buffers native_push -> read_leaves tail_read self ->
      (rs_length s <= rs_highWaterMark s)%Z ->
      (exists s',
         heap (snd (PipelineStream_read tail_read native_push fuel self w)) !! self
         = Some (OStream s')
         /\ (rs_length s' <= rs_highWaterMark s' + 1)%Z)
      /\ (Z.to_nat (rs_highWaterMark s - rs_length s) < fuel ->
          fst (PipelineStream_read tail_read native_push fuel self w)
          <> Returned false)).
Proof.
  intros H. unfold PipelineStream_read.
  rewrite (bind_returned _ _ _ _ _ (get_stream_eq _ _ _ H)).
  destruct (Z.gtb_spec (rs_length s) (rs_highWaterMark s + 1)) as [Hgt|Hle].
  - split; [done|]. split; [intros r w' Hr; discriminate|]. split; [lia|].
    intros _ _ Hle. lia.
  - split; [lia|]. split; [intros; lia|]. split; [done|].
    intros Hpush Hread Hin. split.
    + destruct (read_loop_bound tail_read native_push self Hpush Hread fuel w s H)
        as (s' & Hs' & Hh & Hl).
      exists s'. split; [done|]. lia.
    + by apply read_loop_ends.
Qed.

Lemma buffering_push_buffers : push_buffers buffering_push.
Proof.
  intros self chunk w s Hs. unfold buffering_push.
  rewrite (bind_returned _ _ _ _ _ (get_stream_eq _ _ _ Hs)).
  by rewrite (bind_returned _ _ _ _ _ (update_stream_eq _ _ _ _ Hs)).
Qed.

Lemma read_throws_past_watermark_witness :
  PipelineStream_read (fun _ => ret (VStr "chunk")) buffering_push 5 0
    overfull_world
  = (Thrown (ThrownError "unexpected call to pipeline._read()"), overfull_world)
  /\ exists s',
       heap (snd (PipelineStream_read (fun _ => ret (VStr "chunk")) buffering_push
                    5 0 filling_world)) !! 0 = Some (OStream s')
       /\ (rs_length s' <= rs_highWaterMark s' + 1)%Z.
Proof.
  split.
  - apply (proj1 (read_throws_past_watermark (fun _ => ret (VStr "chunk"))
                    buffering_push 5 overfull_world 0 overfull_pipeline eq_refl)).
    reflexivity.
  - apply (proj2 (proj2 (proj2
             (read_throws_past_watermark (fun _ => ret (VStr "chunk"))
                buffering_push 5 filling_world 0 filling_pipeline eq_refl)))).
    + apply buffering_push_buffers.
    + by intros tail w s Hs.
    + simpl. lia.
Defined.

(** ** Facts that calls keep *)

Lemma keeps_ret {A} P (a : A) : keeps P (ret a).
Proof. by intros w. Qed.

Lemma keeps_throw {A} P e : keeps P (@throw A e).
Proof. by intros w. Qed.

Lemma keeps_bind {A B} P (c : M A) (k : A -> M B) :
  keeps P c -> (forall a, keeps P (k a)) -> keeps P (bind c k).
Proof.
  intros Hc Hk w Hw. unfold bind. specialize (Hc w Hw).
  destruct (c w) as [[a|e] w']; simpl in *; [by apply Hk | done].
Qed.

Lemma keeps_assert_ok P b msg : keeps P (assert_ok b msg).
Proof. destruct b; [apply keeps_ret | apply keeps_throw]. Qed.

Lemma keeps_when P b c : keeps P c -> keeps P (when b c).
Proof. destruct b; [done | intros; apply keeps_ret]. Qed.

(** A computation that only reads. *)
Lemma keeps_reader {A} P (c : M A) : (forall w, snd (c w) = w) -> keeps P c.
Proof. intros H w Hw. by rewrite H. Qed.

Lemma get_stream_reads l w : snd (get_stream l w) = w.
Proof. unfold get_stream. by repeat case_match. Qed.

Lemma get_prov_reads l w : snd (get_prov l w) = w.
Proof. unfold get_prov. by repeat case_match. Qed.

Lemma get_array_reads l w : snd (get_array l w) = w.
Proof. unfold get_array. by repeat case_match. Qed.

Lemma isInstrumented_at_reads l w : snd (isInstrumented_at l w) = w.
Proof. unfold isInstrumented_at. by repeat case_match. Qed.

Lemma instanceof_Error_reads v w : snd (instanceof_Error v w) = w.
Proof. unfold instanceof_Error. by repeat case_match. Qed.

Lemma instanceof_ProvenanceValue_reads v w :
  snd (instanceof_ProvenanceValue v w) = w.
Proof. unfold instanceof_ProvenanceValue. by repeat case_match. Qed.

Section StreamField.
Context {X : Type} (f : stream -> X) (u : loc) (x : X).

Lemma keeps_log e : keeps (field_is f u x) (log e).
Proof. by intros w. Qed.

Lemma keeps_alloc o : keeps (field_is f u x) (alloc o).
Proof.
  intros w (s & Hs & Hx). exists s. split; [|done]. simpl.
  rewrite lookup_insert_ne; [done|].
  intros Heq. pose proof (fresh_None w) as Hf. rewrite Heq in Hf. congruence.
Qed.

Lemma keeps_update_stream l g :
  (l = u -> forall s, f s = x -> f (g s) = x) -> keeps (field_is f u x) (update_stream l g).
Proof.
  intros Hg w (s & Hs & Hx). unfold update_stream, bind, get_stream, store.
  destruct (decide (l = u)) as [->|Hne].
  - rewrite Hs. exists (g s). simpl. rewrite lookup_insert_eq. eauto.
  - destruct (heap w !! l) as [[| | |s']|]; try by exists s.
    exists s. simpl. by rewrite lookup_insert_ne.
Qed.

Lemma keeps_set_provenance l a : keeps (field_is f u x) (set_provenance l a).
Proof.
  intros w (s & Hs & Hx). unfold set_provenance, bind, get_prov, store.
  destruct (heap w !! l) as [[| v a0 | |]|] eqn:Hl; try by exists s.
  exists s. simpl. rewrite lookup_insert_ne; [done|]. intros ->. congruence.
Qed.

Lemma keeps_array_push a e : keeps (field_is f u x) (array_push a e).
Proof.
  intros w (s & Hs & Hx). unfold array_push, bind, get_array, store.
  destruct (heap w !! a) as [[es | | |]|] eqn:Hl; try by exists s.
  exists s. simpl. rewrite lookup_insert_ne; [done|]. intros ->. congruence.
Qed.

Lemma keeps_new_ProvenanceValue v : keeps (field_is f u x) (new_ProvenanceValue v).
Proof.
  unfold new_ProvenanceValue. apply keeps_bind; [apply keeps_alloc|].
  intros a. apply keeps_alloc.
Qed.

Lemma keeps_next self newvalue source : keeps (field_is f u x) (next self newvalue source).
Proof.
  unfold next.
  repeat first
    [ apply keeps_ret | apply keeps_assert_ok
    | apply keeps_alloc | apply keeps_set_provenance | apply keeps_array_push
    | apply keeps_new_ProvenanceValue
    | apply keeps_reader;
      first [apply get_stream_reads | apply get_prov_reads | apply get_array_reads
            | apply isInstrumented_at_reads]
    | apply keeps_bind; [|intros ?] ].
Qed.

Lemma keeps_withSource self source : keeps (field_is f u x) (withSource self source).
Proof.
  unfold withSource. apply keeps_bind; [apply keeps_reader, get_prov_reads|].
  intros ?. apply keeps_next.
Qed.

End StreamField.

(** Decomposes a goal [keeps (field_is f u x) c] along the structure of
    [c]; what is left are the updates of the field [f] itself. *)
Ltac keeps_leaf :=
  first
    [ apply keeps_ret | apply keeps_throw | apply keeps_assert_ok
    | apply keeps_log | apply keeps_alloc
    | apply keeps_set_provenance | apply keeps_array_push
    | apply keeps_new_ProvenanceValue | apply keeps_next | apply keeps_withSource
    | apply keeps_reader;
      first [ apply get_stream_reads | apply get_prov_reads
            | apply get_array_reads | apply isInstrumented_at_reads
            | apply instanceof_Error_reads
            | apply instanceof_ProvenanceValue_reads ]
    | apply keeps_update_stream; intros ? ? ?; first [assumption | reflexivity] ].

Ltac keeps_auto :=
  repeat first
    [ assumption
    | match goal with
      | H : context [keeps _ _] |- keeps _ _ => apply H
      end
    | keeps_leaf
    | apply keeps_when
    | match goal with
      | |- keeps _ (match ?x with _ => _ end) => destruct x
      | |- keeps _ (bind _ _) => apply keeps_bind; [|intros ?]
      end ].

Section MarshalMode.
Context (u : loc) (m : marshalmode).

Lemma mode_keeps_vsCounterBump l k :
  keeps (field_is vs_marshalmode u (Some m)) (vsCounterBump l k).
Proof. unfold vsCounterBump, method_of_object. keeps_auto. Qed.

Lemma mode_keeps_vsWarn l err kind :
  keeps (field_is vs_marshalmode u (Some m)) (vsWarn l err kind).
Proof.
  pose proof mode_keeps_vsCounterBump.
  unfold vsWarn, method_of_object, emit. keeps_auto.
Qed.

Lemma mode_keeps_instrumentObject l n :
  keeps (field_is vs_marshalmode u (Some m)) (instrumentObject l n).
Proof. unfold instrumentObject. keeps_auto. Qed.

Lemma mode_keeps_instrumentStream l :
  keeps (field_is vs_marshalmode u (Some m)) (instrumentStream l).
Proof. unfold instrumentStream. keeps_auto. Qed.

Lemma mode_keeps_vsRecordPipe l d :
  keeps (field_is vs_marshalmode u (Some m)) (vsRecordPipe l d).
Proof.
  pose proof mode_keeps_instrumentObject. pose proof mode_keeps_instrumentStream.
  unfold vsRecordPipe, method_of_stream, push_downstream, push_upstream.
  keeps_auto.
Qed.

Lemma mode_keeps_vsRecordUnpipe l d :
  keeps (field_is vs_marshalmode u (Some m)) (vsRecordUnpipe l d).
Proof. unfold vsRecordUnpipe, method_of_stream, length_of. keeps_auto. Qed.

Lemma mode_keeps_stream_on_pipe l src :
  keeps (field_is vs_marshalmode u (Some m)) (stream_on_pipe l src).
Proof.
  pose proof mode_keeps_instrumentObject. pose proof mode_keeps_instrumentStream.
  pose proof mode_keeps_vsRecordPipe.
  unfold stream_on_pipe. keeps_auto.
Qed.

Lemma mode_keeps_vsTransform l chunk enc cb :
  keeps (field_is vs_marshalmode u (Some m)) (vsTransform l chunk enc cb).
Proof.
  pose proof mode_keeps_vsCounterBump.
  unfold vsTransform. keeps_auto.
Qed.

Lemma mode_keeps_vsFlush l cb :
  keeps (field_is vs_marshalmode u (Some m)) (vsFlush l cb).
Proof. unfold vsFlush. keeps_auto. Qed.

Lemma mode_keeps_flush_done l aug cb args :
  keeps (field_is vs_marshalmode u (Some m)) (flush_done l aug cb args).
Proof. unfold flush_done. keeps_auto. Qed.

(** A committed mode survives [if (mode == 'unspecified') mode = ...],
    and so does any mode of [u] when the test is on another stream. *)
Lemma commit_core l m' s' w :
  m <> unspecified \/ l <> u ->
  field_is vs_marshalmode u (Some m) w ->
  heap w !! l = Some (OStream s') ->
  field_is vs_marshalmode u (Some m)
    (snd (when (bool_decide (vs_marshalmode s' = Some unspecified))
            (update_stream l (with_marshalmode (Some m'))) w)).
Proof.
  intros Hc (s & Hs & Hm) Hl.
  destruct (decide (vs_marshalmode s' = Some unspecified)) as [Hu|Hu].
  - rewrite bool_decide_eq_true_2 by done. simpl.
    rewrite (update_stream_eq _ _ _ _ Hl). simpl.
    exists s. split; [|done]. simpl. rewrite lookup_insert_ne; [done|].
    intros ->. destruct Hc; congruence.
  - rewrite bool_decide_eq_false_2 by done. by exists s.
Qed.

Lemma commit_keeps {A} l m' (k : unit -> M A) :
  m <> unspecified \/ l <> u ->
  (forall a, keeps (field_is vs_marshalmode u (Some m)) (k a)) ->
  keeps (field_is vs_marshalmode u (Some m))
    (let* s := get_stream l in
     bind (when (bool_decide (vs_marshalmode s = Some unspecified))
             (update_stream l (with_marshalmode (Some m')))) k).
Proof.
  intros Hc Hk w Hw. unfold bind at 1, get_stream.
  destruct (heap w !! l) as [[| | |s']|] eqn:Hl; try done.
  pose proof (commit_core l m' s' w Hc Hw Hl) as Hcore. unfold bind.
  destruct (when _ _ w) as [[[]|e] w1]; simpl in *; [by apply Hk | done].
Qed.

Lemma commit_keeps_last l m' :
  m <> unspecified ->
  keeps (field_is vs_marshalmode u (Some m))
    (let* s := get_stream l in
     when (bool_decide (vs_marshalmode s = Some unspecified))
       (update_stream l (with_marshalmode (Some m')))).
Proof.
  intros Hc w Hw. unfold bind, get_stream.
  destruct (heap w !! l) as [[| | |s']|] eqn:Hl; try done.
  apply commit_core; auto.
Qed.

Lemma mode_keeps_transform_on_pipe upstream :
  m <> unspecified ->
  keeps (field_is vs_marshalmode u (Some m)) (transform_on_pipe upstream).
Proof.
  intros Hc. unfold transform_on_pipe.
  apply keeps_bind; [keeps_auto|]. intros s.
  apply keeps_bind; [keeps_auto|]. intros l.
  by apply commit_keeps_last.
Qed.

Lemma mode_keeps_pipeline_on_pipe upstream :
  m <> unspecified ->
  keeps (field_is vs_marshalmode u (Some m)) (pipeline_on_pipe upstream).
Proof.
  intros Hc. unfold pipeline_on_pipe.
  apply keeps_bind; [keeps_auto|]. intros s.
  apply keeps_bind; [keeps_auto|]. intros l.
  by apply commit_keeps_last.
Qed.

Lemma mode_keeps_vsPush l chunk :
  m <> unspecified \/ l <> u \/ chunk = VNull ->
  keeps (field_is vs_marshalmode u (Some m)) (vsPush l chunk).
Proof.
  intros Hc. pose proof mode_keeps_vsCounterBump.
  unfold vsPush.
  apply keeps_bind; [keeps_auto|]. intros s.
  apply keeps_bind; [keeps_auto|]. intros _.
  apply keeps_bind; [keeps_auto|]. intros _.
  destruct (decide (chunk = VNull)) as [Hn|Hn].
  { rewrite bool_decide_eq_true_2 by done. keeps_auto. }
  rewrite bool_decide_eq_false_2 by done.
  apply keeps_bind; [keeps_auto|]. intros _.
  apply commit_keeps; [tauto|]. intros _. keeps_auto.
Qed.

Lemma mode_keeps_transform_done l aug cb args :
  m <> unspecified \/ l <> u ->
  keeps (field_is vs_marshalmode u (Some m)) (transform_done l aug cb args).
Proof.
  intros Hc.
  assert (forall chunk, keeps (field_is vs_marshalmode u (Some m)) (vsPush l chunk))
    by (intros; apply mode_keeps_vsPush; tauto).
  unfold transform_done. keeps_auto.
Qed.

Lemma mode_keeps_instrumentTransform l :
  l <> u \/ m = unspecified ->
  keeps (field_is vs_marshalmode u (Some m)) (instrumentTransform l).
Proof.
  intros Hc. unfold instrumentTransform.
  apply keeps_bind; [keeps_auto|]. intros s.
  apply keeps_bind; [keeps_auto|]. intros _.
  apply keeps_update_stream. intros -> s' Hs'. destruct Hc as [?| ->]; done.
Qed.

(** No call changes a committed marshal mode, short of instrumenting the
    transform again. *)
Lemma mode_keeps_perform c :
  m <> unspecified -> ~ reinstrumentation u c ->
  keeps (field_is vs_marshalmode u (Some m)) (perform c).
Proof.
  intros Hc Hre. destruct c as [| | | | | | | | | | | |[]|t]; simpl in *;
    [| | | | | | | | | | | | | |apply mode_keeps_instrumentTransform; left; congruence].
  - apply mode_keeps_instrumentObject.
  - apply mode_keeps_instrumentStream.
  - apply mode_keeps_vsCounterBump.
  - apply mode_keeps_vsWarn.
  - apply mode_keeps_vsRecordPipe.
  - apply mode_keeps_vsRecordUnpipe.
  - apply mode_keeps_stream_on_pipe.
  - by apply mode_keeps_transform_on_pipe.
  - by apply mode_keeps_pipeline_on_pipe.
  - apply mode_keeps_vsTransform.
  - apply mode_keeps_vsFlush.
  - apply mode_keeps_vsPush. tauto.
  - apply mode_keeps_transform_done. tauto.
  - apply mode_keeps_flush_done.
Qed.

Lemma mode_keeps_run cs : forall w,
  m <> unspecified -> Forall (fun c => ~ reinstrumentation u c) cs ->
  field_is vs_marshalmode u (Some m) w ->
  field_is vs_marshalmode u (Some m) (run cs w).
Proof.
  induction cs as [|c cs IH]; intros w Hc Hcs Hw; [done|].
  apply Forall_cons in Hcs as [Hre Hcs].
  simpl. apply IH; [done|done|]. by apply mode_keeps_perform.
Qed.

End MarshalMode.

Lemma mode_at_field w u m :
  mode_at w u = Some m <-> field_is vs_marshalmode u (Some m) w.
Proof.
  unfold mode_at, stream_at, field_is. split.
  - destruct (heap w !! u) as [[| | |s]|]; simpl; try done. eauto.
  - intros (s & -> & Hm). done.
Qed.

Lemma open_or_field w u m :
  field_is (open_or m) u true w ->
  mode_at w u = Some unspecified \/ mode_at w u = Some m.
Proof.
  intros (s & Hs & Ho). rewrite (mode_at_heap _ _ _ Hs).
  unfold open_or in Ho. by apply bool_decide_eq_true_1 in Ho.
Qed.

Lemma open_field w u m :
  mode_at w u = Some unspecified -> field_is (open_or m) u true w.
Proof.
  intros H. apply mode_at_field in H as (s & Hs & Hm). exists s. split; [done|].
  unfold open_or. rewrite Hm. apply bool_decide_eq_true_2. by left.
Qed.

Lemma open_keeps_transform_on_pipe u upstream :
  keeps (field_is (open_or marshal) u true) (transform_on_pipe upstream).
Proof. unfold transform_on_pipe. keeps_auto. Qed.

Lemma open_keeps_pipeline_on_pipe u upstream :
  keeps (field_is (open_or marshal) u true) (pipeline_on_pipe upstream).
Proof. unfold pipeline_on_pipe. keeps_auto. Qed.

Lemma open_keeps_vsPush u l chunk :
  keeps (field_is (open_or nomarshal) u true) (vsPush l chunk).
Proof. unfold vsPush, vsCounterBump, method_of_object. keeps_auto. Qed.

Lemma open_keeps_transform_done u l aug cb args :
  keeps (field_is (open_or nomarshal) u true) (transform_done l aug cb args).
Proof.
  pose proof (open_keeps_vsPush u).
  unfold transform_done. keeps_auto.
Qed.

(** From [unspecified], one call leads to [marshal] only if it is a
    connection and to [nomarshal] only if it is an emission of the stage. *)
Lemma mode_step_from_unspecified u c w :
  mode_at w u = Some unspecified ->
  mode_at (snd (perform c w)) u = Some unspecified
  \/ (mode_at (snd (perform c w)) u = Some marshal /\ connection c)
  \/ (mode_at (snd (perform c w)) u = Some nomarshal /\ emission u c).
Proof.
  intros Hm.
  assert (Hstay : keeps (field_is vs_marshalmode u (Some unspecified)) (perform c) ->
                  mode_at (snd (perform c w)) u = Some unspecified).
  { intros Hk. by apply mode_at_field, Hk, mode_at_field. }
  destruct c as [| | | | | | |up|up| |
                 |self chunk|[self aug cb|self aug cb] args|t]; simpl in *.
  - left. apply Hstay, mode_keeps_instrumentObject.
  - left. apply Hstay, mode_keeps_instrumentStream.
  - left. apply Hstay, mode_keeps_vsCounterBump.
  - left. apply Hstay, mode_keeps_vsWarn.
  - left. apply Hstay, mode_keeps_vsRecordPipe.
  - left. apply Hstay, mode_keeps_vsRecordUnpipe.
  - left. apply Hstay, mode_keeps_stream_on_pipe.
  - destruct (open_or_field _ u marshal
                (open_keeps_transform_on_pipe u up w (open_field w u _ Hm)));
      [by left | right; left; by split].
  - destruct (open_or_field _ u marshal
                (open_keeps_pipeline_on_pipe u up w (open_field w u _ Hm)));
      [by left | right; left; by split].
  - left. apply Hstay, mode_keeps_vsTransform.
  - left. apply Hstay, mode_keeps_vsFlush.
  - destruct (decide (self = u)) as [->|Hne]; cycle 1.
    { left. apply Hstay, mode_keeps_vsPush. tauto. }
    destruct (decide (chunk = VNull)) as [->|Hc].
    { left. apply Hstay, mode_keeps_vsPush. tauto. }
    destruct (open_or_field _ u nomarshal
                (open_keeps_vsPush u u chunk w (open_field w u _ Hm)));
      [by left | right; right; by split].
  - destruct (decide (self = u)) as [->|Hne]; cycle 1.
    { left. apply Hstay, mode_keeps_transform_done. tauto. }
    destruct (open_or_field _ u nomarshal
                (open_keeps_transform_done u u aug cb args w (open_field w u _ Hm)));
      [by left | right; right; by split].
  - left. apply Hstay, mode_keeps_flush_done.
  - left. apply Hstay, mode_keeps_instrumentTransform. by right.
Qed.

Lemma instrumentTransform_eq w t s :
  heap w !! t = Some (OStream s) -> is_Some (vs_name s) ->
  instrumentTransform t w
  = (Returned tt, put t (OStream (with_marshalmode (Some unspecified) s)) w).
Proof.
  intros H Hn. unfold instrumentTransform.
  rewrite (bind_returned _ _ _ _ _ (get_stream_eq _ _ _ H)).
  unfold isInstrumented. rewrite bool_decide_eq_true_2 by done.
  rewrite (bind_returned _ _ _ tt w) by reflexivity.
  by apply update_stream_eq.
Qed.

Lemma transform_on_pipe_eq w u s :
  heap w !! u = Some (OStream s) -> ps_streams s = None ->
  vs_marshalmode s = Some unspecified ->
  transform_on_pipe u w
  = (Returned tt, put u (OStream (with_marshalmode (Some marshal) s)) w).
Proof.
  intros H Hp Hm. unfold transform_on_pipe.
  rewrite (bind_returned _ _ _ _ _ (get_stream_eq _ _ _ H)).
  rewrite Hp. rewrite (bind_returned _ _ _ u w) by reflexivity.
  rewrite (bind_returned _ _ _ _ _ (get_stream_eq _ _ _ H)).
  rewrite Hm. simpl. by apply update_stream_eq.
Qed.

Lemma transform_on_pipe_via_pipeline w p sp l u s :
  heap w !! p = Some (OStream sp) -> ps_streams sp = Some l -> last l = Some u ->
  heap w !! u = Some (OStream s) -> vs_marshalmode s = Some unspecified ->
  transform_on_pipe p w
  = (Returned tt, put u (OStream (with_marshalmode (Some marshal) s)) w).
Proof.
  intros Hp Hl Hlast H Hm. unfold transform_on_pipe.
  rewrite (bind_returned _ _ _ _ _ (get_stream_eq _ _ _ Hp)).
  rewrite Hl, Hlast. rewrite (bind_returned _ _ _ u w) by reflexivity.
  rewrite (bind_returned _ _ _ _ _ (get_stream_eq _ _ _ H)).
  rewrite Hm. simpl. by apply update_stream_eq.
Qed.

(** A push in [nomarshal] mode that returns has handed over its argument. *)
Lemma vsPush_nomarshal_raw w u chunk w' :
  mode_at w u = Some nomarshal ->
  vsPush u chunk w = (Returned tt, w') ->
  trace w' = trace w ++ [RealPush u chunk].
Proof.
  intros Hm Hrun. apply mode_at_field in Hm as (s & Hs & Hm).
  destruct (vs_name s) as [n|] eqn:Hn; cycle 1.
  { unfold vsPush in Hrun.
    rewrite (bind_returned _ _ _ _ _ (get_stream_eq _ _ _ Hs)) in Hrun.
    unfold isInstrumented in Hrun. rewrite Hn in Hrun.
    by rewrite bool_decide_eq_false_2 in Hrun by (by intros [? ?]). }
  assert (Hsome : is_Some (vs_name s)) by (rewrite Hn; eauto).
  destruct (decide (chunk = VNull)) as [->|Hc].
  { rewrite (vsPush_null w u s) in Hrun by done. by simplify_eq. }
  destruct (vs_context s) as [c|] eqn:Hx.
  - destruct (vs_counters s !! "hasOwnProperty") as [v|] eqn:Hshadow.
    + by rewrite (vsPush_shadowed w u s c) in Hrun by (done || by rewrite Hshadow).
    + rewrite (vsPush_nomarshal w u s c) in Hrun by done. by simplify_eq.
  - by rewrite (vsPush_no_context w u s) in Hrun.
Qed.




(** ** The processing call *)

Section ProcessingContext.
Context (u : loc) (c0 : loc).

Ltac ctx_auto :=
  repeat first
    [ assumption
    | match goal with
      | H : context [keeps _ _] |- keeps _ _ => apply H
      end
    | keeps_leaf
    | apply keeps_update_stream; intros ? ? ?; congruence
    | apply keeps_when
    | match goal with
      | |- keeps _ (match ?x with _ => _ end) => destruct x
      | |- keeps _ (bind _ _) => apply keeps_bind; [|intros ?]
      end ].

Lemma ctx_keeps_vsCounterBump l k :
  keeps (field_is ctx_of u (true, Some c0)) (vsCounterBump l k).
Proof. unfold vsCounterBump, method_of_object. ctx_auto. Qed.

Lemma ctx_keeps_vsWarn l err kind :
  keeps (field_is ctx_of u (true, Some c0)) (vsWarn l err kind).
Proof.
  pose proof ctx_keeps_vsCounterBump.
  unfold vsWarn, method_of_object, emit. ctx_auto.
Qed.

Lemma ctx_keeps_vsPush l chunk :
  keeps (field_is ctx_of u (true, Some c0)) (vsPush l chunk).
Proof.
  pose proof ctx_keeps_vsCounterBump.
  unfold vsPush. ctx_auto.
Qed.

(** [instrumentObject] refuses an instrumented object. *)
Lemma ctx_keeps_instrumentObject l n :
  keeps (field_is ctx_of u (true, Some c0)) (instrumentObject l n).
Proof.
  destruct (decide (l = u)) as [->|Hne].
  - intros w (s & Hs & Hx). unfold instrumentObject.
    rewrite (bind_returned _ _ _ _ _ (get_stream_eq _ _ _ Hs)).
    unfold ctx_of in Hx. injection Hx as Hi Hx. rewrite Hi.
    exists s. split; [exact Hs|]. unfold ctx_of. by rewrite Hi, Hx.
  - unfold instrumentObject. ctx_auto.
Qed.

Lemma ctx_keeps_instrumentStream l :
  keeps (field_is ctx_of u (true, Some c0)) (instrumentStream l).
Proof. unfold instrumentStream. ctx_auto. Qed.

Lemma ctx_keeps_vsRecordPipe l d :
  keeps (field_is ctx_of u (true, Some c0)) (vsRecordPipe l d).
Proof.
  pose proof ctx_keeps_instrumentObject. pose proof ctx_keeps_instrumentStream.
  unfold vsRecordPipe, method_of_stream, push_downstream, push_upstream.
  ctx_auto.
Qed.

Lemma ctx_keeps_vsRecordUnpipe l d :
  keeps (field_is ctx_of u (true, Some c0)) (vsRecordUnpipe l d).
Proof. unfold vsRecordUnpipe, method_of_stream, length_of. ctx_auto. Qed.

Lemma ctx_keeps_stream_on_pipe l src :
  keeps (field_is ctx_of u (true, Some c0)) (stream_on_pipe l src).
Proof.
  pose proof ctx_keeps_instrumentObject. pose proof ctx_keeps_instrumentStream.
  pose proof ctx_keeps_vsRecordPipe.
  unfold stream_on_pipe. ctx_auto.
Qed.

Lemma ctx_keeps_transform_on_pipe upstream :
  keeps (field_is ctx_of u (true, Some c0)) (transform_on_pipe upstream).
Proof. unfold transform_on_pipe. ctx_auto. Qed.

Lemma ctx_keeps_pipeline_on_pipe upstream :
  keeps (field_is ctx_of u (true, Some c0)) (pipeline_on_pipe upstream).
Proof. unfold pipeline_on_pipe. ctx_auto. Qed.

(** A second processing call on [u] fails its assertion. *)
Lemma ctx_keeps_vsTransform l chunk enc cb :
  keeps (field_is ctx_of u (true, Some c0)) (vsTransform l chunk enc cb).
Proof.
  pose proof ctx_keeps_vsCounterBump.
  destruct (decide (l = u)) as [->|Hne].
  - intros w (s & Hs & Hx). unfold vsTransform.
    rewrite (bind_returned _ _ _ _ _ (get_stream_eq _ _ _ Hs)).
    unfold ctx_of in Hx. injection Hx as Hi Hx. rewrite Hi, Hx.
    exists s. split; [exact Hs|]. unfold ctx_of. by rewrite Hi, Hx.
  - unfold vsTransform. ctx_auto.
Qed.

Lemma ctx_keeps_vsFlush l cb :
  keeps (field_is ctx_of u (true, Some c0)) (vsFlush l cb).
Proof.
  destruct (decide (l = u)) as [->|Hne].
  - intros w (s & Hs & Hx). unfold vsFlush.
    rewrite (bind_returned _ _ _ _ _ (get_stream_eq _ _ _ Hs)).
    unfold ctx_of in Hx. injection Hx as Hi Hx. rewrite Hi, Hx.
    exists s. split; [exact Hs|]. unfold ctx_of. by rewrite Hi, Hx.
  - unfold vsFlush. ctx_auto.
Qed.

Lemma ctx_keeps_transform_done l aug cb args :
  l <> u ->
  keeps (field_is ctx_of u (true, Some c0)) (transform_done l aug cb args).
Proof.
  intros Hne. pose proof ctx_keeps_vsPush.
  unfold transform_done. ctx_auto.
Qed.

Lemma ctx_keeps_flush_done l aug cb args :
  l <> u ->
  keeps (field_is ctx_of u (true, Some c0)) (flush_done l aug cb args).
Proof. intros Hne. unfold flush_done. ctx_auto. Qed.

Lemma ctx_keeps_instrumentTransform l :
  keeps (field_is ctx_of u (true, Some c0)) (instrumentTransform l).
Proof. unfold instrumentTransform. ctx_auto. Qed.

(** Only the completion of [u]'s own call ends [u]'s context. *)
Lemma ctx_keeps_perform c :
  ~ completion u c ->
  keeps (field_is ctx_of u (true, Some c0)) (perform c).
Proof.
  intros Hc. destruct c as [| | | | | | | | | | | |[]|t]; simpl in *.
  - apply ctx_keeps_instrumentObject.
  - apply ctx_keeps_instrumentStream.
  - apply ctx_keeps_vsCounterBump.
  - apply ctx_keeps_vsWarn.
  - apply ctx_keeps_vsRecordPipe.
  - apply ctx_keeps_vsRecordUnpipe.
  - apply ctx_keeps_stream_on_pipe.
  - apply ctx_keeps_transform_on_pipe.
  - apply ctx_keeps_pipeline_on_pipe.
  - apply ctx_keeps_vsTransform.
  - apply ctx_keeps_vsFlush.
  - apply ctx_keeps_vsPush.
  - by apply ctx_keeps_transform_done.
  - by apply ctx_keeps_flush_done.
  - apply ctx_keeps_instrumentTransform.
Qed.

Lemma ctx_keeps_run cs : forall w,
  Forall (fun c => ~ completion u c) cs ->
  field_is ctx_of u (true, Some c0) w ->
  field_is ctx_of u (true, Some c0) (run cs w).
Proof.
  induction cs as [|c cs IH]; intros w Hcs Hw; [done|].
  apply Forall_cons in Hcs as [Hc Hcs].
  simpl. apply IH; [done|]. by apply ctx_keeps_perform.
Qed.

End ProcessingContext.

Lemma bind_returned_inv {A B} (c : M A) (k : A -> M B) w b w' :
  bind c k w = (Returned b, w') ->
  exists a w1, c w = (Returned a, w1) /\ k a w1 = (Returned b, w').
Proof.
  unfold bind. destruct (c w) as [[a|e] w1]; [eauto | discriminate].
Qed.

Lemma instanceof_ProvenanceValue_eq v w :
  instanceof_ProvenanceValue v w = (Returned (prov_of w v), w).
Proof.
  unfold instanceof_ProvenanceValue, prov_of. by repeat case_match.
Qed.

Lemma prov_of_Some w v l :
  prov_of w v = Some l -> exists p a, heap w !! l = Some (OProv p a).
Proof.
  unfold prov_of. intros H. repeat case_match; simplify_eq. eauto.
Qed.

Lemma vsTransform_reentrant w self s c chunk enc cb :
  heap w !! self = Some (OStream s) -> is_Some (vs_name s) ->
  vs_context s = Some c ->
  vsTransform self chunk enc cb w = (Thrown (AssertionError no_message), w).
Proof.
  intros H Hn Hx. unfold vsTransform.
  rewrite (bind_returned _ _ _ _ _ (get_stream_eq _ _ _ H)).
  unfold isInstrumented. rewrite bool_decide_eq_true_2 by done.
  rewrite (bind_returned _ _ _ tt w) by reflexivity.
  by rewrite Hx.
Qed.

(** The part of [vsTransform] after [augmented] has been chosen. *)
Lemma vsTransform_enter w self s aug p a enc cb :
  heap w !! self = Some (OStream s) -> is_Some (vs_name s) -> unshadowed s ->
  heap w !! aug = Some (OProv p a) ->
  (vsCounterBump self "ninputs" >>
   update_stream self (with_context (Some aug)) >>
   let* a := get_prov aug in
   log (RealTransform self (fst a) enc (TransformDone self aug cb))) w
  = (Returned tt,
     World (<[self := OStream (with_context (Some aug) (bumped "ninputs" s))]> (heap w))
           (trace w ++ [RealTransform self p enc (TransformDone self aug cb)])).
Proof.
  intros H Hn Hu Ha.
  assert (Hne : self <> aug) by (intros ->; congruence).
  rewrite (bind_returned _ _ _ _ _ (vsCounterBump_eq _ _ _ _ H Hn Hu)).
  erewrite bind_returned by apply update_stream_eq, heap_put_eq.
  erewrite bind_returned; cycle 1.
  { apply get_prov_eq. simpl. rewrite !lookup_insert_ne by done. exact Ha. }
  rewrite log_eq. simpl. by rewrite insert_insert_eq.
Qed.

Lemma vsTransform_pre w self s chunk enc cb :
  heap w !! self = Some (OStream s) -> is_Some (vs_name s) ->
  vs_context s = None ->
  vsTransform self chunk enc cb w
  = (let* augmented :=
       match prov_of w chunk with
       | Some l => ret l
       | None => new_ProvenanceValue chunk
       end in
     vsCounterBump self "ninputs" >>
     update_stream self (with_context (Some augmented)) >>
     let* a := get_prov augmented in
     log (RealTransform self (fst a) enc (TransformDone self augmented cb))) w.
Proof.
  intros H Hn Hx. unfold vsTransform.
  rewrite (bind_returned _ _ _ _ _ (get_stream_eq _ _ _ H)).
  unfold isInstrumented. rewrite bool_decide_eq_true_2 by done.
  rewrite (bind_returned _ _ _ tt w) by reflexivity.
  rewrite Hx. rewrite (bind_returned _ _ _ tt w) by reflexivity.
  by rewrite (bind_returned _ _ _ _ _ (instanceof_ProvenanceValue_eq _ _)).
Qed.

(** The state a processing call leaves for the wrapped [_transform]. *)
Lemma vsTransform_state w self s chunk enc cb p h :
  heap w !! self = Some (OStream s) -> is_Some (vs_name s) -> unshadowed s ->
  vs_context s = None -> incoming w chunk = Some (p, h) ->
  exists aug w1,
    vsTransform self chunk enc cb w = (Returned tt, w1)
    /\ heap w1 !! self
       = Some (OStream (with_context (Some aug) (bumped "ninputs" s)))
    /\ pv_at w1 aug = Some (p, h)
    /\ trace w1 = trace w ++ [RealTransform self p enc (TransformDone self aug cb)].
Proof.
  intros H Hn Hu Hx Hin.
  rewrite (vsTransform_pre w self s chunk enc cb H Hn Hx). unfold incoming in Hin.
  destruct (prov_of w chunk) as [l|] eqn:Hp.
  - destruct (pv_at_inv _ _ _ _ Hin) as (a & Hl & Ha).
    assert (Hne : self <> l) by (intros ->; congruence).
    assert (Hnea : self <> a) by (intros ->; congruence).
    exists l. eexists. split.
    { rewrite (bind_returned _ _ _ l w) by reflexivity.
      by apply (vsTransform_enter w self s l p a). }
    split; [apply lookup_insert_eq|]. split; [|done].
    unfold pv_at. simpl. rewrite lookup_insert_ne, Hl by done.
    by rewrite lookup_insert_ne, Ha.
  - injection Hin as <- <-.
    destruct (new_ProvenanceValue_spec w chunk) as (a & rv & Hnew & Ha & Hrv & Hne).
    assert (Hsa : self <> a) by (intros ->; congruence).
    assert (Hsrv : self <> rv) by (intros ->; congruence).
    exists rv. eexists. split.
    { rewrite (bind_returned _ _ _ _ _ Hnew).
      apply (vsTransform_enter _ self s rv chunk a); [|done|done|apply heap_put_eq].
      by rewrite !heap_put_ne. }
    split; [apply lookup_insert_eq|]. split; [|done].
    unfold pv_at. simpl.
    rewrite lookup_insert_ne, lookup_insert_eq by done.
    by rewrite lookup_insert_ne, lookup_insert_ne, lookup_insert_eq.
Qed.

(** With a counter [hasOwnProperty] in the table the call gets as far as
    the bump: the context is not set and the wrapped [_transform] is not
    called. *)
Lemma vsTransform_shadowed w self s l enc cb :
  heap w !! self = Some (OStream s) -> is_Some (vs_name s) ->
  is_Some (vs_counters s !! "hasOwnProperty") ->
  vs_context s = None -> prov_of w (VRef l) = Some l ->
  vsTransform self (VRef l) enc cb w = (Thrown TypeError, w).
Proof.
  intros H Hn Hshadow Hx Hp.
  rewrite (vsTransform_pre w self s _ enc cb H Hn Hx), Hp.
  rewrite (bind_returned _ _ _ l w) by reflexivity.
  by rewrite (bind_thrown _ _ _ _ _ (vsCounterBump_shadowed _ _ _ _ H Hn Hshadow)).
Qed.

Lemma vsTransform_spec w self s chunk enc cb :
  heap w !! self = Some (OStream s) -> is_Some (vs_name s) ->
  unshadowed s -> below_ceiling (default 0 (vs_counters s !! "ninputs")) ->
  vs_context s = None ->
  exists aug w',
    vsTransform self chunk enc cb w = (Returned tt, w')
    /\ counter_at w' self "ninputs"
       = Some (S (default 0 (vs_counters s !! "ninputs")))
    /\ context_at w' self = Some aug
    /\ match prov_of w chunk with
       | Some l => aug = l
       | None => heap w !! aug = None /\ pv_at w' aug = Some (chunk, [])
       end
    /\ exists payload a,
         heap w' !! aug = Some (OProv payload a)
         /\ trace w' = trace w ++ [RealTransform self payload enc
                                     (TransformDone self aug cb)].
Proof.
  intros H Hn Hu Hb Hx.
  assert (Hcount : vs_counters (bumped "ninputs" s) !! "ninputs"
                   = Some (S (default 0 (vs_counters s !! "ninputs"))))
    by (by apply bumped_same).
  rewrite (vsTransform_pre w self s chunk enc cb H Hn Hx).
  destruct (prov_of w chunk) as [l|] eqn:Hp.
  - destruct (prov_of_Some _ _ _ Hp) as (p & a & Hl).
    assert (Hne : self <> l) by (intros ->; congruence).
    exists l. eexists. split.
    { rewrite (bind_returned _ _ _ l w) by reflexivity.
      by apply (vsTransform_enter w self s l p a). }
    split; [by erewrite counter_at_heap by apply lookup_insert_eq|].
    split; [by erewrite context_at_heap by apply lookup_insert_eq|].
    split; [done|]. exists p, a. simpl. by rewrite lookup_insert_ne.
  - destruct (new_ProvenanceValue_spec w chunk) as (a & rv & Hnew & Ha & Hrv & Hne).
    assert (Hsa : self <> a) by (intros ->; congruence).
    assert (Hsrv : self <> rv) by (intros ->; congruence).
    exists rv. eexists. split.
    { rewrite (bind_returned _ _ _ _ _ Hnew).
      apply (vsTransform_enter _ self s rv chunk a); [|done|done|apply heap_put_eq].
      by rewrite !heap_put_ne. }
    split; [by erewrite counter_at_heap by apply lookup_insert_eq|].
    split; [by erewrite context_at_heap by apply lookup_insert_eq|].
    split.
    { split; [done|]. unfold pv_at. simpl.
      rewrite lookup_insert_ne, lookup_insert_eq by done.
      by rewrite lookup_insert_ne, lookup_insert_ne, lookup_insert_eq. }
    exists chunk, a. simpl. by rewrite lookup_insert_ne, lookup_insert_eq.
Qed.

Lemma transform_done_too_many w self aug cb args :
  3 <= length args ->
  transform_done self aug cb args w
  = (Thrown (AssertionError "_transform callback passed more arguments than expected"),
     w).
Proof.
  intros Hl. unfold transform_done.
  by rewrite (proj2 (Nat.ltb_ge (length args) 3)) by done.
Qed.

Lemma transform_done_cleared w self aug cb args w' :
  transform_done self aug cb args w = (Returned tt, w') ->
  context_at w' self = None
  /\ exists t, trace w' = t ++ [Callback cb (take 1 args)].
Proof.
  unfold transform_done. intros H.
  apply bind_returned_inv in H as (? & w1 & _ & H).
  apply bind_returned_inv in H as (s & w2 & _ & H).
  apply bind_returned_inv in H as (? & w3 & _ & H).
  apply bind_returned_inv in H as (? & w4 & _ & H).
  apply bind_returned_inv in H as (? & w5 & Hup & H).
  unfold update_stream in Hup.
  apply bind_returned_inv in Hup as (s4 & w4' & Hget & Hst).
  unfold store in Hst. rewrite log_eq in H. simplify_eq. simpl.
  split; [|eauto].
  by erewrite context_at_heap by apply lookup_insert_eq.
Qed.

Lemma vsPush_returns w self s c m p h chunk :
  heap w !! self = Some (OStream s) -> is_Some (vs_name s) -> unshadowed s ->
  vs_context s = Some c -> vs_marshalmode s = Some m ->
  pv_at w c = Some (p, h) ->
  exists w', vsPush self chunk w = (Returned tt, w').
Proof.
  intros H Hn Hu Hx Hm Hpv.
  destruct (decide (chunk = VNull)) as [->|Hc].
  { eexists. by apply (vsPush_null w self s). }
  destruct m.
  - eexists. by apply (vsPush_unspecified w self s c).
  - destruct (vsPush_marshal_spec w self s c chunk p h) as (rv & w' & Hrun & _);
      eauto.
  - eexists. by apply (vsPush_nomarshal w self s c).
Qed.

Lemma transform_done_returns w self s aug cb args m p h :
  heap w !! self = Some (OStream s) -> is_Some (vs_name s) -> unshadowed s ->
  vs_context s = Some aug -> vs_marshalmode s = Some m ->
  pv_at w aug = Some (p, h) ->
  length args < 3 ->
  exists w', transform_done self aug cb args w = (Returned tt, w').
Proof.
  intros H Hn Hu Hx Hm Hpv Hl. unfold transform_done.
  rewrite (proj2 (Nat.ltb_lt (length args) 3)) by done.
  rewrite (bind_returned _ _ _ tt w) by reflexivity.
  rewrite (bind_returned _ _ _ _ _ (get_stream_eq _ _ _ H)).
  rewrite Hx, bool_decide_eq_true_2 by done.
  rewrite (bind_returned _ _ _ tt w) by reflexivity.
  destruct (negb (truthy (default VUndefined (args !! 0))) && (1 <? length args)).
  - destruct (vsPush_returns w self s aug m p h (default VUndefined (args !! 1)))
      as (w1 & Hpush); try done.
    assert (Hctx : field_is ctx_of self (true, Some aug) w1).
    { replace w1 with (snd (vsPush self (default VUndefined (args !! 1)) w))
        by (by rewrite Hpush).
      apply ctx_keeps_vsPush. exists s. split; [done|].
      unfold ctx_of, isInstrumented. by rewrite Hx, bool_decide_eq_true_2. }
    destruct Hctx as (s1 & Hs1 & Hc1). injection Hc1 as _ Hx1.
    erewrite bind_returned; cycle 1.
    { simpl. rewrite (bind_returned _ _ _ _ _ Hpush).
      rewrite (bind_returned _ _ _ _ _ (get_stream_eq _ _ _ Hs1)).
      rewrite Hx1, bool_decide_eq_true_2 by done. reflexivity. }
    rewrite (bind_returned _ _ _ _ _ (update_stream_eq _ _ _ _ Hs1)).
    eexists. reflexivity.
  - simpl. rewrite (bind_returned _ _ _ tt w) by reflexivity.
    rewrite (bind_returned _ _ _ _ _ (update_stream_eq _ _ _ _ H)).
    eexists. reflexivity.
Qed.

Lemma vsFlush_reentrant w self s c cb :
  heap w !! self = Some (OStream s) -> is_Some (vs_name s) ->
  vs_context s = Some c ->
  vsFlush self cb w = (Thrown (AssertionError no_message), w).
Proof.
  intros H Hn Hx. unfold vsFlush.
  rewrite (bind_returned _ _ _ _ _ (get_stream_eq _ _ _ H)).
  unfold isInstrumented. rewrite bool_decide_eq_true_2 by done.
  rewrite (bind_returned _ _ _ tt w) by reflexivity.
  by rewrite Hx.
Qed.

Lemma flush_done_cleared w self aug cb args w' :
  flush_done self aug cb args w = (Returned tt, w') ->
  context_at w' self = None /\ exists t, trace w' = t ++ [Callback cb args].
Proof.
  unfold flush_done. intros H.
  apply bind_returned_inv in H as (s & w2 & _ & H).
  apply bind_returned_inv in H as (? & w3 & _ & H).
  apply bind_returned_inv in H as (? & w5 & Hup & H).
  unfold update_stream in Hup.
  apply bind_returned_inv in Hup as (s4 & w4' & Hget & Hst).
  unfold store in Hst. rewrite log_eq in H. simplify_eq. simpl.
  split; [|eauto].
  by erewrite context_at_heap by apply lookup_insert_eq.
Qed.




(** * More of the library *)

(** ** The convenience wrappers *)

Lemma instrumentObject_taken w obj s name :
  heap w !! obj = Some (OStream s) -> is_Some (vs_name s) ->
  instrumentObject obj name w
  = (Thrown (AssertionError "object already instrumented"), w).
Proof.
  intros H Hn. unfold instrumentObject.
  rewrite (bind_returned _ _ _ _ _ (get_stream_eq _ _ _ H)).
  unfold isInstrumented. by rewrite bool_decide_eq_true_2.
Qed.

Lemma instrumentObject_with_taken w l s options :
  heap w !! l = Some (OStream s) -> is_Some (vs_name s) ->
  instrumentObject_with l options w
  = (Thrown (AssertionError "object already instrumented"), w).
Proof.
  intros H Hn. unfold instrumentObject_with.
  rewrite (bind_returned _ _ _ _ _ (get_stream_eq _ _ _ H)).
  destruct options as [|name|[]]; try by apply (instrumentObject_taken w l s).
  all: unfold isInstrumented; by rewrite bool_decide_eq_true_2.
Qed.

Lemma wrapStream_fresh w l s options name :
  heap w !! l = Some (OStream s) -> vs_name s = None ->
  name_for options s = Some name ->
  wrapStream l options w = (Returned l, put l (OStream (staged name s)) w).
Proof.
  intros H Hn Hname. unfold wrapStream.
  assert (Hobj : instrumentObject_with l options w
                 = (Returned tt, put l (OStream (named name s)) w)).
  { unfold instrumentObject_with.
    rewrite (bind_returned _ _ _ _ _ (get_stream_eq _ _ _ H)).
    destruct options as [|n|[]]; simplify_eq/=; by apply instrumentObject_eq. }
  rewrite (bind_returned _ _ _ _ _ Hobj).
  erewrite bind_returned by (apply instrumentStream_eq; [apply heap_put_eq|simpl; eauto]).
  by rewrite put_put.
Qed.

(** X1.  [wrapTransform] of a stream nothing has touched, with usable
    options, returns the stream itself, which now carries the name asked
    for (that of its constructor when no options are given), no counters, no
    context, two empty linkage lists and the marshal mode [unspecified];
    nothing else in the world changes.  With an options object whose [name]
    is not a string it fails its assertion and changes nothing. *)
Theorem wrapTransform_fresh (w : world) (l : loc) (s : stream)
    (options : wrap_options) :
  heap w !! l = Some (OStream s) -> vs_name s = None ->
  match name_for options s with
  | Some name =>
      wrapTransform l options w
      = (Returned l,
         put l (OStream (Stream (ctor_name s) (Some name) ∅ None (Some []) (Some [])
                           (Some unspecified) (ps_streams s) (ps_needreadable s)
                           (rs_length s) (rs_highWaterMark s))) w)
  | None =>
      wrapTransform l options w
      = (Thrown (AssertionError "args.name (string) is required"), w)
  end.
Proof.
  intros H Hn. destruct (name_for options s) as [name|] eqn:Hname.
  - unfold wrapTransform.
    rewrite (bind_returned _ _ _ _ _ (wrapStream_fresh w l s options name H Hn Hname)).
    erewrite bind_returned
      by (apply instrumentTransform_eq; [apply heap_put_eq|simpl; eauto]).
    by rewrite put_put.
  - unfold wrapTransform, wrapStream, instrumentObject_with.
    rewrite (bind_thrown _ _ _ (AssertionError "args.name (string) is required") w);
      [done|].
    rewrite (bind_thrown _ _ _ (AssertionError "args.name (string) is required") w);
      [done|].
    rewrite (bind_returned _ _ _ _ _ (get_stream_eq _ _ _ H)).
    destruct options as [|n|[]]; simplify_eq/=;
      unfold isInstrumented; rewrite Hn; done.
Qed.

Lemma wrapTransform_fresh_witness :
  wrapTransform 3 NoOptions fresh_stages
  = (Returned 3,
     put 3 (OStream (Stream "PassThrough" (Some "PassThrough") ∅ None (Some [])
                       (Some []) (Some unspecified) None false 0 16)) fresh_stages).
Proof.
  exact (wrapTransform_fresh fresh_stages 3 (plain_stream "PassThrough") NoOptions
           eq_refl eq_refl).
Defined.

(** X2.  An object can be instrumented once: on a stream that already has
    a name, [instrumentObject], [wrapStream] and [wrapTransform] all fail
    with "object already instrumented", whatever the options, and change
    nothing.  So a stream that went through [wrapStream] cannot be turned
    into an instrumented transform by [wrapTransform]. *)
Theorem wrapping_twice_fails (w : world) (l : loc) (s : stream)
    (options : wrap_options) (name : string) :
  heap w !! l = Some (OStream s) -> is_Some (vs_name s) ->
  instrumentObject l name w
    = (Thrown (AssertionError "object already instrumented"), w)
  /\ wrapStream l options w
     = (Thrown (AssertionError "object already instrumented"), w)
  /\ wrapTransform l options w
     = (Thrown (AssertionError "object already instrumented"), w).
Proof.
  intros H Hn. split; [by apply (instrumentObject_taken w l s)|].
  assert (Hw : wrapStream l options w
               = (Thrown (AssertionError "object already instrumented"), w)).
  { unfold wrapStream.
    by rewrite (bind_thrown _ _ _ _ _ (instrumentObject_with_taken w l s options H Hn)). }
  split; [done|]. unfold wrapTransform. by rewrite (bind_thrown _ _ _ _ _ Hw).
Qed.

Lemma wrapping_twice_fails_witness :
  exists w1,
    wrapStream 3 NoOptions fresh_stages = (Returned 3, w1)
    /\ wrapTransform 3 (NameOption "t1") w1
       = (Thrown (AssertionError "object already instrumented"), w1).
Proof.
  eexists. split; [reflexivity|].
  refine (proj2 (proj2 (wrapping_twice_fails _ 3 _ (NameOption "t1") "t1" _ _)));
    [reflexivity | simpl; eauto].
Defined.

(** ** More on linkage *)

Lemma put_commute l1 l2 o1 o2 w :
  l1 <> l2 -> put l1 o1 (put l2 o2 w) = put l2 o2 (put l1 o1 w).
Proof. intros. unfold put. simpl. by rewrite insert_insert_ne. Qed.

(** Both ends are stages already. *)
Lemma vsRecordPipe_stage_eq w self d s sd l lu :
  heap w !! self = Some (OStream s) -> vs_downstreams s = Some l ->
  heap w !! d = Some (OStream sd) -> is_Some (vs_name sd) ->
  vs_upstreams sd = Some lu -> self <> d ->
  vsRecordPipe self d w
  = (Returned tt,
     put d (OStream (with_upstreams (Some (lu ++ [self])) sd))
       (put self (OStream (with_downstreams (Some (l ++ [d])) s)) w)).
Proof.
  intros Hs Hl Hd Hn Hlu Hne. unfold vsRecordPipe.
  rewrite (bind_returned _ _ _ _ _ (method_of_stream_eq _ _ _ Hs ltac:(rewrite Hl; eauto))).
  rewrite (bind_returned _ _ _ _ _ (get_stream_eq _ _ _ Hd)).
  unfold isInstrumented. rewrite bool_decide_eq_true_2 by done. cbn [negb when].
  rewrite (bind_returned _ _ _ tt w) by reflexivity.
  rewrite (bind_returned _ _ _ _ _ (push_downstream_eq _ _ _ _ _ Hs Hl)).
  by erewrite push_upstream_eq by (rewrite ?heap_put_ne by done; done).
Qed.

(** The downstream is instrumented on the way. *)
Lemma vsRecordPipe_untouched_eq w self d s sd l :
  heap w !! self = Some (OStream s) -> vs_downstreams s = Some l ->
  heap w !! d = Some (OStream sd) -> vs_name sd = None ->
  vs_upstreams sd = None -> self <> d ->
  vsRecordPipe self d w
  = (Returned tt,
     put d (OStream (with_upstreams (Some [self]) (staged (ctor_name sd) sd)))
       (put self (OStream (with_downstreams (Some (l ++ [d])) s)) w)).
Proof.
  intros Hs Hl Hd Hn Hu Hne. unfold vsRecordPipe.
  rewrite (bind_returned _ _ _ _ _ (method_of_stream_eq _ _ _ Hs ltac:(rewrite Hl; eauto))).
  rewrite (bind_returned _ _ _ _ _ (get_stream_eq _ _ _ Hd)).
  unfold isInstrumented. rewrite Hn.
  rewrite bool_decide_eq_false_2 by (by intros [? ?]). cbn [negb when].
  rewrite Hu, bool_decide_eq_true_2 by done.
  erewrite (bind_returned (bind _ _)); cycle 1.
  { rewrite (bind_returned _ _ _ tt w) by reflexivity.
    rewrite (bind_returned _ _ _ _ _ (instrumentObject_eq _ _ _ _ Hd Hn)).
    erewrite instrumentStream_eq by (apply heap_put_eq || (simpl; eauto)).
    rewrite put_put. reflexivity. }
  erewrite bind_returned;
    [|apply (push_downstream_eq _ _ s l); [by rewrite heap_put_ne|done]].
  erewrite push_upstream_eq;
    [|rewrite heap_put_ne by done; apply heap_put_eq|reflexivity].
  rewrite (put_commute self d) by done. by rewrite put_put.
Qed.

(** X3.  [vsRecordPipe] into a stream nothing has touched instruments it
    on the way: the downstream gets the name of its constructor, an empty
    counter table and this stage as its only upstream, and this stage gets
    it as its last downstream.  A downstream that has no name but does have
    a [vs_upstreams] property fails the assertion, with nothing changed. *)
Theorem recordPipe_instruments_downstream (w : world) (self d : loc)
    (s sd : stream) (l : list loc) :
  heap w !! self = Some (OStream s) -> vs_downstreams s = Some l ->
  heap w !! d = Some (OStream sd) -> vs_name sd = None -> self <> d ->
  match vs_upstreams sd with
  | None =>
      vsRecordPipe self d w
      = (Returned tt,
         put d (OStream (Stream (ctor_name sd) (Some (ctor_name sd)) ∅ None
                           (Some [self]) (Some []) (vs_marshalmode sd)
                           (ps_streams sd) (ps_needreadable sd)
                           (rs_length sd) (rs_highWaterMark sd)))
           (put self (OStream (with_downstreams (Some (l ++ [d])) s)) w))
  | Some _ =>
      vsRecordPipe self d w = (Thrown (AssertionError no_message), w)
  end.
Proof.
  intros Hs Hl Hd Hn Hne. destruct (vs_upstreams sd) as [lu|] eqn:Hu.
  - unfold vsRecordPipe.
    rewrite (bind_returned _ _ _ _ _ (method_of_stream_eq _ _ _ Hs ltac:(rewrite Hl; eauto))).
    rewrite (bind_returned _ _ _ _ _ (get_stream_eq _ _ _ Hd)).
    unfold isInstrumented. rewrite Hn.
    rewrite bool_decide_eq_false_2 by (by intros [? ?]). cbn [negb when].
    rewrite Hu. by rewrite bool_decide_eq_false_2.
  - by apply vsRecordPipe_untouched_eq.
Qed.

Lemma recordPipe_instruments_downstream_witness :
  vsRecordPipe 0 2 one_stage_world
  = (Returned tt,
     put 2 (OStream (Stream "Socket" (Some "Socket") ∅ None (Some [0]) (Some [])
                       None None false 0 16))
       (put 0 (OStream (Stream "A" (Some "A") ∅ None (Some []) (Some [2]) None None
                          false 0 16)) one_stage_world)).
Proof.
  exact (recordPipe_instruments_downstream one_stage_world 0 2 _ (plain_stream "Socket")
           [] eq_refl eq_refl eq_refl eq_refl ltac:(discriminate)).
Defined.

Lemma snoc_split_first (d : loc) L d1 d2 :
  L ++ [d] = d1 ++ d :: d2 -> d ∉ L -> d1 = L /\ d2 = [].
Proof.
  revert d1. induction L as [|x L IH]; intros d1 Heq HL.
  - destruct d1 as [|y d1]; simplify_eq/=; [done|].
    by destruct d1.
  - apply not_elem_of_cons in HL as [Hx HL].
    destruct d1 as [|y d1]; simplify_eq/=.
    destruct (IH d1) as [-> ->]; done.
Qed.

Lemma snoc_split_perm (d : loc) L d1 d2 :
  L ++ [d] = d1 ++ d :: d2 -> d1 ++ d2 ≡ₚ L.
Proof.
  intros Heq. apply (Permutation_cons_inv (a := d)).
  rewrite Permutation_middle, <- Heq. by rewrite Permutation_app_comm.
Qed.

(** X4.  Removing a connection that was just recorded gives back the
    linkage: every upstream and downstream list has its entries back, and
    in their order when the pair was not linked before; when it was, the
    entry removed is the older one, so the order may differ. *)
Theorem record_then_remove (w w1 : world) (self d : loc) :
  stage_discipline w ->
  vsRecordPipe self d w = (Returned tt, w1) ->
  exists w2,
    vsRecordUnpipe self d w1 = (Returned tt, w2)
    /\ (forall x, downstreams_of w2 x ≡ₚ downstreams_of w x
                  /\ upstreams_of w2 x ≡ₚ upstreams_of w x)
    /\ (d ∉ downstreams_of w self ->
        forall x, downstreams_of w2 x = downstreams_of w x)
    /\ (self ∉ upstreams_of w d ->
        forall x, upstreams_of w2 x = upstreams_of w x).
Proof.
  intros Hw Hpipe.
  destruct (vsRecordPipe_cases w self d Hw) as [(e & He)|(w1' & Hp & Hpiped)];
    [congruence|].
  assert (w1' = w1) as -> by congruence.
  destruct Hpiped as (_ & Hdown & Hup).
  destruct (vsRecordUnpipe_outcome w1 self d) as
    [(e & _ & Hnot & _)|(_ & _ & w2 & Hrun & Hun & _)].
  { destruct Hnot. rewrite Hdown, Hup, !decide_True by done. set_solver. }
  destruct Hun as (d1 & d2 & u1 & u2 & Hd & Hd' & Hu & Hu' & Hd1 & Hu1 & Hdo & Huo).
  rewrite Hdown, decide_True in Hd by done.
  rewrite Hup, decide_True in Hu by done.
  assert (Hdx : forall x, x <> self -> downstreams_of w2 x = downstreams_of w x).
  { intros x Hx. by rewrite Hdo, Hdown, decide_False, app_nil_r. }
  assert (Hux : forall x, x <> d -> upstreams_of w2 x = upstreams_of w x).
  { intros x Hx. by rewrite Huo, Hup, decide_False, app_nil_r. }
  exists w2. split; [done|]. split; [|split].
  - intros x. split.
    + destruct (decide (x = self)) as [->|Hx]; [|by rewrite Hdx].
      rewrite Hd'. by apply (snoc_split_perm d).
    + destruct (decide (x = d)) as [->|Hx]; [|by rewrite Hux].
      rewrite Hu'. by apply (snoc_split_perm self).
  - intros Hnew x. destruct (decide (x = self)) as [->|Hx]; [|by apply Hdx].
    rewrite Hd'. by destruct (snoc_split_first _ _ _ _ Hd Hnew) as [-> ->];
      rewrite app_nil_r.
  - intros Hnew x. destruct (decide (x = d)) as [->|Hx]; [|by apply Hux].
    rewrite Hu'. by destruct (snoc_split_first _ _ _ _ Hu Hnew) as [-> ->];
      rewrite app_nil_r.
Qed.

Lemma record_then_remove_witness :
  exists w1 w2,
    vsRecordPipe 0 1 fresh_stages = (Returned tt, w1)
    /\ vsRecordUnpipe 0 1 w1 = (Returned tt, w2)
    /\ forall x, downstreams_of w2 x = downstreams_of fresh_stages x.
Proof.
  eexists.
  destruct (record_then_remove fresh_stages _ 0 1 fresh_stages_disciplined eq_refl)
    as (w2 & Hrun & _ & Hdown & _).
  exists w2. split; [reflexivity|]. split; [exact Hrun|].
  apply Hdown. vm_compute. apply not_elem_of_nil.
Defined.

Lemma occurrences_pos x l : x ∈ l -> 0 < occurrences x l.
Proof.
  induction 1 as [x l|x y l _ IH]; rewrite occurrences_cons.
  - rewrite decide_True by done. lia.
  - lia.
Qed.

(** X5.  [instrumentStream] starts the linkage of its stream afresh: a
    stage that is instrumented again has no upstreams and no downstreams,
    while its former neighbours still list it, so linkage that was mutual is
    not any more. *)
Theorem instrumentStream_forgets_links (w : world) (a b : loc) (s : stream) :
  heap w !! a = Some (OStream s) -> is_Some (vs_name s) ->
  b ∈ downstreams_of w a -> a <> b ->
  exists w',
    instrumentStream a w = (Returned tt, w')
    /\ downstreams_of w' a = [] /\ upstreams_of w' a = []
    /\ (forall x, x <> a -> upstreams_of w' x = upstreams_of w x
                            /\ downstreams_of w' x = downstreams_of w x)
    /\ (mutual_linkage w -> a ∈ upstreams_of w' b /\ ~ mutual_linkage w').
Proof.
  intros Hs Hn Hb Hne. eexists. split; [by apply instrumentStream_eq|].
  rewrite downstreams_of_put, upstreams_of_put. do 2 (split; [done|]).
  split.
  { intros x Hx. by rewrite upstreams_of_put_ne, downstreams_of_put_ne. }
  intros Hm. pose proof (occurrences_pos _ _ Hb) as Hpos.
  rewrite <- Hm in Hpos. rewrite upstreams_of_put_ne by done.
  split.
  - unfold occurrences in Hpos.
    destruct (filter _ _) as [|y ys] eqn:Hf; [simpl in Hpos; lia|].
    assert (y ∈ filter (fun y => y = a) (upstreams_of w b)) as Hy
      by (rewrite Hf; left).
    by apply list_elem_of_filter in Hy as [-> ?].
  - intros Hm'. specialize (Hm' a b).
    rewrite upstreams_of_put_ne, downstreams_of_put in Hm' by done.
    simpl in Hm'. rewrite occurrences_nil in Hm'. lia.
Qed.

Lemma linked_world_mutual : mutual_linkage linked_world.
Proof.
  intros a b. unfold upstreams_of, downstreams_of, stream_at, linked_world.
  rewrite !heap_world_of.
  destruct a as [|[|[|[|a]]]], b as [|[|[|[|b]]]]; reflexivity.
Qed.

Lemma instrumentStream_forgets_links_witness :
  exists w',
    instrumentStream 0 linked_world = (Returned tt, w')
    /\ downstreams_of w' 0 = [] /\ 0 ∈ upstreams_of w' 1.
Proof.
  destruct (instrumentStream_forgets_links linked_world 0 1 _ eq_refl
              ltac:(simpl; eauto)
              ltac:(vm_compute; left) ltac:(discriminate))
    as (w' & Hrun & Hd & _ & _ & Hm).
  exists w'. split; [exact Hrun|]. split; [exact Hd|].
  apply Hm, linked_world_mutual.
Defined.

(** Instrumenting an untouched stream changes no list that is read. *)
Lemma staged_linkage w l s name :
  stage_discipline w -> mutual_linkage w ->
  heap w !! l = Some (OStream s) -> vs_name s = None ->
  stage_discipline (put l (OStream (staged name s)) w)
  /\ mutual_linkage (put l (OStream (staged name s)) w).
Proof.
  intros Hw Hm Hs Hn.
  pose proof (Hw l s Hs) as Hd. unfold disciplined in Hd. rewrite Hn in Hd.
  destruct Hd as [Hu Hdn].
  split.
  - apply stage_discipline_put; [done|]. unfold disciplined. simpl. eauto.
  - assert (Hups : forall x, upstreams_of (put l (OStream (staged name s)) w) x
                             = upstreams_of w x).
    { intros x. destruct (decide (x = l)) as [->|Hx].
      - by rewrite upstreams_of_put, (upstreams_of_heap _ _ _ Hs), Hu.
      - by rewrite upstreams_of_put_ne. }
    assert (Hdowns : forall x, downstreams_of (put l (OStream (staged name s)) w) x
                               = downstreams_of w x).
    { intros x. destruct (decide (x = l)) as [->|Hx].
      - by rewrite downstreams_of_put, (downstreams_of_heap _ _ _ Hs), Hdn.
      - by rewrite downstreams_of_put_ne. }
    intros a b. rewrite Hups, Hdowns. apply Hm.
Qed.

Lemma stream_on_pipe_preserves w stream source :
  stage_discipline w /\ mutual_linkage w ->
  stage_discipline (snd (stream_on_pipe stream source w))
  /\ mutual_linkage (snd (stream_on_pipe stream source w)).
Proof.
  intros [Hw Hm]. unfold stream_on_pipe.
  destruct (heap w !! source) as [[| | |src]|] eqn:Hs;
    try (unfold bind, get_stream; rewrite Hs; done).
  rewrite (bind_returned _ _ _ _ _ (get_stream_eq _ _ _ Hs)).
  unfold isInstrumented.
  destruct (vs_name src) as [n|] eqn:Hn.
  - rewrite bool_decide_eq_true_2 by done. cbn [negb when].
    rewrite (bind_returned _ _ _ tt w) by reflexivity.
    apply (linkage_call_preserves (RecordPipe source stream) w I (conj Hw Hm)).
  - rewrite bool_decide_eq_false_2 by (by intros [? ?]). cbn [negb when].
    pose proof (Hw source src Hs) as Hd. unfold disciplined in Hd.
    rewrite Hn in Hd. destruct Hd as [Hu Hdn].
    rewrite Hdn, bool_decide_eq_true_2 by done.
    erewrite (bind_returned (bind _ _)); cycle 1.
    { rewrite (bind_returned _ _ _ tt w) by reflexivity.
      rewrite (bind_returned _ _ _ _ _ (instrumentObject_eq _ _ _ _ Hs Hn)).
      erewrite instrumentStream_eq by (apply heap_put_eq || (simpl; eauto)).
      rewrite put_put. reflexivity. }
    apply (linkage_call_preserves (RecordPipe source stream) _ I).
    by apply (staged_linkage w source src).
Qed.

(** X6.  The ['pipe'] listener that [instrumentStream] installs keeps the
    linkage mutual as the two methods do: from a world in which every
    stream is untouched or a stage and the linkage is mutual, any sequence
    of ['pipe'] events, [vsRecordPipe] and [vsRecordUnpipe] calls leaves
    every [a] in [b]'s upstreams exactly as often as [b] is in [a]'s
    downstreams. *)
Theorem pipe_events_keep_linkage_mutual (w : world) (cs : list call) :
  stage_discipline w -> mutual_linkage w -> Forall linking_call cs ->
  stage_discipline (run cs w) /\ mutual_linkage (run cs w).
Proof.
  intros Hw Hm Hcs.
  revert w Hw Hm. induction Hcs as [|c cs Hc Hcs IH]; intros w Hw Hm; [done|].
  simpl.
  assert (stage_discipline (snd (perform c w)) /\ mutual_linkage (snd (perform c w)))
    as [Hw' Hm'].
  { destruct c; try done.
    - by apply (linkage_call_preserves (RecordPipe _ _)).
    - by apply (linkage_call_preserves (RecordUnpipe _ _)).
    - by apply stream_on_pipe_preserves. }
  by apply IH.
Qed.

Lemma pipe_events_keep_linkage_mutual_witness :
  mutual_linkage
    (run [StreamPiped 1 3; RecordPipe 1 2; StreamPiped 2 3; RecordUnpipe 3 1]
       fresh_stages).
Proof.
  apply (pipe_events_keep_linkage_mutual fresh_stages
           [StreamPiped 1 3; RecordPipe 1 2; StreamPiped 2 3; RecordUnpipe 3 1]
           fresh_stages_disciplined fresh_stages_mutual).
  repeat constructor.
Defined.

(** ** Walking the linkage *)

Lemma first_of_upstreams w x :
  first_of vs_upstreams x w = (Returned (head (upstreams_of w x)), w).
Proof.
  unfold first_of, upstreams_of, stream_at.
  destruct (heap w !! x) as [[| | |s]|]; try done. simpl.
  by destruct (vs_upstreams s) as [[|? ?]|].
Qed.

Lemma first_of_downstreams w x :
  first_of vs_downstreams x w = (Returned (head (downstreams_of w x)), w).
Proof.
  unfold first_of, downstreams_of, stream_at.
  destruct (heap w !! x) as [[| | |s]|]; try done. simpl.
  by destruct (vs_downstreams s) as [[|? ?]|].
Qed.

Lemma head_loop_S fuel x w :
  head_loop (S fuel) x w
  = match head (upstreams_of w x) with
    | Some u => head_loop fuel u w
    | None => (Returned (Some x), w)
    end.
Proof.
  cbn [head_loop].
  rewrite (bind_returned _ _ _ _ _ (first_of_upstreams w x)).
  by destruct (head (upstreams_of w x)).
Qed.

Lemma members_of_eq w x depth :
  members_of x depth w
  = (Returned ((fun m => (m, S depth))
                 <$> default [] (s ← stream_at w x; ps_streams s)), w).
Proof.
  unfold members_of, stream_at. by destruct (heap w !! x) as [[| | |s]|].
Qed.

Lemma walk_loop_S fuel x depth w :
  walk_loop (S fuel) x depth w
  = let members := (fun m => (m, S depth))
                     <$> default [] (s ← stream_at w x; ps_streams s) in
    match head (downstreams_of w x) with
    | Some d =>
        match walk_loop fuel d depth w with
        | (Returned rest, w') =>
            (Returned ((fun r => (x, depth) :: members ++ r) <$> rest), w')
        | (Thrown e, w') => (Thrown e, w')
        end
    | None => (Returned (Some ((x, depth) :: members)), w)
    end.
Proof.
  cbn [walk_loop].
  rewrite (bind_returned _ _ _ _ _ (members_of_eq w x depth)).
  rewrite (bind_returned _ _ _ _ _ (first_of_downstreams w x)).
  destruct (head (downstreams_of w x)) as [d|]; [|done].
  unfold bind. by destruct (walk_loop fuel d depth w) as [[rest|e] w'].
Qed.

Lemma vsHead_eq w self s fuel :
  heap w !! self = Some (OStream s) -> is_Some (vs_name s) ->
  is_Some (vs_upstreams s) -> is_Some (vs_downstreams s) ->
  vsHead fuel self w = head_loop fuel self w.
Proof.
  intros Hs Hn Hu Hd. unfold vsHead.
  rewrite (bind_returned _ _ _ _ _ (method_of_stream_eq _ _ _ Hs Hd)).
  rewrite (bind_returned _ _ _ _ _ (get_stream_eq _ _ _ Hs)).
  unfold isInstrumented. rewrite !bool_decide_eq_true_2 by done.
  by rewrite !(bind_returned _ _ _ tt w) by reflexivity.
Qed.

Lemma vsWalk_eq w self s fuel depth :
  heap w !! self = Some (OStream s) -> is_Some (vs_downstreams s) ->
  vsWalk fuel self depth w = walk_loop fuel self (default 0 depth) w.
Proof.
  intros Hs Hd. unfold vsWalk.
  rewrite (bind_returned _ _ _ _ _ (method_of_stream_eq _ _ _ Hs Hd)).
  rewrite (bind_returned _ _ _ _ _ (get_stream_eq _ _ _ Hs)).
  rewrite !bool_decide_eq_true_2 by done.
  by rewrite !(bind_returned _ _ _ tt w) by reflexivity.
Qed.

Lemma stage_with_upstreams w x ups downs :
  stage_with w x ups downs -> upstreams_of w x = ups.
Proof. intros (s & Hs & _ & Hu & _). by rewrite (upstreams_of_heap _ _ _ Hs), Hu. Qed.

Lemma stage_with_downstreams w x ups downs :
  stage_with w x ups downs -> downstreams_of w x = downs.
Proof.
  intros (s & Hs & _ & _ & Hd & _). by rewrite (downstreams_of_heap _ _ _ Hs), Hd.
Qed.

Lemma stage_with_members w x ups downs :
  stage_with w x ups downs -> default [] (s ← stream_at w x; ps_streams s) = [].
Proof. intros (s & Hs & _ & _ & _ & Hp). unfold stream_at. by rewrite Hs; simpl; rewrite Hp. Qed.

Lemma linked_from_lookup w l : forall U i x,
  linked_from w U l -> l !! i = Some x ->
  stage_with w x (match i with 0 => U | S j => option_list (l !! j) end)
    (option_list (l !! S i)).
Proof.
  induction l as [|a rest IH]; intros U i x Hl Hi; [done|].
  destruct Hl as [Ha Hrest]. destruct i as [|j]; simplify_eq/=.
  - by rewrite <- head_lookup.
  - pose proof (IH [a] j x Hrest Hi) as H. by destruct j.
Qed.

Lemma head_loop_chain w l :
  linked_from w [] l ->
  forall i x fuel, l !! i = Some x -> i < fuel ->
                   head_loop fuel x w = (Returned (head l), w).
Proof.
  intros Hl. induction i as [|j IH]; intros x fuel Hi Hfuel;
    (destruct fuel as [|fuel]; [lia|]); rewrite head_loop_S;
    pose proof (linked_from_lookup w l [] _ x Hl Hi) as Hx;
    rewrite (stage_with_upstreams _ _ _ _ Hx).
  - simpl. by rewrite head_lookup, Hi.
  - destruct (lookup_lt_is_Some_2 l j) as [y Hy];
      [apply lookup_lt_Some in Hi; lia|].
    rewrite Hy. simpl. apply IH; [done|lia].
Qed.

Lemma walk_loop_chain w d : forall rest a U fuel,
  linked_from w U (a :: rest) -> length rest < fuel ->
  walk_loop fuel a d w = (Returned (Some ((fun x => (x, d)) <$> (a :: rest))), w).
Proof.
  induction rest as [|b r IH]; intros a U fuel [Ha Hrest] Hfuel;
    (destruct fuel as [|fuel]; [simpl in Hfuel; lia|]); rewrite walk_loop_S;
    rewrite (stage_with_members _ _ _ _ Ha), (stage_with_downstreams _ _ _ _ Ha);
    simpl; [done|].
  rewrite (IH b [a] fuel Hrest) by (simpl in Hfuel; lia). done.
Qed.

Lemma pipe_chain_links rest : forall a w U,
  NoDup (a :: rest) -> stage_with w a U [] ->
  Forall (fun x => stage_with w x [] []) rest ->
  linked_from (run (pipe_chain (a :: rest)) w) U (a :: rest)
  /\ forall y, y ∉ a :: rest ->
               heap (run (pipe_chain (a :: rest)) w) !! y = heap w !! y.
Proof.
  induction rest as [|b r IH]; intros a w U Hnd Ha Hrest.
  { simpl. by repeat split. }
  apply NoDup_cons in Hnd as [Hab Hnd].
  apply Forall_cons in Hrest as [Hb Hr].
  assert (a <> b) as Hne by (intros ->; apply Hab; left).
  destruct Ha as (sa & Hsa & Hna & Hua & Hda & Hpa).
  destruct Hb as (sb & Hsb & Hnb & Hub & Hdb & Hpb).
  change (pipe_chain (a :: b :: r)) with (RecordPipe a b :: pipe_chain (b :: r)).
  change (run (RecordPipe a b :: pipe_chain (b :: r)) w)
    with (run (pipe_chain (b :: r)) (snd (vsRecordPipe a b w))).
  rewrite (vsRecordPipe_stage_eq w a b sa sb [] [] Hsa Hda Hsb Hnb Hub Hne).
  cbn [snd app].
  set (w1 := put b _ (put a _ w)).
  destruct (IH b w1 [a] Hnd) as [Hlinked Hframe].
  { exists (with_upstreams (Some [a]) sb). split; [apply heap_put_eq|]. by simpl. }
  { apply Forall_forall. intros x Hx.
    rewrite Forall_forall in Hr. destruct (Hr x Hx) as (sx & Hsx & Hrest).
    exists sx. split; [|done]. unfold w1.
    rewrite !heap_put_ne; [done| |].
    - intros ->. apply Hab. by right.
    - intros ->. apply NoDup_cons in Hnd as [Hbr _]. done. }
  split.
  - split; [|exact Hlinked].
    exists (with_downstreams (Some [b]) sa). split; [|by simpl].
    rewrite Hframe by done. unfold w1.
    rewrite heap_put_ne by done. apply heap_put_eq.
  - intros y Hy. apply not_elem_of_cons in Hy as [Hya Hy].
    rewrite Hframe by done. unfold w1.
    apply not_elem_of_cons in Hy as [Hyb _].
    by rewrite !heap_put_ne.
Qed.

(** X7.  Pipe fresh, distinct stages one into the next with
    [vsRecordPipe]: then [vsHead] of every stage of the chain is the first
    stage, and [vsWalk] from the first stage visits the stages in the order
    of the chain, each once and at the depth it was given (0 when none
    was).  Neither changes anything. *)
Theorem chain_head_and_walk (w : world) (l : list loc) (fuel : nat) :
  NoDup l -> Forall (fun x => stage_with w x [] []) l -> length l <= fuel ->
  (forall x, x ∈ l ->
             vsHead fuel x (run (pipe_chain l) w)
             = (Returned (head l), run (pipe_chain l) w))
  /\ (forall a depth, head l = Some a ->
        vsWalk fuel a depth (run (pipe_chain l) w)
        = (Returned (Some ((fun x => (x, default 0 depth)) <$> l)),
           run (pipe_chain l) w)).
Proof.
  intros Hnd Hl Hfuel. destruct l as [|a rest]; [by split; [intros ? ?%elem_of_nil|]|].
  apply Forall_cons in Hl as [Ha Hrest].
  destruct (pipe_chain_links rest a w [] Hnd Ha Hrest) as [Hlinked _].
  set (w' := run (pipe_chain (a :: rest)) w) in *.
  split.
  - intros x Hx. apply list_elem_of_lookup in Hx as [i Hi].
    destruct (linked_from_lookup w' _ [] i x Hlinked Hi) as (s & Hs & Hn & Hu & Hd & _).
    rewrite (vsHead_eq w' x s) by (rewrite ?Hu, ?Hd; eauto).
    apply (head_loop_chain w' _ Hlinked i); [done|].
    apply lookup_lt_Some in Hi. lia.
  - intros a' depth [= <-].
    destruct Hlinked as [Ha' Hrest'].
    destruct Ha' as (s & Hs & Hn & Hu & Hd & Hp).
    rewrite (vsWalk_eq w' a s) by (rewrite ?Hd; eauto).
    apply (walk_loop_chain w' _ rest a []).
    + split; [by exists s|done].
    + simpl in Hfuel. lia.
Qed.

Lemma chain_head_and_walk_witness :
  vsHead 3 2 (run (pipe_chain [0; 1; 2]) fresh_stages)
  = (Returned (Some 0), run (pipe_chain [0; 1; 2]) fresh_stages)
  /\ vsWalk 3 0 None (run (pipe_chain [0; 1; 2]) fresh_stages)
     = (Returned (Some [(0, 0); (1, 0); (2, 0)]),
        run (pipe_chain [0; 1; 2]) fresh_stages).
Proof.
  assert (Hnd : NoDup [0; 1; 2]) by (by apply (bool_decide_unpack (NoDup [0; 1; 2]))).
  assert (Hl : Forall (fun x => stage_with fresh_stages x [] []) [0; 1; 2]).
  { repeat constructor; eexists; (split; [reflexivity|]); simpl; eauto. }
  destruct (chain_head_and_walk fresh_stages [0; 1; 2] 3 Hnd Hl ltac:(simpl; lia))
    as [Hhead Hwalk].
  split.
  - apply (Hhead 2). by apply (bool_decide_unpack (2 ∈ [0; 1; 2])).
  - apply (Hwalk 0 None). reflexivity.
Defined.

Lemma head_loop_sound w : forall fuel x h w',
  head_loop fuel x w = (Returned (Some h), w') ->
  w' = w /\ first_upstream_path w x h /\ upstreams_of w h = [].
Proof.
  induction fuel as [|fuel IH]; intros x h w' Hrun; [done|].
  rewrite head_loop_S in Hrun.
  destruct (head (upstreams_of w x)) as [u|] eqn:Hu.
  - destruct (IH u h w' Hrun) as (Hw & Hpath & Hh).
    split; [done|]. split; [by eapply path_up|done].
  - injection Hrun as ? ?; subst x w'. split; [done|]. split; [constructor|].
    by destruct (upstreams_of w h).
Qed.

Lemma head_loop_complete w x h :
  first_upstream_path w x h -> upstreams_of w h = [] ->
  exists fuel, forall fuel', fuel <= fuel' ->
                             head_loop fuel' x w = (Returned (Some h), w).
Proof.
  induction 1 as [x|x y h Hy _ IH]; intros Hh.
  - exists 1. intros [|fuel'] ?; [lia|]. by rewrite head_loop_S, Hh.
  - destruct (IH Hh) as [fuel Hfuel]. exists (S fuel).
    intros [|fuel'] ?; [lia|]. rewrite head_loop_S, Hy. apply Hfuel. lia.
Qed.

(** X8.  [vsHead] follows first upstreams and nothing else: for a stage,
    it returns [h] (given enough steps) exactly when [h] is reached by
    going from upstream list to its first entry, and [h] has no upstreams;
    further upstreams of a stream are never looked at.  Nothing is
    changed. *)
Theorem vsHead_follows_first_upstreams (w : world) (self h : loc) (s : stream) :
  heap w !! self = Some (OStream s) -> is_Some (vs_name s) ->
  is_Some (vs_upstreams s) -> is_Some (vs_downstreams s) ->
  (exists fuel, vsHead fuel self w = (Returned (Some h), w))
  <-> first_upstream_path w self h /\ upstreams_of w h = [].
Proof.
  intros Hs Hn Hu Hd. split.
  - intros [fuel Hrun]. rewrite (vsHead_eq w self s) in Hrun by done.
    by destruct (head_loop_sound w fuel self h w Hrun) as (_ & ? & ?).
  - intros [Hpath Hh].
    destruct (head_loop_complete w self h Hpath Hh) as [fuel Hfuel].
    exists fuel. rewrite (vsHead_eq w self s) by done. by apply Hfuel.
Qed.

Lemma vsHead_follows_first_upstreams_witness :
  (exists fuel, vsHead fuel 1 linked_world = (Returned (Some 0), linked_world))
  <-> first_upstream_path linked_world 1 0 /\ upstreams_of linked_world 0 = [].
Proof.
  apply (vsHead_follows_first_upstreams linked_world 1 0 _ eq_refl);
    simpl; eauto.
Defined.

Lemma head_loop_ring w (P : loc -> Prop) :
  (forall x, P x -> exists y, head (upstreams_of w x) = Some y /\ P y) ->
  forall fuel x, P x -> head_loop fuel x w = (Returned None, w).
Proof.
  intros Hring. induction fuel as [|fuel IH]; intros x Hx; [done|].
  rewrite head_loop_S. destruct (Hring x Hx) as (y & -> & Hy). by apply IH.
Qed.

Lemma walk_loop_ring w (P : loc -> Prop) depth :
  (forall x, P x -> exists y, head (downstreams_of w x) = Some y /\ P y) ->
  forall fuel x, P x -> walk_loop fuel x depth w = (Returned None, w).
Proof.
  intros Hring. induction fuel as [|fuel IH]; intros x Hx; [done|].
  rewrite walk_loop_S. destruct (Hring x Hx) as (y & -> & Hy).
  cbv zeta. by rewrite (IH y Hy).
Qed.

(** X9.  Neither walk ends on a ring.  When the first upstream of every
    stream of a set is in the set again, [vsHead] of a stage of the set has
    not returned after any number of steps; likewise [vsWalk] and first
    downstreams. *)
Theorem walks_do_not_leave_a_ring (w : world) (P : loc -> Prop) (self : loc)
    (s : stream) :
  heap w !! self = Some (OStream s) -> is_Some (vs_name s) ->
  is_Some (vs_upstreams s) -> is_Some (vs_downstreams s) -> P self ->
  ((forall x, P x -> exists y, head (upstreams_of w x) = Some y /\ P y) ->
   forall fuel, vsHead fuel self w = (Returned None, w))
  /\ ((forall x, P x -> exists y, head (downstreams_of w x) = Some y /\ P y) ->
      forall fuel depth, vsWalk fuel self depth w = (Returned None, w)).
Proof.
  intros Hs Hn Hu Hd Hself. split.
  - intros Hring fuel. rewrite (vsHead_eq w self s) by done.
    by apply (head_loop_ring w P).
  - intros Hring fuel depth. rewrite (vsWalk_eq w self s) by done.
    by apply (walk_loop_ring w P).
Qed.

Lemma walks_do_not_leave_a_ring_witness :
  (forall fuel, vsHead fuel 0 ring_world = (Returned None, ring_world))
  /\ (forall fuel depth, vsWalk fuel 0 depth ring_world = (Returned None, ring_world)).
Proof.
  destruct (walks_do_not_leave_a_ring ring_world (fun x => x = 0 \/ x = 1) 0 _
              eq_refl ltac:(simpl; eauto) ltac:(simpl; eauto) ltac:(simpl; eauto)
              ltac:(by left)) as [Hhead Hwalk].
  split.
  - apply Hhead. intros x [->| ->]; [exists 1|exists 0]; split; auto.
  - apply Hwalk. intros x [->| ->]; [exists 1|exists 0]; split; auto.
Defined.

Lemma walk_loop_visits w depth : forall fuel x visits w',
  walk_loop fuel x depth w = (Returned (Some visits), w') ->
  w' = w /\ head visits = Some (x, depth)
  /\ Forall (fun v => v.2 = depth
                      \/ v.2 = S depth
                         /\ exists p, (p, depth) ∈ visits
                                      /\ v.1 ∈ pipeline_members w p) visits.
Proof.
  induction fuel as [|fuel IH]; intros x visits w' Hrun; [done|].
  rewrite walk_loop_S in Hrun. cbv zeta in Hrun.
  fold (pipeline_members w x) in Hrun.
  assert (Hmem : Forall (fun v : loc * nat =>
                   v.2 = S depth /\ v.1 ∈ pipeline_members w x)
                   ((fun m => (m, S depth)) <$> pipeline_members w x)).
  { apply Forall_fmap, Forall_forall. by intros m Hm. }
  destruct (head (downstreams_of w x)) as [d|].
  - destruct (walk_loop fuel d depth w) as [[[rest|]|e] w1] eqn:Hrest;
      simplify_eq/=.
    destruct (IH d rest w' Hrest) as (Hw & _ & Hall).
    do 2 (split; [done|]).
    apply Forall_cons. split; [by left|].
    apply Forall_app. split.
    + eapply Forall_impl; [exact Hmem|]. intros v [? ?]. right.
      split; [done|]. exists x. split; [left|done].
    + eapply Forall_impl; [exact Hall|]. intros v [?|(? & p & Hp & ?)]; [by left|].
      right. split; [done|]. exists p. split; [|done].
      right. apply elem_of_app. by right.
  - injection Hrun as ? ?; subst visits w'. do 2 (split; [done|]).
    apply Forall_cons. split; [by left|].
    eapply Forall_impl; [exact Hmem|]. intros v [? ?]. right.
    split; [done|]. exists x. split; [left|done].
Qed.

Lemma method_of_stream_inv l w a w' :
  method_of_stream l w = (Returned a, w') ->
  exists s, heap w !! l = Some (OStream s) /\ is_Some (vs_downstreams s).
Proof.
  unfold method_of_stream, bind, get_stream.
  destruct (heap w !! l) as [[| | |s]|]; try done.
  destruct (vs_downstreams s) as [ds|] eqn:Hd; [by eauto|].
  by rewrite bool_decide_eq_false_2 by (by intros [? ?]).
Qed.

Lemma vsWalk_inv fuel self depth w r w' :
  vsWalk fuel self depth w = (Returned r, w') ->
  exists s, heap w !! self = Some (OStream s) /\ is_Some (vs_downstreams s).
Proof.
  unfold vsWalk. intros Hrun.
  apply bind_returned_inv in Hrun as (? & w1 & Hm & _).
  by apply method_of_stream_inv in Hm.
Qed.

(** X10.  [vsWalk] calls the function on the stream first, at the depth
    given (0 when none is), and after that only at this depth or one below
    it: one below are the streams a pipeline visited at this depth is made
    of; what those are made of is not visited.  The walk changes
    nothing. *)
Theorem vsWalk_depths (w w' : world) (self : loc) (fuel : nat)
    (depth : option nat) (visits : list (loc * nat)) :
  vsWalk fuel self depth w = (Returned (Some visits), w') ->
  w' = w /\ head visits = Some (self, default 0 depth)
  /\ Forall (fun v => v.2 = default 0 depth
                      \/ v.2 = S (default 0 depth)
                         /\ exists p, (p, default 0 depth) ∈ visits
                                      /\ v.1 ∈ pipeline_members w p) visits.
Proof.
  intros Hrun.
  destruct (vsWalk_inv _ _ _ _ _ _ Hrun) as (s & Hs & Hd).
  rewrite (vsWalk_eq w self s) in Hrun by done.
  by apply walk_loop_visits in Hrun.
Qed.

Lemma vsWalk_depths_witness :
  exists visits,
    vsWalk 4 0 None pipeline_world = (Returned (Some visits), pipeline_world)
    /\ visits = [(0, 0); (1, 0); (2, 1); (3, 1)]
    /\ Forall (fun v => v.2 = 0
                        \/ v.2 = 1 /\ exists p, (p, 0) ∈ visits
                                                /\ v.1 ∈ pipeline_members pipeline_world p)
         visits.
Proof.
  eexists. split; [reflexivity|]. split; [reflexivity|].
  apply (vsWalk_depths pipeline_world pipeline_world 0 4 None _ eq_refl).
Defined.

(** ** Provenance through a stage *)

Lemma pv_at_beside w w' self s l v es :
  heap w !! self = Some (OStream s) ->
  (forall x, x <> self -> is_Some (heap w !! x) -> heap w' !! x = heap w !! x) ->
  pv_at w l = Some (v, es) -> pv_at w' l = Some (v, es).
Proof.
  intros Hs Hframe Hpv. destruct (pv_at_inv _ _ _ _ Hpv) as (a & Hl & Ha).
  assert (l <> self) by (intros ->; congruence).
  assert (a <> self) by (intros ->; congruence).
  unfold pv_at. rewrite Hframe, Hl by eauto. by rewrite Hframe, Ha by eauto.
Qed.

(** X11.  What a marshalling stage emits while it works on an input
    carries that input's history and one more entry: the stage's name and
    the count of the input among the stage's inputs, from 1.  The wrapped
    [_transform] is given the bare payload, and the input's own history is
    left as it was.  This is for a stage whose table has no counter
    [hasOwnProperty] and that has seen fewer than 2^53 inputs. *)
Theorem marshalled_output_extends_history (w : world) (self : loc) (s : stream)
    (n : string) (chunk enc out p : value) (h : list pentry) (cb : nat) :
  heap w !! self = Some (OStream s) -> vs_name s = Some n ->
  unshadowed s -> below_ceiling (default 0 (vs_counters s !! "ninputs")) ->
  vs_context s = None -> vs_marshalmode s = Some marshal ->
  incoming w chunk = Some (p, h) -> out <> VNull ->
  exists aug w1 rv w2,
    vsTransform self chunk enc cb w = (Returned tt, w1)
    /\ trace w1 = trace w ++ [RealTransform self p enc (TransformDone self aug cb)]
    /\ vsPush self out w1 = (Returned tt, w2)
    /\ trace w2 = trace w1 ++ [RealPush self (VRef rv)]
    /\ pv_at w2 rv
       = Some (out, h ++ [PEntry n (S (default 0 (vs_counters s !! "ninputs")))])
    /\ pv_at w2 aug = Some (p, h).
Proof.
  intros Hs Hn Hu Hb Hx Hm Hin Hout.
  destruct (vsTransform_state w self s chunk enc cb p h Hs ltac:(by rewrite Hn)
              Hu Hx Hin)
    as (aug & w1 & Hrun & Hs1 & Hpv & Htr).
  assert (Hu1 : unshadowed (with_context (Some aug) (bumped "ninputs" s)))
    by (by apply (bumped_unshadowed "ninputs")).
  destruct (vsPush_marshal_spec w1 self _ aug out p h Hs1
              ltac:(by simpl; rewrite Hn) Hu1 Hout eq_refl Hm Hpv)
    as (rv & w2 & Hpush & _ & Htr2 & Hpv2 & _ & Hframe).
  exists aug, w1, rv, w2. do 4 (split; [done|]). split.
  - rewrite Hpv2. unfold entry_of.
    cbn [vs_name vs_counters with_context bumped with_counters].
    rewrite Hn. change (vs_counters (bumped "ninputs" s) !! "ninputs") with
      (counted "ninputs" (vs_counters s) !! "ninputs").
    rewrite counted_lookup, increment_below by done. done.
  - by apply (pv_at_beside w1 w2 self _ aug p h Hs1).
Qed.

Lemma marshalled_output_extends_history_witness :
  exists aug w1 rv w2,
    vsTransform 0 (VRef 1) VUndefined 7 marshal_world = (Returned tt, w1)
    /\ trace w1
       = trace marshal_world
         ++ [RealTransform 0 (VStr "in") VUndefined (TransformDone 0 aug 7)]
    /\ vsPush 0 (VStr "out") w1 = (Returned tt, w2)
    /\ trace w2 = trace w1 ++ [RealPush 0 (VRef rv)]
    /\ pv_at w2 rv = Some (VStr "out", [PEntry "t0" 5; PEntry "m" 3])
    /\ pv_at w2 aug = Some (VStr "in", [PEntry "t0" 5]).
Proof.
  exact (marshalled_output_extends_history marshal_world 0 marshal_stream "m"
           (VRef 1) VUndefined (VStr "out") (VStr "in") [PEntry "t0" 5] 7
           eq_refl eq_refl eq_refl ltac:(by vm_compute) eq_refl eq_refl eq_refl
           ltac:(discriminate)).
Defined.

Lemma vsFlush_state w self s cb :
  heap w !! self = Some (OStream s) -> is_Some (vs_name s) ->
  vs_context s = None ->
  exists aug w1,
    vsFlush self cb w = (Returned tt, w1)
    /\ heap w !! aug = None
    /\ heap w1 !! self = Some (OStream (with_context (Some aug) s))
    /\ pv_at w1 aug = Some (VUndefined, [])
    /\ trace w1 = trace w ++ [RealFlush self (FlushDone self aug cb)]
    /\ (forall x, x <> self -> is_Some (heap w !! x) -> heap w1 !! x = heap w !! x).
Proof.
  intros H Hn Hx. unfold vsFlush.
  rewrite (bind_returned _ _ _ _ _ (get_stream_eq _ _ _ H)).
  unfold isInstrumented. rewrite bool_decide_eq_true_2 by done.
  rewrite (bind_returned _ _ _ tt w) by reflexivity.
  rewrite Hx, bool_decide_eq_true_2 by done.
  rewrite (bind_returned _ _ _ tt w) by reflexivity.
  destruct (new_ProvenanceValue_spec w VUndefined) as (a & rv & Hnew & Ha & Hrv & Hne).
  assert (Hsa : self <> a) by (intros ->; congruence).
  assert (Hsrv : self <> rv) by (intros ->; congruence).
  rewrite (bind_returned _ _ _ _ _ Hnew).
  assert (Hs' : heap (put rv (OProv VUndefined a) (put a (OArray []) w)) !! self
                = Some (OStream s)) by (by rewrite !heap_put_ne).
  rewrite (bind_returned _ _ _ _ _ (update_stream_eq _ _ _ _ Hs')).
  rewrite log_eq. exists rv. eexists. split; [reflexivity|]. simpl.
  split; [done|]. split; [apply lookup_insert_eq|]. split; [|split; [done|]].
  - unfold pv_at. simpl.
    rewrite lookup_insert_ne, lookup_insert_eq by done.
    by rewrite lookup_insert_ne, lookup_insert_ne, lookup_insert_eq.
  - intros x Hxs [o Ho].
    rewrite !lookup_insert_ne; [done| | |done]; intros ->; congruence.
Qed.

(** X12.  What a marshalling stage emits from [_flush] has a history of
    one entry only, whatever came in before: the stage's name and the
    number of inputs it has seen so far.  The payload is the value
    pushed.  This is for a stage whose table has no counter
    [hasOwnProperty]. *)
Theorem flushed_output_has_one_entry (w : world) (self : loc) (s : stream)
    (n : string) (out : value) (cb : nat) :
  heap w !! self = Some (OStream s) -> vs_name s = Some n -> unshadowed s ->
  vs_context s = None -> vs_marshalmode s = Some marshal -> out <> VNull ->
  exists aug w1 rv w2,
    vsFlush self cb w = (Returned tt, w1)
    /\ trace w1 = trace w ++ [RealFlush self (FlushDone self aug cb)]
    /\ vsPush self out w1 = (Returned tt, w2)
    /\ trace w2 = trace w1 ++ [RealPush self (VRef rv)]
    /\ pv_at w2 rv = Some (out, [PEntry n (default 0 (vs_counters s !! "ninputs"))])
    /\ counter_at w2 self "ninputs" = vs_counters s !! "ninputs".
Proof.
  intros Hs Hn Hu Hx Hm Hout.
  destruct (vsFlush_state w self s cb Hs ltac:(by rewrite Hn) Hx)
    as (aug & w1 & Hrun & _ & Hs1 & Hpv & Htr & _).
  destruct (vsPush_marshal_spec w1 self _ aug out VUndefined [] Hs1
              ltac:(by simpl; rewrite Hn) Hu Hout eq_refl Hm Hpv)
    as (rv & w2 & Hpush & _ & Htr2 & Hpv2 & Hs2 & _).
  exists aug, w1, rv, w2. do 4 (split; [done|]). split.
  - rewrite Hpv2. unfold entry_of. simpl. by rewrite Hn.
  - erewrite counter_at_heap by exact Hs2.
    by rewrite (bumped_other "ninputs" "noutputs").
Qed.

Lemma flushed_output_has_one_entry_witness :
  exists aug w1 rv w2,
    vsFlush 0 7 marshal_world = (Returned tt, w1)
    /\ trace w1 = trace marshal_world ++ [RealFlush 0 (FlushDone 0 aug 7)]
    /\ vsPush 0 (VStr "last") w1 = (Returned tt, w2)
    /\ trace w2 = trace w1 ++ [RealPush 0 (VRef rv)]
    /\ pv_at w2 rv = Some (VStr "last", [PEntry "m" 2])
    /\ counter_at w2 0 "ninputs" = Some 2.
Proof.
  exact (flushed_output_has_one_entry marshal_world 0 marshal_stream "m"
           (VStr "last") 7 eq_refl eq_refl eq_refl eq_refl eq_refl
           ltac:(discriminate)).
Defined.

(** ** The completion callbacks *)

Lemma transform_done_plain w self s aug cb args :
  heap w !! self = Some (OStream s) -> vs_context s = Some aug ->
  length args < 3 ->
  negb (truthy (default VUndefined (args !! 0))) && (1 <? length args) = false ->
  transform_done self aug cb args w
  = (Returned tt,
     World (<[self := OStream (with_context None s)]> (heap w))
           (trace w ++ [Callback cb (take 1 args)])).
Proof.
  intros H Hx Hl Hno. unfold transform_done.
  rewrite (proj2 (Nat.ltb_lt (length args) 3)) by done.
  rewrite (bind_returned _ _ _ tt w) by reflexivity.
  rewrite (bind_returned _ _ _ _ _ (get_stream_eq _ _ _ H)).
  rewrite Hx, bool_decide_eq_true_2 by done.
  rewrite (bind_returned _ _ _ tt w) by reflexivity.
  rewrite Hno. cbn [when].
  rewrite (bind_returned _ _ _ tt w) by reflexivity.
  by rewrite (bind_returned _ _ _ _ _ (update_stream_eq _ _ _ _ H)).
Qed.

(** X13.  The callback handed to the wrapped [_transform] emits its
    second argument, through [vsPush], only when it is given one and the
    first is falsy; in every case the caller's callback gets the first
    argument alone, after the context is cleared.  With no argument, one
    argument, or a truthy first argument nothing is emitted: a chunk passed
    along with an error is dropped. *)
Theorem transform_callback_emits_on_success (w : world) (self aug : loc)
    (s : stream) (cb : nat) :
  heap w !! self = Some (OStream s) -> is_Some (vs_name s) ->
  vs_context s = Some aug ->
  (forall args, length args < 3 ->
     length args <= 1 \/ truthy (default VUndefined (args !! 0)) = true ->
     transform_done self aug cb args w
     = (Returned tt,
        World (<[self := OStream (with_context None s)]> (heap w))
              (trace w ++ [Callback cb (take 1 args)])))
  /\ (forall e out w1, truthy e = false ->
        vsPush self out w = (Returned tt, w1) ->
        exists s1,
          heap w1 !! self = Some (OStream s1)
          /\ transform_done self aug cb [e; out] w
             = (Returned tt,
                World (<[self := OStream (with_context None s1)]> (heap w1))
                      (trace w1 ++ [Callback cb [e]]))).
Proof.
  intros H Hn Hx. split.
  - intros args Hl Hcase. apply (transform_done_plain w self s); try done.
    destruct Hcase as [Hshort| ->]; [|done].
    rewrite (proj2 (Nat.ltb_ge 1 (length args))) by lia. apply andb_false_r.
  - intros e out w1 He Hpush.
    assert (Hctx : field_is ctx_of self (true, Some aug) w1).
    { replace w1 with (snd (vsPush self out w)) by (by rewrite Hpush).
      apply ctx_keeps_vsPush. exists s. split; [done|].
      unfold ctx_of, isInstrumented. by rewrite Hx, bool_decide_eq_true_2. }
    destruct Hctx as (s1 & Hs1 & Hc1). injection Hc1 as _ Hx1.
    exists s1. split; [done|]. unfold transform_done.
    change (length [e; out] <? 3) with true.
    rewrite (bind_returned _ _ _ tt w) by reflexivity.
    rewrite (bind_returned _ _ _ _ _ (get_stream_eq _ _ _ H)).
    rewrite Hx, bool_decide_eq_true_2 by done.
    rewrite (bind_returned _ _ _ tt w) by reflexivity.
    cbn [lookup list_lookup default from_option id length Nat.ltb Nat.leb andb].
    rewrite He. cbn [negb when andb].
    erewrite bind_returned; cycle 1.
    { rewrite (bind_returned _ _ _ _ _ Hpush).
      rewrite (bind_returned _ _ _ _ _ (get_stream_eq _ _ _ Hs1)).
      rewrite Hx1, bool_decide_eq_true_2 by done. reflexivity. }
    by rewrite (bind_returned _ _ _ _ _ (update_stream_eq _ _ _ _ Hs1)).
Qed.

Lemma transform_callback_emits_on_success_witness :
  transform_done 0 1 7 [VStr "failed"; VStr "out"] working_world
  = (Returned tt,
     World (<[0 := OStream marshal_stream]> (heap working_world))
           (trace working_world ++ [Callback 7 [VStr "failed"]])).
Proof.
  apply (proj1 (transform_callback_emits_on_success working_world 0 1 _ 7
                  eq_refl ltac:(simpl; eauto) eq_refl)
           [VStr "failed"; VStr "out"]).
  - simpl. lia.
  - by right.
Defined.

Lemma stream_after_update w l f r w' :
  update_stream l f w = (Returned r, w') ->
  exists s, heap w !! l = Some (OStream s)
            /\ w' = World (<[l := OStream (f s)]> (heap w)) (trace w).
Proof.
  unfold update_stream, bind, get_stream.
  destruct (heap w !! l) as [[| | |s]|]; try done.
  intros [= <- <-]. by exists s.
Qed.

Lemma resume_leaves_no_context k args w w' :
  resume k args w = (Returned tt, w') ->
  exists self aug cb s',
    k = match k with
        | TransformDone _ _ _ => TransformDone self aug cb
        | FlushDone _ _ _ => FlushDone self aug cb
        end
    /\ heap w' !! self = Some (OStream s') /\ vs_context s' = None.
Proof.
  destruct k as [self aug cb|self aug cb]; simpl; intros H;
    exists self, aug, cb.
  - unfold transform_done in H.
    apply bind_returned_inv in H as (? & w1 & _ & H).
    apply bind_returned_inv in H as (s & w2 & _ & H).
    apply bind_returned_inv in H as (? & w3 & _ & H).
    apply bind_returned_inv in H as (? & w4 & _ & H).
    apply bind_returned_inv in H as (? & w5 & Hup & H).
    apply stream_after_update in Hup as (s4 & Hs4 & Hw5). subst w5.
    rewrite log_eq in H. injection H as <-. simpl.
    exists (with_context None s4). split; [done|].
    split; [apply lookup_insert_eq|done].
  - unfold flush_done in H.
    apply bind_returned_inv in H as (s & w2 & _ & H).
    apply bind_returned_inv in H as (? & w3 & _ & H).
    apply bind_returned_inv in H as (? & w5 & Hup & H).
    apply stream_after_update in Hup as (s4 & Hs4 & Hw5). subst w5.
    rewrite log_eq in H. injection H as <-. simpl.
    exists (with_context None s4). split; [done|].
    split; [apply lookup_insert_eq|done].
Qed.

Lemma resume_out_of_context k self aug cb w s args :
  k = TransformDone self aug cb \/ k = FlushDone self aug cb ->
  heap w !! self = Some (OStream s) -> vs_context s <> Some aug ->
  exists msg, resume k args w = (Thrown (AssertionError msg), w).
Proof.
  intros [->| ->] Hs Hx; simpl.
  - unfold transform_done. destruct (length args <? 3); [|by eexists].
    rewrite (bind_returned _ _ _ tt w) by reflexivity.
    rewrite (bind_returned _ _ _ _ _ (get_stream_eq _ _ _ Hs)).
    rewrite bool_decide_eq_false_2 by done. by eexists.
  - unfold flush_done.
    rewrite (bind_returned _ _ _ _ _ (get_stream_eq _ _ _ Hs)).
    rewrite bool_decide_eq_false_2 by done. by eexists.
Qed.

(** X14.  A completion callback goes by the identity of the context.
    The callback handed to the wrapped [_transform] or [_flush] fails an
    assertion, with nothing emitted, the caller's callback not called and
    nothing changed, whenever the stage's context is not the very value
    object the callback was made for; so it does when it is called again
    right after it has returned, whatever the arguments.  But when that
    same value object is the context again, as after it came in once more,
    the old callback is taken for the new one: called with at most one
    argument it clears the context and calls the callback of the call it
    was made for. *)
Theorem completion_callback_needs_its_context (k : continuation)
    (self aug : loc) (cb : nat) :
  k = TransformDone self aug cb \/ k = FlushDone self aug cb ->
  (forall args args' w w',
     resume k args w = (Returned tt, w') ->
     exists msg, resume k args' w' = (Thrown (AssertionError msg), w'))
  /\ (forall w s args,
        heap w !! self = Some (OStream s) -> vs_context s <> Some aug ->
        exists msg, resume k args w = (Thrown (AssertionError msg), w))
  /\ (forall w s args,
        heap w !! self = Some (OStream s) -> vs_context s = Some aug ->
        length args <= 1 ->
        resume k args w
        = (Returned tt,
           World (<[self := OStream (with_context None s)]> (heap w))
                 (trace w ++ [Callback cb args]))).
Proof.
  intros Hk. split; [|split].
  - intros args args' w w' Hrun.
    destruct (resume_leaves_no_context k args w w' Hrun)
      as (self' & aug' & cb' & s' & Hk' & Hs' & Hx').
    assert (self' = self) as ->
      by (destruct Hk as [->| ->]; by injection Hk' as -> -> ->).
    apply (resume_out_of_context k self aug cb w' s'); [done|done|].
    by rewrite Hx'.
  - intros w s args. by apply (resume_out_of_context k self aug cb).
  - intros w s args Hs Hx Hl. destruct Hk as [->| ->]; simpl.
    + rewrite (transform_done_plain w self s aug cb args Hs Hx) by
        (lia || (rewrite (proj2 (Nat.ltb_ge 1 (length args))) by lia;
                 apply andb_false_r)).
      by rewrite take_ge by lia.
    + unfold flush_done.
      rewrite (bind_returned _ _ _ _ _ (get_stream_eq _ _ _ Hs)).
      rewrite Hx, bool_decide_eq_true_2 by done.
      rewrite (bind_returned _ _ _ tt w) by reflexivity.
      by rewrite (bind_returned _ _ _ _ _ (update_stream_eq _ _ _ _ Hs)).
Qed.

Lemma completion_callback_needs_its_context_witness :
  (exists w',
     resume (TransformDone 0 1 7) [] working_world = (Returned tt, w')
     /\ exists msg, resume (TransformDone 0 1 7) [] w' = (Thrown (AssertionError msg), w'))
  /\ (exists s,
        heap reprocessing_world !! 0 = Some (OStream s)
        /\ resume (TransformDone 0 1 7) [] reprocessing_world
           = (Returned tt,
              World (<[0 := OStream (with_context None s)]> (heap reprocessing_world))
                    (trace reprocessing_world ++ [Callback 7 []]))).
Proof.
  destruct (completion_callback_needs_its_context (TransformDone 0 1 7) 0 1 7
              ltac:(by left)) as (Honce & _ & Hstale).
  split.
  - eexists. split; [reflexivity|]. by apply (Honce [] [] working_world).
  - eexists. split; [reflexivity|].
    apply Hstale; [reflexivity|reflexivity|simpl; lia].
Defined.

(** ** Labels *)

Lemma label_eq inspect w l v es :
  pv_at w l = Some (v, es) ->
  label inspect l w = (Returned (trail es +:+ ": value " +:+ inspect v), w).
Proof.
  intros Hpv. destruct (pv_at_inv _ _ _ _ Hpv) as (a & Hl & Ha).
  unfold label.
  rewrite (bind_returned _ _ _ _ _ (get_prov_eq _ _ _ _ Hl)). cbv beta.
  cbn [fst snd].
  by rewrite (bind_returned _ _ _ _ _ (get_array_eq _ _ _ Ha)).
Qed.

Lemma trail_snoc h e :
  trail (h ++ [e])
  = match h with
    | [] => label_part e
    | _ :: _ => label_part e +:+ " from " +:+ trail h
    end.
Proof.
  unfold trail. rewrite fmap_app, reverse_app. cbn [fmap list_fmap reverse app].
  change (reverse [label_part e]) with [label_part e]. cbn [app].
  destruct h as [|e0 h]; [done|].
  destruct (reverse (label_part <$> e0 :: h)) as [|x xs] eqn:Hrev; [|done].
  apply (f_equal length) in Hrev. by rewrite length_reverse in Hrev.
Qed.

(** X15.  [label] lists the history newest first.  The label of what
    [next] returns starts with the entry just added, "name input count";
    the trail of the value it came from follows after " from ", when that
    value had a history at all; the payload, as [inspect] prints it, ends
    the label.  The label of the old value is as before. *)
Theorem label_puts_newest_first (inspect : value -> string) (w : world)
    (v : loc) (p0 p : value) (h : list pentry) (source : loc) (s : stream)
    (n : string) :
  pv_at w v = Some (p0, h) ->
  heap w !! source = Some (OStream s) -> vs_name s = Some n ->
  exists rv w',
    next v p source w = (Returned rv, w')
    /\ label inspect rv w'
       = (Returned
            (match h with
             | [] => n +:+ " input " +:+ pretty (default 0 (vs_counters s !! "ninputs"))
             | _ :: _ => (n +:+ " input "
                            +:+ pretty (default 0 (vs_counters s !! "ninputs")))
                         +:+ " from " +:+ trail h
             end +:+ ": value " +:+ inspect p), w')
    /\ label inspect v w' = (Returned (trail h +:+ ": value " +:+ inspect p0), w').
Proof.
  intros Hpv Hs Hn.
  destruct (next_spec w v p0 h p source s Hpv Hs ltac:(by rewrite Hn))
    as (rv & a & w' & Hrun & Hrv & Ha & Hrv' & Ha' & Hframe & _).
  exists rv, w'. split; [done|]. split.
  - rewrite (label_eq inspect w' rv p (h ++ [entry_of s])).
    + rewrite trail_snoc. unfold entry_of, label_part. simpl. rewrite Hn. simpl.
      by destruct h.
    + unfold pv_at. by rewrite Hrv', Ha'.
  - apply label_eq. rewrite (pv_at_frame w w'); [done|done|by rewrite Hpv].
Qed.

Lemma label_puts_newest_first_witness :
  exists rv w',
    next 1 (VStr "out") 0 marshal_world = (Returned rv, w')
    /\ label (fun _ => "'out'") rv w'
       = (Returned "m input 2 from t0 input 5: value 'out'", w').
Proof.
  destruct (label_puts_newest_first (fun _ => "'out'") marshal_world 1 (VStr "in")
              (VStr "out") [PEntry "t0" 5] 0 marshal_stream "m"
              eq_refl eq_refl eq_refl) as (rv & w' & Hrun & Hlabel & _).
  exists rv, w'. split; [exact Hrun|exact Hlabel].
Defined.

(** ** Rejected arguments *)

(** X16.  [vsWarn] checks what it is given before it does anything: with
    an [err] that is no Error object, or a [kind] that is no string, it
    fails an assertion and nothing is counted, emitted or allocated. *)
Theorem vsWarn_checks_its_arguments (w : world) (self : loc) (s : stream)
    (err kind : value) :
  heap w !! self = Some (OStream s) -> is_Some (vs_name s) ->
  (forall l m, err = VRef l -> heap w !! l <> Some (OError m))
  \/ (forall k, kind <> VStr k) ->
  exists msg, vsWarn self err kind w = (Thrown (AssertionError msg), w).
Proof.
  intros H Hn Hbad. unfold vsWarn.
  rewrite (bind_returned _ _ _ _ _ (method_of_object_eq _ _ _ H Hn)).
  rewrite (bind_returned _ _ _ _ _ (get_stream_eq _ _ _ H)).
  unfold isInstrumented. rewrite bool_decide_eq_true_2 by done.
  rewrite (bind_returned _ _ _ tt w) by reflexivity.
  assert (Hie : exists b, instanceof_Error err w = (Returned b, w)
                          /\ (b = true -> exists l m, err = VRef l
                                /\ heap w !! l = Some (OError m))).
  { unfold instanceof_Error. destruct err as [| | | | |l]; try by eexists.
    destruct (heap w !! l) as [[| |m|]|] eqn:Hl; try by eexists.
    exists true. split; [done|]. by exists l, m. }
  destruct Hie as (b & Hie & Hb).
  rewrite (bind_returned _ _ _ _ _ Hie).
  destruct b.
  - destruct (Hb eq_refl) as (l & m & -> & Hl).
    destruct Hbad as [Hbad|Hbad]; [by destruct (Hbad l m eq_refl)|].
    rewrite (bind_returned _ _ _ tt w) by reflexivity.
    destruct kind as [| | | |k|]; try by eexists.
    by destruct (Hbad k).
  - by eexists.
Qed.

Lemma vsWarn_checks_its_arguments_witness :
  exists msg,
    vsWarn 0 (VStr "oops") (VStr "bad line") marshal_world
    = (Thrown (AssertionError msg), marshal_world).
Proof.
  apply (vsWarn_checks_its_arguments marshal_world 0 marshal_stream
           (VStr "oops") (VStr "bad line") eq_refl ltac:(simpl; eauto)).
  left. intros l m Heq. discriminate Heq.
Defined.

(** X17.  [next] and [withSource] take an instrumented source only: with
    an object that has no name they fail an assertion before the new value
    is made, so nothing is allocated and no history is touched. *)
Theorem next_needs_an_instrumented_source (w : world) (self source : loc)
    (o : obj) (p : value) :
  heap w !! source = Some o ->
  (forall s, o = OStream s -> vs_name s = None) ->
  next self p source w = (Thrown (AssertionError no_message), w)
  /\ (is_Some (pv_at w self) ->
      withSource self source w = (Thrown (AssertionError no_message), w)).
Proof.
  intros Ho Hplain.
  assert (Hnext : forall v, next self v source w
                            = (Thrown (AssertionError no_message), w)).
  { intros v. unfold next, bind, isInstrumented_at. rewrite Ho.
    destruct o as [| | |s]; try done.
    unfold isInstrumented. rewrite (Hplain s eq_refl).
    by rewrite bool_decide_eq_false_2 by (by intros [? ?]). }
  split; [apply Hnext|].
  intros [[v es] Hpv]. destruct (pv_at_inv _ _ _ _ Hpv) as (a & Hl & _).
  unfold withSource.
  rewrite (bind_returned _ _ _ _ _ (get_prov_eq _ _ _ _ Hl)). apply Hnext.
Qed.

Lemma next_needs_an_instrumented_source_witness :
  next 1 (VStr "out") 3 (put 3 (OStream (plain_stream "Socket")) marshal_world)
  = (Thrown (AssertionError no_message),
     put 3 (OStream (plain_stream "Socket")) marshal_world).
Proof.
  apply (proj1 (next_needs_an_instrumented_source
                  (put 3 (OStream (plain_stream "Socket")) marshal_world) 1 3
                  (OStream (plain_stream "Socket")) (VStr "out") eq_refl
                  ltac:(by intros s [= <-]))).
Defined.

(** ** Dumping counters *)

Lemma units_le_total a : forall b, units_le a b = true \/ units_le b a = true.
Proof.
  induction a as [|x a IH]; intros [|y b]; simpl; auto.
  destruct (N.ltb_spec x y), (N.ltb_spec y x); auto; lia.
Qed.

Lemma name_le_total : Total name_le.
Proof.
  intros a b. unfold name_le.
  destruct (units_le_total (utf16 a) (utf16 b)) as [->| ->]; [by left|by right].
Qed.

(** [sort()] goes by UTF-16 code units, not by bytes or code points. *)
Lemma names_go_by_code_units :
  utf16 fullwidth_tilde = [65374%N]
  /\ utf16 grinning_face = [55357%N; 56832%N]
  /\ name_le grinning_face fullwidth_tilde
  /\ ~ name_le fullwidth_tilde grinning_face
  /\ sorted_names {[ fullwidth_tilde := 1; grinning_face := 2; "z" := 3 ]}
     = ["z"; grinning_face; fullwidth_tilde].
Proof. repeat split; by vm_compute. Qed.

Lemma vsName_eq w self s n :
  heap w !! self = Some (OStream s) -> vs_name s = Some n ->
  vsName self w = (Returned n, w).
Proof.
  intros H Hn. unfold vsName.
  rewrite (bind_returned _ _ _ _ _ (method_of_object_eq _ _ _ H ltac:(by rewrite Hn))).
  rewrite (bind_returned _ _ _ _ _ (get_stream_eq _ _ _ H)).
  by rewrite Hn.
Qed.

Lemma vsCounters_eq w self s :
  heap w !! self = Some (OStream s) -> is_Some (vs_name s) ->
  vsCounters self w = (Returned (vs_counters s), w).
Proof.
  intros H Hn. unfold vsCounters.
  rewrite (bind_returned _ _ _ _ _ (method_of_object_eq _ _ _ H Hn)).
  by rewrite (bind_returned _ _ _ _ _ (get_stream_eq _ _ _ H)).
Qed.

(** X18.  [vsDumpCounters] writes one line for each counter of the
    object and no other line, in the order of the counters' names as
    [sort()] has it (UTF-16 code unit by code unit); each line is made of
    the object's name, the counter's name with a colon, and the counter's
    value.  An object with no counters gives no output.  Nothing is
    changed. *)
Theorem vsDumpCounters_lists_counters_in_order
    (sprintf_counter : string -> string -> nat -> string)
    (w : world) (self : loc) (s : stream) (n : string) :
  heap w !! self = Some (OStream s) -> vs_name s = Some n ->
  exists names,
    vsDumpCounters sprintf_counter self w
    = (Returned ((fun c => sprintf_counter n (c +:+ ":")
                             (default 0 (vs_counters s !! c))) <$> names), w)
    /\ Sorted name_le names /\ NoDup names
    /\ (forall c, c ∈ names <-> is_Some (vs_counters s !! c))
    /\ (vs_counters s = ∅ -> names = []).
Proof.
  intros H Hn. exists (sorted_names (vs_counters s)). split; [|split; [|split; [|split]]].
  - unfold vsDumpCounters.
    rewrite (bind_returned _ _ _ _ _ (vsName_eq _ _ _ _ H Hn)).
    by rewrite (bind_returned _ _ _ _ _
                  (vsCounters_eq _ _ _ H ltac:(by rewrite Hn))).
  - apply Sorted_merge_sort, name_le_total.
  - unfold sorted_names. rewrite merge_sort_Permutation.
    apply NoDup_fst_map_to_list.
  - intros c. unfold sorted_names. rewrite merge_sort_Permutation.
    rewrite list_elem_of_fmap. split.
    + intros ([c' v] & -> & Hin). apply elem_of_map_to_list in Hin. by exists v.
    + intros [v Hv]. exists (c, v). split; [done|]. by apply elem_of_map_to_list.
  - intros ->. unfold sorted_names. by rewrite map_to_list_empty.
Qed.

Lemma vsDumpCounters_lists_counters_in_order_witness :
  exists names,
    vsDumpCounters (fun n c v => n +:+ " " +:+ c +:+ " " +:+ pretty v) 0
      (put 0 (OStream (bumped "noutputs" marshal_stream)) marshal_world)
    = (Returned ((fun c => "m" +:+ " " +:+ (c +:+ ":") +:+ " "
                             +:+ pretty (default 0
                                   (vs_counters (bumped "noutputs" marshal_stream) !! c)))
                   <$> names),
       put 0 (OStream (bumped "noutputs" marshal_stream)) marshal_world)
    /\ Sorted name_le names /\ NoDup names
    /\ (forall c, c ∈ names
                  <-> is_Some (vs_counters (bumped "noutputs" marshal_stream) !! c))
    /\ (vs_counters (bumped "noutputs" marshal_stream) = ∅ -> names = []).
Proof.
  exact (vsDumpCounters_lists_counters_in_order
           (fun n c v => n +:+ " " +:+ c +:+ " " +:+ pretty v)
           (put 0 (OStream (bumped "noutputs" marshal_stream)) marshal_world) 0
           (bumped "noutputs" marshal_stream) "m" eq_refl eq_refl).
Defined.

(** ** Reading from the tail *)

Lemma read_loop_stop tail_read native_push self :
  push_buffers native_push -> read_leaves tail_read self ->
  forall fuel w s w',
    heap w !! self = Some (OStream s) ->
    read_loop tail_read native_push fuel self w = (Returned true, w') ->
    exists s',
      heap w' !! self = Some (OStream s')
      /\ rs_highWaterMark s' = rs_highWaterMark s
      /\ (ps_needreadable s' = true \/ (rs_highWaterMark s' <= rs_length s')%Z).
Proof.
  intros Hpush Hread. induction fuel as [|fuel IH]; intros w s w' Hs Hrun; [done|].
  cbn [read_loop] in Hrun.
  rewrite (bind_returned _ _ _ _ _ (get_stream_eq _ _ _ Hs)) in Hrun.
  unfold bind at 1 in Hrun.
  pose proof (ps_tail_reads s w) as Hw0.
  destruct (ps_tail s w) as [[tail|e] w0] eqn:Htail; simpl in Hw0; subst w0;
    [|done].
  unfold bind at 1 in Hrun. pose proof (Hread tail w s Hs) as Hs1.
  destruct (tail_read tail w) as [[chunk|e] w1]; simpl in Hs1; [|done].
  destruct (bool_decide (chunk = VNull)).
  { rewrite (bind_returned _ _ _ _ _ (update_stream_eq _ _ _ _ Hs1)) in Hrun.
    injection Hrun as <-. eexists. split; [apply lookup_insert_eq|].
    split; [done|]. by left. }
  rewrite (bind_returned _ _ _ _ _ (Hpush self chunk w1 s Hs1)) in Hrun.
  destruct (decide (rs_length s + 1 < rs_highWaterMark s)%Z) as [Hlt|Hge].
  - rewrite bool_decide_eq_true_2 in Hrun by done. cbn [negb] in Hrun.
    apply (IH _ (with_rs_length (rs_length s + 1) s)) in Hrun;
      [done|apply heap_put_eq].
  - rewrite bool_decide_eq_false_2 in Hrun by done. cbn [negb] in Hrun.
    injection Hrun as <-. eexists. split; [apply heap_put_eq|].
    split; [done|]. right. simpl. lia.
Qed.

(** X19.  [_read] does not stop without leaving a way on.  With a
    [push] that buffers and a tail whose [read] leaves the pipeline alone,
    when the loop of [_read] has come to its [break], either the buffer has
    reached the high-water mark, or [ps_needreadable] is set, so that the
    next ['readable'] of the tail starts the reading again. *)
Theorem read_stops_full_or_waiting (tail_read : loc -> M value)
    (native_push : loc -> value -> M bool) (fuel : nat) (w w' : world)
    (self : loc) (s : stream) :
  push_buffers native_push -> read_leaves tail_read self ->
  heap w !! self = Some (OStream s) ->
  PipelineStream_read tail_read native_push fuel self w = (Returned true, w') ->
  exists s',
    heap w' !! self = Some (OStream s')
    /\ rs_highWaterMark s' = rs_highWaterMark s
    /\ (ps_needreadable s' = true \/ (rs_highWaterMark s' <= rs_length s')%Z).
Proof.
  intros Hpush Hread Hs Hrun. unfold PipelineStream_read in Hrun.
  rewrite (bind_returned _ _ _ _ _ (get_stream_eq _ _ _ Hs)) in Hrun.
  destruct (rs_length s >? rs_highWaterMark s + 1)%Z; [done|].
  by apply (read_loop_stop tail_read native_push self Hpush Hread fuel w s).
Qed.

Lemma read_stops_full_or_waiting_witness :
  exists w' s',
    PipelineStream_read (fun _ => ret VNull) buffering_push 5 0 filling_world
    = (Returned true, w')
    /\ heap w' !! 0 = Some (OStream s')
    /\ rs_highWaterMark s' = 16%Z
    /\ (ps_needreadable s' = true \/ (rs_highWaterMark s' <= rs_length s')%Z).
Proof.
  eexists.
  destruct (read_stops_full_or_waiting (fun _ => ret VNull) buffering_push 5
              filling_world _ 0 filling_pipeline buffering_push_buffers
              ltac:(by intros tail w s Hs) eq_refl eq_refl) as (s' & Hs' & Hh & Hstop).
  exists s'. split; [reflexivity|]. split; [exact Hs'|]. split; [exact Hh|exact Hstop].
Defined.

(** X20.  The tail's ['readable'] matters only to a pipeline that waits
    for it.  When [ps_needreadable] is not set, [onTailReadable] returns
    with nothing read and nothing changed.  When it is set, the flag is
    taken down before [_read] runs: should the buffer be past the
    high-water mark by more than one, the call throws with the flag down;
    and when the reading has come to its [break], the buffer is full or the
    flag is up again. *)
Theorem onTailReadable_only_when_waiting (tail_read : loc -> M value)
    (native_push : loc -> value -> M bool) (fuel : nat) (w : world)
    (self : loc) (s : stream) :
  heap w !! self = Some (OStream s) ->
  (ps_needreadable s = false ->
     onTailReadable tail_read native_push fuel self w = (Returned true, w))
  /\ (ps_needreadable s = true ->
      ((rs_length s > rs_highWaterMark s + 1)%Z ->
         onTailReadable tail_read native_push fuel self w
         = (Thrown (ThrownError "unexpected call to pipeline._read()"),
            put self (OStream (with_needreadable false s)) w))
      /\ (push_buffers native_push -> read_leaves tail_read self ->
          forall w', onTailReadable tail_read native_push fuel self w
                     = (Returned true, w') ->
            exists s',
              heap w' !! self = Some (OStream s')
              /\ (ps_needreadable s' = true
                  \/ (rs_highWaterMark s' <= rs_length s')%Z))).
Proof.
  intros Hs. unfold onTailReadable.
  rewrite (bind_returned _ _ _ _ _ (get_stream_eq _ _ _ Hs)).
  split; [by intros ->|]. intros ->. cbn [negb].
  rewrite (bind_returned _ _ _ _ _ (update_stream_eq _ _ _ _ Hs)).
  fold (put self (OStream (with_needreadable false s)) w).
  split.
  - intros Hover. unfold PipelineStream_read.
    erewrite bind_returned by (apply get_stream_eq, heap_put_eq).
    simpl. by rewrite (proj2 (Z.gtb_gt _ _)) by lia.
  - intros Hpush Hread w' Hrun. unfold PipelineStream_read in Hrun.
    erewrite bind_returned in Hrun by (apply get_stream_eq, heap_put_eq).
    simpl in Hrun.
    destruct (rs_length s >? rs_highWaterMark s + 1)%Z; [done|].
    destruct (read_loop_stop tail_read native_push self Hpush Hread fuel _
                (with_needreadable false s) w' ltac:(apply heap_put_eq) Hrun)
      as (s' & Hs' & _ & Hstop).
    by exists s'.
Qed.

Lemma onTailReadable_only_when_waiting_witness :
  onTailReadable (fun _ => ret (VStr "chunk")) buffering_push 5 0 filling_world
  = (Returned true, filling_world)
  /\ exists w' s',
       onTailReadable (fun _ => ret (VStr "chunk")) buffering_push 5 0 waiting_world
       = (Returned true, w')
       /\ heap w' !! 0 = Some (OStream s')
       /\ (ps_needreadable s' = true \/ (rs_highWaterMark s' <= rs_length s')%Z).
Proof.
  split.
  - apply (proj1 (onTailReadable_only_when_waiting (fun _ => ret (VStr "chunk"))
                    buffering_push 5 filling_world 0 filling_pipeline eq_refl)).
    reflexivity.
  - eexists.
    destruct (proj2 (proj2 (onTailReadable_only_when_waiting
                (fun _ => ret (VStr "chunk")) buffering_push 5 waiting_world 0
                (with_needreadable true filling_pipeline) eq_refl) eq_refl)
                buffering_push_buffers ltac:(by intros tail w s Hs) _ eq_refl)
      as (s' & Hs' & Hstop).
    exists s'. split; [reflexivity|]. split; [exact Hs'|exact Hstop].
Defined.

(** ** Permanence of instrumentation *)

Section Permanence.
Context (u : loc) (n k : string) (v : nat).

Ltac settled_leaf :=
  first
    [ keeps_leaf
    | apply keeps_update_stream; intros -> ? ?; first [assumption | congruence] ].

Ltac settled_auto :=
  repeat first
    [ assumption
    | match goal with
      | H : context [keeps _ _] |- keeps _ _ => apply H
      end
    | settled_leaf
    | apply keeps_when
    | match goal with
      | |- keeps _ (match ?x with _ => _ end) => destruct x
      | |- keeps _ (bind _ _) => apply keeps_bind; [|intros ?]
      end ].

Lemma settled_named w s :
  heap w !! u = Some (OStream s) -> name_and_floor k v s = (Some n, true) ->
  vs_name s = Some n /\ v <= default 0 (vs_counters s !! k).
Proof.
  unfold name_and_floor. intros _ [= Hn Hv]. split; [done|].
  by apply bool_decide_eq_true in Hv.
Qed.

Lemma settled_keeps_other {A} (c : loc -> M A) l :
  (l <> u -> keeps (field_is (name_and_floor k v) u (Some n, true)) (c l)) ->
  (forall w s, heap w !! u = Some (OStream s) -> vs_name s = Some n ->
               v <= default 0 (vs_counters s !! k) ->
               field_is (name_and_floor k v) u (Some n, true) (snd (c u w))) ->
  keeps (field_is (name_and_floor k v) u (Some n, true)) (c l).
Proof.
  intros Hother Hsame. destruct (decide (l = u)) as [->|Hne]; [|by apply Hother].
  intros w (s & Hs & Hf). destruct (settled_named w s Hs Hf) as [Hn Hv].
  by apply (Hsame w s).
Qed.

Lemma settled_put w s :
  vs_name s = Some n -> v <= default 0 (vs_counters s !! k) ->
  field_is (name_and_floor k v) u (Some n, true) (put u (OStream s) w).
Proof.
  intros Hn Hv. exists s. split; [apply heap_put_eq|].
  unfold name_and_floor. by rewrite Hn, bool_decide_eq_true_2.
Qed.

Lemma settled_keeps_vsCounterBump l name :
  keeps (field_is (name_and_floor k v) u (Some n, true))
    (vsCounterBump l name).
Proof.
  apply (settled_keeps_other (fun l => vsCounterBump l name)).
  - intros Hne. unfold vsCounterBump, method_of_object.
    repeat first
      [ keeps_leaf | apply keeps_when
      | apply keeps_update_stream; intros Heq; by destruct (Hne Heq)
      | match goal with
        | |- keeps _ (match ?x with _ => _ end) => destruct x
        | |- keeps _ (bind _ _) => apply keeps_bind; [|intros ?]
        end ].
  - intros w s Hs Hn Hv.
    destruct (vs_counters s !! "hasOwnProperty") as [x|] eqn:Hshadow.
    + rewrite (vsCounterBump_shadowed w u s name Hs) by (rewrite ?Hn, ?Hshadow; eauto).
      exists s. split; [done|]. unfold name_and_floor.
      by rewrite Hn, bool_decide_eq_true_2.
    + rewrite (vsCounterBump_eq w u s name Hs ltac:(by rewrite Hn) Hshadow).
      apply settled_put; [done|]. unfold bumped. cbn [vs_counters with_counters].
      pose proof (counted_ge name k (vs_counters s)). lia.
Qed.

Lemma settled_keeps_instrumentObject l name :
  keeps (field_is (name_and_floor k v) u (Some n, true))
    (instrumentObject l name).
Proof.
  apply (settled_keeps_other (fun l => instrumentObject l name)).
  - intros Hne. unfold instrumentObject.
    repeat first
      [ keeps_leaf
      | apply keeps_update_stream; intros Heq; by destruct (Hne Heq)
      | match goal with
        | |- keeps _ (bind _ _) => apply keeps_bind; [|intros ?]
        end ].
  - intros w s Hs Hn Hv.
    rewrite (instrumentObject_taken w u s name Hs ltac:(by rewrite Hn)). simpl.
    exists s. split; [done|]. unfold name_and_floor.
    by rewrite Hn, bool_decide_eq_true_2.
Qed.

Lemma settled_keeps_vsWarn l err kind :
  keeps (field_is (name_and_floor k v) u (Some n, true))
    (vsWarn l err kind).
Proof.
  pose proof settled_keeps_vsCounterBump.
  unfold vsWarn, method_of_object, emit. settled_auto.
Qed.

Lemma settled_keeps_instrumentStream l :
  keeps (field_is (name_and_floor k v) u (Some n, true))
    (instrumentStream l).
Proof. unfold instrumentStream. settled_auto. Qed.

Lemma settled_keeps_vsRecordPipe l d :
  keeps (field_is (name_and_floor k v) u (Some n, true))
    (vsRecordPipe l d).
Proof.
  pose proof settled_keeps_instrumentObject. pose proof settled_keeps_instrumentStream.
  unfold vsRecordPipe, method_of_stream, push_downstream, push_upstream.
  settled_auto.
Qed.

Lemma settled_keeps_vsRecordUnpipe l d :
  keeps (field_is (name_and_floor k v) u (Some n, true))
    (vsRecordUnpipe l d).
Proof. unfold vsRecordUnpipe, method_of_stream, length_of. settled_auto. Qed.

Lemma settled_keeps_stream_on_pipe l src :
  keeps (field_is (name_and_floor k v) u (Some n, true))
    (stream_on_pipe l src).
Proof.
  pose proof settled_keeps_instrumentObject. pose proof settled_keeps_instrumentStream.
  pose proof settled_keeps_vsRecordPipe.
  unfold stream_on_pipe. settled_auto.
Qed.

Lemma settled_keeps_transform_on_pipe upstream :
  keeps (field_is (name_and_floor k v) u (Some n, true)) (transform_on_pipe upstream).
Proof. unfold transform_on_pipe. settled_auto. Qed.

Lemma settled_keeps_pipeline_on_pipe upstream :
  keeps (field_is (name_and_floor k v) u (Some n, true)) (pipeline_on_pipe upstream).
Proof. unfold pipeline_on_pipe. settled_auto. Qed.

Lemma settled_keeps_vsTransform l chunk enc cb :
  keeps (field_is (name_and_floor k v) u (Some n, true)) (vsTransform l chunk enc cb).
Proof.
  pose proof settled_keeps_vsCounterBump.
  unfold vsTransform. settled_auto.
Qed.

Lemma settled_keeps_vsFlush l cb :
  keeps (field_is (name_and_floor k v) u (Some n, true))
    (vsFlush l cb).
Proof. unfold vsFlush. settled_auto. Qed.

Lemma settled_keeps_vsPush l chunk :
  keeps (field_is (name_and_floor k v) u (Some n, true))
    (vsPush l chunk).
Proof.
  pose proof settled_keeps_vsCounterBump.
  unfold vsPush. settled_auto.
Qed.

Lemma settled_keeps_transform_done l aug cb args :
  keeps (field_is (name_and_floor k v) u (Some n, true)) (transform_done l aug cb args).
Proof.
  pose proof settled_keeps_vsPush.
  unfold transform_done. settled_auto.
Qed.

Lemma settled_keeps_flush_done l aug cb args :
  keeps (field_is (name_and_floor k v) u (Some n, true)) (flush_done l aug cb args).
Proof. unfold flush_done. settled_auto. Qed.

Lemma settled_keeps_instrumentTransform l :
  keeps (field_is (name_and_floor k v) u (Some n, true))
    (instrumentTransform l).
Proof. unfold instrumentTransform. settled_auto. Qed.

Lemma settled_keeps_perform c :
  keeps (field_is (name_and_floor k v) u (Some n, true))
    (perform c).
Proof.
  destruct c as [| | | | | | | | | | | |[]|t]; simpl.
  - apply settled_keeps_instrumentObject.
  - apply settled_keeps_instrumentStream.
  - apply settled_keeps_vsCounterBump.
  - apply settled_keeps_vsWarn.
  - apply settled_keeps_vsRecordPipe.
  - apply settled_keeps_vsRecordUnpipe.
  - apply settled_keeps_stream_on_pipe.
  - apply settled_keeps_transform_on_pipe.
  - apply settled_keeps_pipeline_on_pipe.
  - apply settled_keeps_vsTransform.
  - apply settled_keeps_vsFlush.
  - apply settled_keeps_vsPush.
  - apply settled_keeps_transform_done.
  - apply settled_keeps_flush_done.
  - apply settled_keeps_instrumentTransform.
Qed.

Lemma settled_keeps_run cs : forall w,
  field_is (name_and_floor k v) u (Some n, true) w ->
  field_is (name_and_floor k v) u (Some n, true) (run cs w).
Proof.
  induction cs as [|c cs IH]; intros w Hw; [done|].
  simpl. apply IH. by apply settled_keeps_perform.
Qed.

End Permanence.

(** X21.  Instrumentation is for good.  Whatever is called afterwards,
    in any order and with any arguments, failed calls included, an
    instrumented object keeps the name it was given, and none of its
    counters is ever reset or goes down. *)
Theorem name_stays_and_counters_never_drop (w : world) (cs : list call)
    (u : loc) (s : stream) (n k : string) :
  heap w !! u = Some (OStream s) -> vs_name s = Some n ->
  exists s',
    heap (run cs w) !! u = Some (OStream s')
    /\ vs_name s' = Some n
    /\ default 0 (vs_counters s !! k) <= default 0 (vs_counters s' !! k).
Proof.
  intros Hs Hn.
  destruct (settled_keeps_run u n k (default 0 (vs_counters s !! k)) cs w)
    as (s' & Hs' & Hf).
  { exists s. split; [done|]. unfold name_and_floor.
    by rewrite Hn, bool_decide_eq_true_2. }
  exists s'. split; [done|].
  by apply (settled_named u n k _ (run cs w)).
Qed.

Lemma name_stays_and_counters_never_drop_witness :
  exists s',
    heap (run [InstrumentObject 0 "other"; Transform 0 (VStr "x") VUndefined 7;
               Push 0 (VStr "y"); InstrumentStream 0; Resume (TransformDone 0 3 7) []]
            marshal_world) !! 0 = Some (OStream s')
    /\ vs_name s' = Some "m"
    /\ default 0 (vs_counters marshal_stream !! "ninputs")
       <= default 0 (vs_counters s' !! "ninputs").
Proof.
  exact (name_stays_and_counters_never_drop marshal_world
           [InstrumentObject 0 "other"; Transform 0 (VStr "x") VUndefined 7;
            Push 0 (VStr "y"); InstrumentStream 0; Resume (TransformDone 0 3 7) []]
           0 marshal_stream "m" "ninputs" eq_refl eq_refl).
Defined.
